(** * Verification model of the concurrent transcode runner (transcode.py)

    The development embeds the job-claiming protocol, the per-file transcode
    pipeline and the worker loop of [transcode.py] over an explicit model of
    the file system, and proves the properties the specification states
    about them.  It also embeds [analyze_codecs.py], the script that writes
    the list the runner works off.

    Layout:
    - [Str]      : the [str] methods the program calls;
    - [PosixPath]: the [os.path] functions it calls;
    - [FS]       : files, directories and the system calls;
    - [Prog]     : state-and-exception monad in which the program is written;
    - [Transcode]: the functions of [transcode.py], in source order;
    - [Pool]     : the workers interleaved over the shared file system;
    - [AnalyzeCodecs]: the functions of [analyze_codecs.py];
    - theorems. *)

From Stdlib Require Import Ascii String List Bool Arith NArith Lia Permutation Sorted.
From stdpp Require Import base option list gmap strings.

(** String concatenation computes by [simpl] on its first argument. *)
#[global] Arguments String.append !_ _ / : simpl nomatch.

(* ===================================================================== *)
(** * Python's [str] methods                                              *)
(* ===================================================================== *)

(** A [string] is read as a Python [str] whose code points are below 256. *)

Module Str.

Definition LF : ascii := ascii_of_nat 10.
Definition CR : ascii := ascii_of_nat 13.
Definition slash : ascii := ascii_of_nat 47.

(** [str.isspace] on one character (code points below 256). *)
Definition is_space (a : ascii) : bool :=
  let n := nat_of_ascii a in
  ((9 <=? n) && (n <=? 13)) || ((28 <=? n) && (n <=? 32))
  || (n =? 133) || (n =? 160).

(** Membership of a character in the [chars] argument of [strip]. *)
Fixpoint in_chars (chars : string) (a : ascii) : bool :=
  match chars with
  | EmptyString => false
  | String c cs => Ascii.eqb c a || in_chars cs a
  end.

Fixpoint lstrip_by (f : ascii → bool) (s : string) : string :=
  match s with
  | EmptyString => EmptyString
  | String a s' => if f a then lstrip_by f s' else s
  end.

Fixpoint rstrip_by (f : ascii → bool) (s : string) : string :=
  match s with
  | EmptyString => EmptyString
  | String a s' =>
      match rstrip_by f s' with
      | EmptyString => if f a then EmptyString else String a EmptyString
      | r => String a r
      end
  end.

(** [s.strip()] *)
Definition strip (s : string) : string := lstrip_by is_space (rstrip_by is_space s).
(** [s.strip(chars)], [s.lstrip(chars)], [s.rstrip(chars)] *)
Definition strip_chars (chars s : string) : string :=
  lstrip_by (in_chars chars) (rstrip_by (in_chars chars) s).
Definition lstrip_chars (chars s : string) : string := lstrip_by (in_chars chars) s.
Definition rstrip_chars (chars s : string) : string := rstrip_by (in_chars chars) s.

(** [s.lower()] on code points below 256: A-Z and the Latin-1 capitals. *)
Definition lower_char (a : ascii) : ascii :=
  let n := nat_of_ascii a in
  if ((65 <=? n) && (n <=? 90)) || ((192 <=? n) && (n <=? 214))
     || ((216 <=? n) && (n <=? 222))
  then ascii_of_nat (n + 32) else a.

Fixpoint lower (s : string) : string :=
  match s with
  | EmptyString => EmptyString
  | String a s' => String (lower_char a) (lower s')
  end.

(** [s.startswith(p)] *)
Fixpoint startswith (s p : string) {struct p} : bool :=
  match p, s with
  | EmptyString, _ => true
  | String _ _, EmptyString => false
  | String b p', String a s' => Ascii.eqb a b && startswith s' p'
  end.

(** [s.endswith(c)] for a one-character suffix. *)
Fixpoint ends_with_char (s : string) (c : ascii) : bool :=
  match s with
  | EmptyString => false
  | String a EmptyString => Ascii.eqb a c
  | String _ s' => ends_with_char s' c
  end.

(** [s[n:]] and [s[:n]] *)
Fixpoint slice_from (n : nat) (s : string) : string :=
  match n, s with
  | 0, _ => s
  | S _, EmptyString => EmptyString
  | S n', String _ s' => slice_from n' s'
  end.

Fixpoint slice_to (n : nat) (s : string) : string :=
  match n, s with
  | 0, _ => EmptyString
  | S _, EmptyString => EmptyString
  | S n', String a s' => String a (slice_to n' s')
  end.

(** [s.rfind(c) + 1]: one past the last occurrence of [c], 0 when absent. *)
Fixpoint rfind1 (c : ascii) (s : string) : nat :=
  match s with
  | EmptyString => 0
  | String a s' =>
      match rfind1 c s' with
      | 0 => if Ascii.eqb a c then 1 else 0
      | S n => S (S n)
      end
  end.

(** [s.split(c)] for a one-character separator: never the empty list. *)
Fixpoint split (c : ascii) (s : string) : list string :=
  match s with
  | EmptyString => [EmptyString]
  | String a s' =>
      if Ascii.eqb a c then EmptyString :: split c s'
      else match split c s' with
           | x :: xs => String a x :: xs
           | [] => [String a EmptyString]
           end
  end.

(** [sep.join(l)] *)
Fixpoint join (sep : string) (l : list string) : string :=
  match l with
  | [] => EmptyString
  | [x] => x
  | x :: xs => x +:+ sep +:+ join sep xs
  end.

(** Truthiness of a [str]: non-empty. *)
Definition nonempty (s : string) : bool :=
  match s with EmptyString => false | _ => true end.

(** Reading a text file opened with the default [newline=None]: "\r\n" and
    a lone "\r" arrive as "\n". *)
Fixpoint universal_newlines (s : string) : string :=
  match s with
  | EmptyString => EmptyString
  | String a s' =>
      if Ascii.eqb a CR then
        String LF (match s' with
                   | String b s'' =>
                       if Ascii.eqb b LF then universal_newlines s''
                       else universal_newlines s'
                   | EmptyString => EmptyString
                   end)
      else String a (universal_newlines s')
  end.

(** The lines [for ln in f] yields on translated text, terminators kept. *)
Fixpoint lines_keepends (s : string) : list string :=
  match s with
  | EmptyString => []
  | String a s' =>
      if Ascii.eqb a LF then String LF EmptyString :: lines_keepends s'
      else match lines_keepends s' with
           | [] => [String a EmptyString]
           | l :: ls => String a l :: ls
           end
  end.

Definition file_lines (content : string) : list string :=
  lines_keepends (universal_newlines content).

End Str.

(* ===================================================================== *)
(** * [os.path] (posixpath)                                               *)
(* ===================================================================== *)

Module PosixPath.
Import Str.

Definition sep : string := String slash EmptyString.

(** [os.path.isabs] *)
Definition isabs (p : string) : bool := startswith p sep.

(** [os.path.join(a, b)] with two arguments. *)
Definition join2 (a b : string) : string :=
  if startswith b sep then b
  else if negb (nonempty a) || ends_with_char a slash then a +:+ b
  else a +:+ sep +:+ b.

(** The component loop of [normpath]; [acc] is [new_comps] reversed.
    [initial] is the truth value of [initial_slashes]. *)
Fixpoint norm_loop (initial : bool) (comps acc : list string) : list string :=
  match comps with
  | [] => acc
  | comp :: rest =>
      if (comp =? "")%string || (comp =? ".")%string then norm_loop initial rest acc
      else if negb (comp =? "..")%string
              || (negb initial && match acc with [] => true | _ => false end)
              || match acc with top :: _ => (top =? "..")%string | [] => false end
      then norm_loop initial rest (comp :: acc)
      else match acc with
           | _ :: acc' => norm_loop initial rest acc'
           | [] => norm_loop initial rest acc
           end
  end.

(** [initial_slashes]: 0, 1, or 2 (exactly two leading slashes are kept). *)
Definition initial_slashes (p : string) : nat :=
  if startswith p sep then
    if startswith p (sep +:+ sep) && negb (startswith p (sep +:+ sep +:+ sep))
    then 2 else 1
  else 0.

(** [os.path.normpath] *)
Definition normpath (p : string) : string :=
  if negb (nonempty p) then "." else
  let n := initial_slashes p in
  let comps := rev (norm_loop (0 <? n) (split slash p) []) in
  let path := Str.join sep comps in
  let path := match n with
              | 0 => path
              | 1 => sep +:+ path
              | _ => sep +:+ sep +:+ path
              end in
  if nonempty path then path else ".".

(** [os.path.abspath], with [cwd] the value of [os.getcwd()]. *)
Definition abspath (cwd p : string) : string :=
  normpath (if isabs p then p else join2 cwd p).

(** [os.path.basename] *)
Definition basename (p : string) : string := slice_from (rfind1 slash p) p.

Fixpoint all_slashes (s : string) : bool :=
  match s with
  | EmptyString => true
  | String a s' => Ascii.eqb a slash && all_slashes s'
  end.

(** [os.path.dirname] *)
Definition dirname (p : string) : string :=
  let head := slice_to (rfind1 slash p) p in
  if nonempty head && negb (all_slashes head) then rstrip_chars sep head else head.

End PosixPath.

Import Str PosixPath.

(* ===================================================================== *)
(** * The file system                                                     *)
(* ===================================================================== *)

(** Files are found by the list of their path components from the root.
    Path names are resolved lexically, the way the kernel walks them when
    no component is a symbolic link: empty and "." components are skipped
    and ".." steps back (staying at the root there). *)

Module FS.

Inductive node : Type :=
| File (content : string)
| Dir.

#[global] Instance node_eq_dec : EqDecision node.
Proof. solve_decision. Defined.

(** The exceptions the program distinguishes in its [except] clauses;
    [OSError] stands for every other operating-system error. *)
Inductive exn : Type :=
| FileExistsError
| FileNotFoundError
| IsADirectoryError
| NotADirectoryError
| OSError
| CalledProcessError.

#[global] Instance exn_eq_dec : EqDecision exn.
Proof. solve_decision. Defined.

(** What happened, in order: every change of the file system that went
    through, the advisory lock operations, and the external processes run. *)
Inductive event : Type :=
| EvFlock (exclusive : bool)
| EvCreate (k : list string)
| EvWrite (k : list string) (content : string)
| EvAppend (k : list string) (text : string)
| EvRename (src dst : list string)
| EvRemove (k : list string)
| EvProbe (path : string)
| EvEncode (src dst : string).

Record world : Type := World {
  files : gmap (list string) node;
  cwd : string;                      (* os.getcwd() *)
  trace : list event
}.

Definition set_files (w : world) (m : gmap (list string) node) : world :=
  {| files := m; cwd := cwd w; trace := trace w |}.
Definition log_event (w : world) (e : event) : world :=
  {| files := files w; cwd := cwd w; trace := trace w ++ [e] |}.
Definition commit (w : world) (m : gmap (list string) node) (e : event) : world :=
  {| files := m; cwd := cwd w; trace := trace w ++ [e] |}.

(** The file a path name denotes. *)
Definition key_of (cwd p : string) : list string :=
  rev (norm_loop true (split slash (if isabs p then p else join2 cwd p)) []).

(** A name that ends in a slash, in "." or in ".." can only denote a
    directory. *)
Definition dir_required (p : string) : bool :=
  let c := List.last (split slash p) EmptyString in
  (c =? "")%string || (c =? ".")%string || (c =? "..")%string.

Definition parent (k : list string) : list string := removelast k.

(** [stat]: the node a path name reaches, if any. *)
Definition stat (w : world) (p : string) : option node :=
  if negb (nonempty p) then None
  else match files w !! key_of (cwd w) p with
       | Some (File c) => if dir_required p then None else Some (File c)
       | r => r
       end.

(** [os.path.exists], [os.path.isfile] *)
Definition path_exists (w : world) (p : string) : bool :=
  match stat w p with Some _ => true | None => false end.
Definition isfile (w : world) (p : string) : bool :=
  match stat w p with Some (File _) => true | _ => false end.

(** Walking to the directory that is to hold [k]. *)
Definition check_parent (w : world) (k : list string) : option exn :=
  match files w !! parent k with
  | Some Dir => None
  | Some (File _) => Some NotADirectoryError
  | None => Some FileNotFoundError
  end.

(** Directory [kd] has an entry. *)
Definition has_entries (m : gmap (list string) node) (kd : list string) : bool :=
  negb (bool_decide (filter (λ kn, kd `prefix_of` kn.1 ∧ kn.1 ≠ kd) m = ∅)).

(** Renaming a directory moves everything below it. *)
Definition move_tree (ks kd : list string) (m : gmap (list string) node)
  : gmap (list string) node :=
  list_to_map
    (map (λ kn : list string * node, (kd ++ List.skipn (length ks) kn.1, kn.2))
         (map_to_list (filter (λ kn, ks `prefix_of` kn.1) m)))
  ∪ filter (λ kn, ¬ ks `prefix_of` kn.1) (delete kd m).

End FS.

(* ===================================================================== *)
(** * Programs: state and exceptions                                      *)
(* ===================================================================== *)

Module Prog.
Import FS.

Inductive result (A : Type) : Type :=
| Ok (a : A)
| Raise (e : exn).
Arguments Ok {A} a.
Arguments Raise {A} e.

Definition M (A : Type) : Type := world → result A * world.

Definition ret {A} (a : A) : M A := λ w, (Ok a, w).
Definition raise {A} (e : exn) : M A := λ w, (Raise e, w).
Definition bind {A B} (m : M A) (k : A → M B) : M B :=
  λ w, match m w with
       | (Ok a, w') => k a w'
       | (Raise e, w') => (Raise e, w')
       end.

(** [try: m  except <classes>: h]; [handled] tells the classes caught. *)
Definition try_except {A} (m : M A) (handled : exn → bool) (h : M A) : M A :=
  λ w, match m w with
       | (Raise e, w') => if handled e then h w' else (Raise e, w')
       | r => r
       end.

Declare Scope prog_scope.
Delimit Scope prog_scope with prog.
Notation "x <- m ;; k" := (bind m (λ x, k))
  (at level 63, m at next level, right associativity) : prog_scope.
Notation "m ;;; k" := (bind m (λ _, k))
  (at level 63, right associativity) : prog_scope.
Open Scope prog_scope.

(** The [except] clauses of the program. *)
Definition any_Exception (e : exn) : bool := true.
Definition only_FileExistsError (e : exn) : bool :=
  match e with FileExistsError => true | _ => false end.
Definition only_CalledProcessError (e : exn) : bool :=
  match e with CalledProcessError => true | _ => false end.

(** ** System calls *)

Definition os_path_exists (p : string) : M bool := λ w, (Ok (path_exists w p), w).
Definition os_path_isfile (p : string) : M bool := λ w, (Ok (isfile w p), w).
Definition os_getcwd : M string := λ w, (Ok (cwd w), w).

(** [os.close(os.open(p, O_CREAT | O_EXCL | O_WRONLY, 0o644))] *)
Definition os_open_excl (p : string) : M unit := λ w,
  if negb (nonempty p) then (Raise FileNotFoundError, w) else
  let k := key_of (cwd w) p in
  match check_parent w k with
  | Some e => (Raise e, w)
  | None =>
      match files w !! k with
      | Some _ => (Raise FileExistsError, w)
      | None =>
          if dir_required p then (Raise IsADirectoryError, w)
          else (Ok tt, commit w (<[k := File ""]> (files w)) (EvCreate k))
      end
  end.

(** [os.remove(p)] *)
Definition os_remove (p : string) : M unit := λ w,
  if negb (nonempty p) then (Raise FileNotFoundError, w) else
  let k := key_of (cwd w) p in
  match files w !! k with
  | None => (Raise FileNotFoundError, w)
  | Some Dir => (Raise IsADirectoryError, w)
  | Some (File _) =>
      if dir_required p then (Raise NotADirectoryError, w)
      else (Ok tt, commit w (delete k (files w)) (EvRemove k))
  end.

(** [os.rename(src, dst)] *)
Definition os_rename (src dst : string) : M unit := λ w,
  if negb (nonempty src) || negb (nonempty dst) then (Raise FileNotFoundError, w) else
  let ks := key_of (cwd w) src in
  let kd := key_of (cwd w) dst in
  match files w !! ks with
  | None => (Raise FileNotFoundError, w)
  | Some (File c) =>
      if dir_required src then (Raise NotADirectoryError, w) else
      match check_parent w kd with
      | Some e => (Raise e, w)
      | None =>
          match files w !! kd with
          | Some Dir => (Raise IsADirectoryError, w)
          | _ =>
              if dir_required dst then (Raise NotADirectoryError, w)
              else if bool_decide (ks = kd) then (Ok tt, w)
              else (Ok tt, commit w (<[kd := File c]> (delete ks (files w)))
                                  (EvRename ks kd))
          end
      end
  | Some Dir =>
      match check_parent w kd with
      | Some e => (Raise e, w)
      | None =>
          if bool_decide (ks = kd) then (Ok tt, w)
          else if bool_decide (ks `prefix_of` kd) then (Raise OSError, w)
          else match files w !! kd with
               | Some (File _) => (Raise NotADirectoryError, w)
               | Some Dir =>
                   if has_entries (files w) kd then (Raise OSError, w)
                   else (Ok tt, commit w (move_tree ks kd (files w)) (EvRename ks kd))
               | None => (Ok tt, commit w (move_tree ks kd (files w)) (EvRename ks kd))
               end
      end
  end.

(** [open(p, "r")] and [open(p, "r+")]: the open file is known by the
    file it denotes. *)
Definition open_text (p : string) : M (list string) := λ w,
  if negb (nonempty p) then (Raise FileNotFoundError, w) else
  match files w !! key_of (cwd w) p with
  | None => (Raise FileNotFoundError, w)
  | Some Dir => (Raise IsADirectoryError, w)
  | Some (File _) =>
      if dir_required p then (Raise NotADirectoryError, w)
      else (Ok (key_of (cwd w) p), w)
  end.

(** Reading an open file from its start to its end. *)
Definition read_all (f : list string) : M string := λ w,
  (Ok (match files w !! f with Some (File c) => c | _ => EmptyString end), w).

(** On a file read to its end: [f.seek(0)], the writes that make up
    [text], [f.truncate()].  Reading and writing a file that is open do
    not fail here. *)
Definition rewrite_all (f : list string) (text : string) : M unit := λ w,
  (Ok tt, commit w (<[f := File text]> (files w)) (EvWrite f text)).

(** [with open(p, "a") as f: f.write(text)] *)
Definition append_text (p text : string) : M unit := λ w,
  if negb (nonempty p) then (Raise FileNotFoundError, w) else
  let k := key_of (cwd w) p in
  match files w !! k with
  | Some Dir => (Raise IsADirectoryError, w)
  | Some (File c) =>
      if dir_required p then (Raise NotADirectoryError, w)
      else (Ok tt, commit w (<[k := File (c +:+ text)]> (files w)) (EvAppend k text))
  | None =>
      match check_parent w k with
      | Some e => (Raise e, w)
      | None =>
          if dir_required p then (Raise IsADirectoryError, w)
          else (Ok tt, commit w (<[k := File text]> (files w)) (EvAppend k text))
      end
  end.

(** [fcntl.flock(f.fileno(), LOCK_EX)] and [LOCK_UN] on the list file. *)
Definition flock (exclusive : bool) : M unit := λ w,
  (Ok tt, log_event w (EvFlock exclusive)).

(** ** External processes, run with [subprocess.run(..., check=True)]

    What a run does is not decided by the program: it is given as an
    outcome.  A process can exit with status 0, exit with another status
    ([CalledProcessError]), or fail to start ([OSError]). *)

Inductive probe_outcome : Type :=
| ProbeExit0 (stdout : string)
| ProbeNonZero
| ProbeSpawnError.

(** The encoder writes nothing but its output file, [out] when it does. *)
Inductive encode_outcome : Type :=
| EncodeExit (status0 : bool) (out : option string)
| EncodeSpawnError.

Definition run_ffprobe (o : probe_outcome) (file_path : string) : M string := λ w,
  match o with
  | ProbeSpawnError => (Raise OSError, w)
  | ProbeNonZero => (Raise CalledProcessError, log_event w (EvProbe file_path))
  | ProbeExit0 out => (Ok out, log_event w (EvProbe file_path))
  end.

(** The output file can be written when its name denotes no directory and
    the directory to hold it exists. *)
Definition writable (w : world) (p : string) : bool :=
  nonempty p && negb (dir_required p)
  && match files w !! key_of (cwd w) p with Some Dir => false | _ => true end
  && match check_parent w (key_of (cwd w) p) with None => true | Some _ => false end.

Definition run_ffmpeg (o : encode_outcome) (src dst : string) : M unit := λ w,
  match o with
  | EncodeSpawnError => (Raise OSError, w)
  | EncodeExit status0 out =>
      let w1 := log_event w (EvEncode src dst) in
      let w2 := match out with
                | Some c =>
                    if writable w dst
                    then set_files w1 (<[key_of (cwd w) dst := File c]> (files w))
                    else w1
                | None => w1
                end in
      (if status0 then Ok tt else Raise CalledProcessError, w2)
  end.

End Prog.

(* ===================================================================== *)
(** * transcode.py                                                        *)
(* ===================================================================== *)

Module Transcode.
Import FS Prog.

(** The command-line settings (lines 21-25). *)
Record config : Type := Config {
  input_file : string;
  base_path : string;
  log_file : string;
  workers : nat
}.

Definition dquote : string := String (ascii_of_nat 34) EmptyString.
Definition squote : string := String (ascii_of_nat 39) EmptyString.
Definition newline : string := String LF EmptyString.

Definition inefficient_codecs : gset string := {[ "h264"; "mpeg4"; "vc1" ]}.

(** Truthiness of a value that is a [str] or [None]. *)
Definition truthy (o : option string) : bool :=
  match o with Some s => nonempty s | None => false end.

(** Lines 35-48.  Messages printed to the terminal are left out here and
    below. *)
Definition get_video_codec (po : probe_outcome) (file_path : string)
  : M (option string) :=
  try_except
    (out <- run_ffprobe po file_path ;;
     let codec := lower (strip out) in
     ret (if nonempty codec then Some codec else None))
    only_CalledProcessError
    (ret None).

(** Lines 50-58. *)
Definition make_item_lock (path : string) : M (option string) :=
  let lock_path := path +:+ ".transcode.lock" in
  try_except
    (os_open_excl lock_path ;;; ret (Some lock_path))
    only_FileExistsError
    (ret None).

(** Lines 60-65. *)
Definition release_item_lock (lock_path : option string) : M unit :=
  try_except
    (match lock_path with
     | Some l =>
         if nonempty l then
           ex <- os_path_exists l ;;
           if ex then os_remove l else ret tt
         else ret tt
     | None => ret tt
     end)
    any_Exception
    (ret tt).

(** Lines 94-95: the file a line of the list names. *)
Definition rel_clean (rel : string) : string :=
  strip_chars squote (strip_chars dquote rel).
Definition full_path (cfg : config) (rel : string) : string :=
  join2 (base_path cfg) (lstrip_chars sep (rel_clean rel)).

(** Lines 93-102: the [for] loop, from index [idx] on.  The result is
    (chosen_index, chosen_rel, chosen_full, chosen_lock). *)
Fixpoint scan_lines (cfg : config) (idx : nat) (lines : list string)
  : M (option (nat * string * string * string)) :=
  match lines with
  | [] => ret None
  | rel :: rest =>
      lock_path <- make_item_lock (full_path cfg rel) ;;
      if truthy lock_path
      then ret (Some (idx, rel_clean rel, full_path cfg rel,
                      default EmptyString lock_path))
      else scan_lines cfg (S idx) rest
  end.

(** Line 79: [[ln.strip() for ln in f if ln.strip()]] *)
Definition read_lines (content : string) : list string :=
  filter (λ ln, nonempty ln = true) (map strip (file_lines content)).

(** Lines 112-113: what the loop of writes puts into the file. *)
Definition unlines (lines : list string) : string :=
  fold_right (λ ln acc, ln +:+ newline +:+ acc) EmptyString lines.

(** Lines 67-118. *)
Definition acquire_next_job_from_list (cfg : config)
  : M (option string * option string) :=
  ex <- os_path_exists (input_file cfg) ;;
  if negb ex then ret (None, None) else
  f <- open_text (input_file cfg) ;;
  flock true ;;;
  content <- read_all f ;;
  let lines := read_lines content in
  match lines with
  | [] =>
      rewrite_all f EmptyString ;;;
      flock false ;;;
      ret (None, None)
  | _ =>
      chosen <- scan_lines cfg 0 lines ;;
      match chosen with
      | None =>
          flock false ;;;
          ret (None, None)
      | Some (chosen_index, _, chosen_full, chosen_lock) =>
          rewrite_all f (unlines (delete chosen_index lines)) ;;;
          flock false ;;;
          ret (Some chosen_full, Some chosen_lock)
      end
  end.

(** Lines 120-125. *)
Definition log_failure (cfg : config) (path : string) : M unit :=
  try_except
    (append_text (log_file cfg) (path +:+ newline))
    any_Exception
    (ret tt).

(** Lines 127-188. *)
Definition transcode_file (po : probe_outcome) (eo : encode_outcome)
  (original_path : string) : M bool :=
  isf <- os_path_isfile original_path ;;
  if negb isf then ret false else
  codec <- get_video_codec po original_path ;;
  if negb (truthy codec) then ret false else
  if negb (bool_decide (default EmptyString codec ∈ inefficient_codecs)) then ret true else
  here <- os_getcwd ;;
  let original_path := abspath here original_path in
  let dir_name := dirname original_path in
  let base_name := basename original_path in
  let backup_path := original_path +:+ ".old" in
  let temp_output := join2 dir_name ("." +:+ base_name +:+ ".tmp.mkv") in
  renamed <- try_except
               (os_rename original_path backup_path ;;; ret true)
               any_Exception
               (ret false) ;;
  if negb renamed then ret false else
  try_except
    (run_ffmpeg eo backup_path temp_output ;;;
     os_rename temp_output original_path ;;;
     os_remove backup_path ;;;
     ret true)
    only_CalledProcessError
    (try_except
       (ex <- os_path_exists backup_path ;;
        if ex then os_rename backup_path original_path else ret tt)
       any_Exception
       (ret tt) ;;;
     ex <- os_path_exists temp_output ;;
     (if ex then try_except (os_remove temp_output) any_Exception (ret tt)
      else ret tt) ;;;
     ret false).

(** Lines 217-219: the path written to the failure log. *)
Definition failure_rel (cfg : config) (job_path : string) : string :=
  let base := rstrip_chars sep (base_path cfg) in
  if startswith job_path (base +:+ sep)
  then slice_from (String.length base + 1) job_path
  else job_path.

(** Lines 201-206: does the list still hold a line? *)
Definition list_has_remaining (cfg : config) : M bool :=
  ex <- os_path_exists (input_file cfg) ;;
  if ex then
    f <- open_text (input_file cfg) ;;
    content <- read_all f ;;
    ret (existsb (λ ln, nonempty (strip ln)) (file_lines content))
  else ret false.

(** ** The worker loop (lines 190-231) as a machine

    One step is one call the loop makes; between two steps other workers
    may run. *)
Inductive wstate : Type :=
| WTop                                  (* line 193 *)
| WRetry                                (* lines 196-198 *)
| WCheck                                (* lines 201-211 *)
| WJob (job_path : string) (lock_path : option string)    (* line 214 *)
| WLog (job_path : string) (lock_path : option string)    (* lines 217-220 *)
| WFinally (lock_path : option string) (pending : option exn)  (* line 223 *)
| WDone                                 (* line 209: break *)
| WCrashed (e : exn).                   (* uncaught exception: the thread ends *)

Record worker_local : Type := WorkerLocal {
  pc : wstate;
  processed_local : nat
}.

Record shared : Type := Shared {
  sh_world : world;
  global_counter : nat
}.

(** What the outside world does during one step. *)
Record outcomes : Type := Outcomes {
  on_probe : probe_outcome;
  on_encode : encode_outcome
}.

Definition goto (l : worker_local) (s : wstate) : worker_local :=
  {| pc := s; processed_local := processed_local l |}.

Definition worker_step (cfg : config) (o : outcomes)
  (l : worker_local) (s : shared) : worker_local * shared :=
  let w := sh_world s in
  let at_world w' := {| sh_world := w'; global_counter := global_counter s |} in
  match pc l with
  | WTop =>
      match acquire_next_job_from_list cfg w with
      | (Ok (Some job_path, lock_path), w') => (goto l (WJob job_path lock_path), at_world w')
      | (Ok (None, _), w') => (goto l WRetry, at_world w')
      | (Raise e, w') => (goto l (WCrashed e), at_world w')
      end
  | WRetry =>
      match acquire_next_job_from_list cfg w with
      | (Ok (Some job_path, lock_path), w') => (goto l (WJob job_path lock_path), at_world w')
      | (Ok (None, _), w') => (goto l WCheck, at_world w')
      | (Raise e, w') => (goto l (WCrashed e), at_world w')
      end
  | WCheck =>
      match list_has_remaining cfg w with
      | (Ok remaining, w') => (goto l (if remaining then WTop else WDone), at_world w')
      | (Raise e, w') => (goto l (WCrashed e), at_world w')
      end
  | WJob job_path lock_path =>
      match transcode_file (on_probe o) (on_encode o) job_path w with
      | (Ok ok, w') =>
          (goto l (if ok then WFinally lock_path None else WLog job_path lock_path),
           at_world w')
      | (Raise e, w') => (goto l (WFinally lock_path (Some e)), at_world w')
      end
  | WLog job_path lock_path =>
      match log_failure cfg (failure_rel cfg job_path) w with
      | (Ok _, w') => (goto l (WFinally lock_path None), at_world w')
      | (Raise e, w') => (goto l (WFinally lock_path (Some e)), at_world w')
      end
  | WFinally lock_path pending =>
      match release_item_lock lock_path w with
      | (Ok _, w') =>
          match pending with
          | Some e => (goto l (WCrashed e), at_world w')
          | None =>
              ({| pc := WTop; processed_local := S (processed_local l) |},
               {| sh_world := w'; global_counter := S (global_counter s) |})
          end
      | (Raise e, w') => (goto l (WCrashed e), at_world w')
      end
  | WDone => (l, s)
  | WCrashed _ => (l, s)
  end.

End Transcode.

(* ===================================================================== *)
(** * The pool of workers                                                 *)
(* ===================================================================== *)

Module Pool.
Import FS Prog Transcode.

(** How [main] (lines 233-257) gets going. *)
Inductive started : Type :=
| ExitFailure                                (* line 237: sys.exit(1) *)
| NothingToDo                                (* line 243 *)
| Started (threads : list worker_local).     (* lines 249-252 *)

Definition fresh_worker : worker_local := {| pc := WTop; processed_local := 0 |}.

Definition main (cfg : config) : M started :=
  ex <- os_path_exists (input_file cfg) ;;
  if negb ex then ret ExitFailure else
  f <- open_text (input_file cfg) ;;
  content <- read_all f ;;
  if negb (existsb (λ ln, nonempty (strip ln)) (file_lines content))
  then ret NothingToDo
  else ret (Started (replicate (Nat.max 1 (workers cfg)) fresh_worker)).

(** The threads, what they share, and the transitions made so far:
    (thread, where it was, where it went). *)
Record pool : Type := MkPool {
  threads : list worker_local;
  mem : shared;
  history : list (nat * wstate * wstate)
}.

Definition terminal (s : wstate) : bool :=
  match s with WDone | WCrashed _ => true | _ => false end.

(** Thread [i] takes its next step, the outside world answering [o]. *)
Definition pool_step (cfg : config) (i : nat) (o : outcomes) (p : pool) : option pool :=
  match threads p !! i with
  | Some l =>
      if terminal (pc l) then None
      else
        let r := worker_step cfg o l (mem p) in
        Some {| threads := <[i := r.1]> (threads p);
                mem := r.2;
                history := history p ++ [(i, pc l, pc r.1)] |}
  | None => None
  end.

(** The pools a run from the world [w0] passes through. *)
Inductive reachable (cfg : config) (w0 : world) : pool → Prop :=
| reach_start ths w :
    main cfg w0 = (Ok (Started ths), w) →
    reachable cfg w0 {| threads := ths;
                        mem := {| sh_world := w; global_counter := 0 |};
                        history := [] |}
| reach_step p i o p' :
    reachable cfg w0 p →
    pool_step cfg i o p = Some p' →
    reachable cfg w0 p'.

(** A complete run: every worker left its loop by line 209. *)
Definition complete (p : pool) : Prop := Forall (λ l, pc l = WDone) (threads p).

(** The run is over: every worker left its loop or died. *)
Definition ended (p : pool) : Prop := Forall (λ l, terminal (pc l) = true) (threads p).

(** The jobs claimed and the jobs handed to the pipeline, in order. *)
Definition claim_of (t : nat * wstate * wstate) : list string :=
  match t with
  | (_, WTop, WJob j _) | (_, WRetry, WJob j _) => [j]
  | _ => []
  end.
Definition attempt_of (t : nat * wstate * wstate) : list string :=
  match t with
  | (_, WJob j _, _) => [j]
  | _ => []
  end.
Definition claims (h : list (nat * wstate * wstate)) : list string :=
  concat (map claim_of h).
Definition attempts (h : list (nat * wstate * wstate)) : list string :=
  concat (map attempt_of h).

(** The jobs claimed and not yet handed to the pipeline. *)
Definition waiting_job (l : worker_local) : list string :=
  match pc l with WJob j _ => [j] | _ => [] end.

(** The marker a thread holds. *)
Definition held_lock (l : worker_local) : list string :=
  match pc l with
  | WJob _ (Some lp) | WLog _ (Some lp) | WFinally (Some lp) _ => [lp]
  | _ => []
  end.

Definition gather {X} (f : worker_local → list X) (ths : list worker_local) : list X :=
  concat (map f ths).

(** The pool after the steps of a schedule, one (thread, outcomes) pair
    per step. *)
Fixpoint run_schedule (cfg : config) (sched : list (nat * outcomes)) (p : pool)
  : option pool :=
  match sched with
  | [] => Some p
  | (i, o) :: rest =>
      match pool_step cfg i o p with
      | Some p' => run_schedule cfg rest p'
      | None => None
      end
  end.

End Pool.

(* ===================================================================== *)
(** * analyze_codecs.py                                                   *)
(* ===================================================================== *)

(** The script that writes the list.  It asks a media server for its
    items over HTTP; what the server answers is given as an outcome.
    Messages printed to the terminal are left out, but not the errors
    their computation can raise. *)

Module AnalyzeCodecs.
Import FS.

(** The values [response.json()] gives.  Of a number that is a float only
    its truth value is kept. *)
#[local] Unset Elimination Schemes.
Inductive json : Type :=
| JNull
| JBool (b : bool)
| JInt (z : Z)
| JFloat (nonzero : bool)
| JStr (s : string)
| JList (l : list json)
| JDict (d : list (string * json)).
#[local] Set Elimination Schemes.

Inductive pyexc : Type :=
| TypeError
| AttributeError
| IndexError
| KeyError
| OverflowError
| RequestException
| JSONDecodeError
| SystemExit (code : Z)
| OsError (e : exn).

(** How a computation ends.  [NotModelled]: it went on with a [Size] that
    is a float, whose sums and comparisons are not modelled. *)
Inductive outcome (A : Type) : Type :=
| Returns (a : A)
| Raises (e : pyexc)
| NotModelled.
Arguments Returns {A} a.
Arguments Raises {A} e.
Arguments NotModelled {A}.

Definition obind {A B} (m : outcome A) (k : A → outcome B) : outcome B :=
  match m with
  | Returns a => k a
  | Raises e => Raises e
  | NotModelled => NotModelled
  end.

Declare Scope out_scope.
Delimit Scope out_scope with out.
Notation "x <- m ;; k" := (obind m (λ x, k))
  (at level 63, m at next level, right associativity) : out_scope.
Local Open Scope out_scope.

(** Lines 12-15. *)
Definition OUTPUT_FILE : string := "transcode_list.txt".
Definition INEFFICIENT_CODECS : gset string := {[ "h264"; "mpeg4"; "vc1" ]}.

(** ** Python's operations on these values *)

(** [bool(v)] *)
Definition truth (v : json) : bool :=
  match v with
  | JNull => false
  | JBool b => b
  | JInt z => negb (z =? 0)%Z
  | JFloat nonzero => nonzero
  | JStr s => nonempty s
  | JList l => match l with [] => false | _ => true end
  | JDict d => match d with [] => false | _ => true end
  end.

(** [d[key]] for a key that is there; a dict holds a key once. *)
Fixpoint assoc (key : string) (d : list (string * json)) : option json :=
  match d with
  | [] => None
  | (k, v) :: d' => if (k =? key)%string then Some v else assoc key d'
  end.

(** [v.get(key, default)]: only a dict has this method. *)
Definition get (v : json) (key : string) (default : json) : outcome json :=
  match v with
  | JDict d => Returns (match assoc key d with Some x => x | None => default end)
  | _ => Raises AttributeError
  end.

Fixpoint chars (s : string) : list json :=
  match s with
  | EmptyString => []
  | String a s' => JStr (String a EmptyString) :: chars s'
  end.

(** What [len(v)] accepts and [for x in v] yields: the elements of a
    list, the keys of a dict, the characters of a str. *)
Definition iterate (v : json) : outcome (list json) :=
  match v with
  | JList l => Returns l
  | JDict d => Returns (map (λ kv, JStr kv.1) d)
  | JStr s => Returns (chars s)
  | _ => Raises TypeError
  end.

(** [v[0]]; the keys of these dicts are strings, never [0]. *)
Definition index0 (v : json) : outcome json :=
  match v with
  | JList (x :: _) => Returns x
  | JList [] => Raises IndexError
  | JStr (String a _) => Returns (JStr (String a EmptyString))
  | JStr EmptyString => Raises IndexError
  | JDict _ => Raises KeyError
  | _ => Raises TypeError
  end.

(** [0 + v] and [n + v] for an int [n]: the int that [v] counts as. *)
Definition as_summand (v : json) : outcome Z :=
  match v with
  | JInt z => Returns z
  | JBool b => Returns (if b then 1 else 0)%Z
  | JFloat _ => NotModelled
  | _ => Raises TypeError
  end.

(** ** The requests *)

(** [requests.get] raises, or gives a response with a status code and a
    body that is JSON or not. *)
Inductive http_outcome : Type :=
| HttpRaises
| HttpResponse (status_code : Z) (body : option json).

(** Lines 21-32. *)
Definition get_all_items (o : http_outcome) : outcome json :=
  match o with
  | HttpRaises => Raises RequestException
  | HttpResponse status_code body =>
      if negb (status_code =? 200)%Z then Raises (SystemExit 1)
      else match body with
           | Some data => Returns data
           | None => Raises JSONDecodeError
           end
  end.

(** Lines 34-43; [JNull] is [None]. *)
Definition get_item_playback_info (o : http_outcome) : json :=
  match o with
  | HttpRaises => JNull
  | HttpResponse status_code body =>
      if (status_code =? 200)%Z
      then match body with
           | Some info => info
           | None => JNull
           end
      else JNull
  end.

(** ** Lines 45-100 *)

(** Lines 57-61: the codec of the first stream of type "Video". *)
Fixpoint first_video_codec (media_streams : list json) : outcome json :=
  match media_streams with
  | [] => Returns JNull
  | stream :: rest =>
      ty <- get stream "Type" JNull ;;
      match ty with
      | JStr "Video" => get stream "Codec" JNull
      | _ => first_video_codec rest
      end
  end.

(** [codec_stats] maps a codec to its count and its bytes. *)
Record tally : Type := Tally {
  codec_stats : gmap string (Z * Z);
  total_bytes : Z;
  transcode_bytes : Z;
  transcode_candidates : list (Z * json)
}.

Definition no_tally : tally :=
  {| codec_stats := ∅; total_bytes := 0; transcode_bytes := 0;
     transcode_candidates := [] |}.

(** Lines 56-83, the body of the loop, for one item; [answer] is what the
    request for its playback info does. *)
Definition analyze_item (answer : http_outcome) (item : json) (t : tally)
  : outcome tally :=
  streams <- get item "MediaStreams" (JList []) ;;
  media_streams <- iterate streams ;;
  video_codec <- first_video_codec media_streams ;;
  if negb (truth video_codec) then Returns t else
  _ <- get item "Id" JNull ;;
  let playback_info := get_item_playback_info answer in
  if negb (truth playback_info) then Returns t else
  sources <- get playback_info "MediaSources" (JList [JDict []]) ;;
  media_source <- index0 sources ;;
  size <- get media_source "Size" (JInt 0) ;;
  let size := if truth size then size else JInt 0 in
  path <- get media_source "Path" (JStr EmptyString) ;;
  let path := if truth path then path else JStr EmptyString in
  match video_codec with
  | JStr s =>
      let video_codec := lower s in
      let stats := default (0, 0)%Z (codec_stats t !! video_codec) in
      n <- as_summand size ;;
      let codec_stats := <[video_codec := (stats.1 + 1, stats.2 + n)%Z]> (codec_stats t) in
      let total_bytes := (total_bytes t + n)%Z in
      if bool_decide (video_codec ∈ INEFFICIENT_CODECS) && truth path
      then Returns {| codec_stats := codec_stats; total_bytes := total_bytes;
                      transcode_bytes := (transcode_bytes t + n)%Z;
                      transcode_candidates := transcode_candidates t ++ [(n, path)] |}
      else Returns {| codec_stats := codec_stats; total_bytes := total_bytes;
                      transcode_bytes := transcode_bytes t;
                      transcode_candidates := transcode_candidates t |}
  | _ => Raises AttributeError
  end.

(** Lines 55-86: the loop; [answers i] belongs to the item numbered [i]. *)
Fixpoint analyze_items (answers : nat → http_outcome) (i : nat) (items : list json)
  (t : tally) : outcome tally :=
  match items with
  | [] => Returns t
  | item :: rest =>
      t' <- analyze_item (answers i) item t ;;
      analyze_items answers (S i) rest t'
  end.

(** Lines 88-96 print byte counts as floats: dividing an int by [1024 **
    3] fails when the quotient rounds to [2 ** 1024] or more, multiplying
    it by [SAVE_RATIO] when the int itself does. *)
Definition too_large_to_divide (n : Z) : bool :=
  (2 ^ 1054 - 2 ^ 1000 <=? Z.abs n)%Z.
Definition too_large_for_float (n : Z) : bool :=
  (2 ^ 1024 - 2 ^ 970 <=? Z.abs n)%Z.

Definition print_summary (t : tally) : outcome unit :=
  if existsb (λ kv : string * (Z * Z), too_large_to_divide kv.2.2)
       (map_to_list (codec_stats t))
     || too_large_to_divide (transcode_bytes t)
     || too_large_for_float (transcode_bytes t)
  then Raises OverflowError
  else Returns tt.

(** Line 99: [sorted(..., key=lambda x: x[0], reverse=True)], a stable
    sort: of two candidates of one size the earlier stays first. *)
Fixpoint insert_by_size (x : Z * json) (l : list (Z * json)) : list (Z * json) :=
  match l with
  | [] => [x]
  | y :: l' => if (x.1 <? y.1)%Z then y :: insert_by_size x l' else x :: l
  end.
Definition sorted_by_size (l : list (Z * json)) : list (Z * json) :=
  fold_right insert_by_size [] l.

Definition analyze_codecs_and_collect_paths (answers : nat → http_outcome) (data : json)
  : outcome (list json) :=
  items <- get data "Items" (JList []) ;;
  items <- iterate items ;;
  t <- analyze_items answers 1 items no_tally ;;
  _ <- print_summary t ;;
  Returns (map snd (sorted_by_size (transcode_candidates t))).

(** ** Lines 102-106 *)

(** What the loop of writes puts into the file, and whether it got to
    the end: [path + "\n"] is a [TypeError] unless [path] is a str. *)
Fixpoint written (paths : list json) : string * bool :=
  match paths with
  | [] => (EmptyString, true)
  | JStr path :: rest =>
      let r := written rest in (path +:+ String Str.LF EmptyString +:+ r.1, r.2)
  | _ :: _ => (EmptyString, false)
  end.

(** [open(filename, "w")] makes the file or empties it; the text written
    is in the file when it is closed, also when the loop raised. *)
Definition save_paths_to_file (paths : list json) (filename : string) (w : world)
  : outcome unit * world :=
  if negb (nonempty filename) then (Raises (OsError FileNotFoundError), w) else
  let k := key_of (cwd w) filename in
  let r := written paths in
  let done := if r.2 then Returns tt else Raises TypeError in
  let w' := commit w (<[k := File r.1]> (files w)) (EvWrite k r.1) in
  match files w !! k with
  | Some Dir => (Raises (OsError IsADirectoryError), w)
  | Some (File _) =>
      if dir_required filename then (Raises (OsError NotADirectoryError), w)
      else (done, w')
  | None =>
      match check_parent w k with
      | Some e => (Raises (OsError e), w)
      | None =>
          if dir_required filename then (Raises (OsError IsADirectoryError), w)
          else (done, w')
      end
  end.

(** ** Lines 108-114 *)

Definition run (first : http_outcome) (answers : nat → http_outcome) (w : world)
  : outcome unit * world :=
  match get_all_items first with
  | Returns data =>
      match analyze_codecs_and_collect_paths answers data with
      | Returns paths => save_paths_to_file paths OUTPUT_FILE w
      | Raises e => (Raises e, w)
      | NotModelled => (NotModelled, w)
      end
  | Raises e => (Raises e, w)
  | NotModelled => (NotModelled, w)
  end.

End AnalyzeCodecs.

Import FS Prog Transcode Pool.

(* ===================================================================== *)
(** * Facts about the string functions                                    *)
(* ===================================================================== *)

Section StrFacts.

Lemma append_nil_r (s : string) : s +:+ "" = s.
Proof. induction s as [|a s IH]; simpl; [done | by f_equal]. Qed.

Lemma append_assoc (s t u : string) : (s +:+ t) +:+ u = s +:+ (t +:+ u).
Proof. induction s as [|a s IH]; simpl; [done | by f_equal]. Qed.

Lemma lstrip_by_head f s a s' : lstrip_by f s = String a s' → f a = false.
Proof.
  induction s as [|b s IH]; simpl; [done |].
  destruct (f b) eqn:Hb; [done |]. intros [= -> _]. done.
Qed.

Lemma lstrip_chars_not_startswith c s :
  startswith (lstrip_chars (String c "") s) (String c "") = false.
Proof.
  unfold lstrip_chars.
  destruct (lstrip_by _ s) as [|a s'] eqn:E; [done |].
  apply lstrip_by_head in E. simpl in *.
  rewrite orb_false_r in E. rewrite Ascii.eqb_sym, E. done.
Qed.

Lemma rstrip_by_snoc_strip f s c :
  f c = true → rstrip_by f (s +:+ String c "") = rstrip_by f s.
Proof.
  intros Hc. induction s as [|a s IH]; simpl; [by rewrite Hc |].
  by rewrite IH.
Qed.

Lemma rstrip_by_snoc_keep f s c :
  f c = false → rstrip_by f (s +:+ String c "") = s +:+ String c "".
Proof.
  intros Hc. induction s as [|a s IH]; simpl; [by rewrite Hc |].
  rewrite IH. by destruct s.
Qed.

(** Wrapping a string in a stripped character changes nothing for [strip]. *)
Lemma strip_wrapped f s c :
  f c = true →
  lstrip_by f (rstrip_by f (String c (s +:+ String c ""))) = lstrip_by f (rstrip_by f s).
Proof.
  intros Hc.
  change (String c (s +:+ String c "")) with ((String c s) +:+ String c "").
  rewrite rstrip_by_snoc_strip by done. simpl.
  destruct (rstrip_by f s) eqn:E; simpl; by rewrite Hc.
Qed.

(** Wrapping in a character that is not stripped shields the string. *)
Lemma strip_shielded f s c :
  f c = false →
  lstrip_by f (rstrip_by f (String c (s +:+ String c ""))) = String c (s +:+ String c "").
Proof.
  intros Hc.
  change (String c (s +:+ String c "")) with ((String c s) +:+ String c "").
  rewrite rstrip_by_snoc_keep by done. simpl. by rewrite Hc.
Qed.

End StrFacts.

(* ===================================================================== *)
(** * Splitting a path name into components                               *)
(* ===================================================================== *)

Section SplitFacts.

(** [c] does not occur in [s]. *)
Fixpoint free_of (c : ascii) (s : string) : bool :=
  match s with
  | EmptyString => true
  | String a s' => negb (Ascii.eqb a c) && free_of c s'
  end.

Lemma split_nonnil c s : split c s ≠ [].
Proof.
  destruct s as [|a s]; simpl; [done |].
  destruct (Ascii.eqb a c); [done |]. by destruct (split c s).
Qed.

Lemma split_free c t : free_of c t = true → split c t = [t].
Proof.
  induction t as [|a t IH]; simpl; [done |].
  intros [Ha Ht]%andb_prop. apply negb_true_iff in Ha. rewrite Ha.
  by rewrite IH.
Qed.

Lemma split_app_free c s t :
  free_of c t = true →
  split c (s +:+ t) =
    removelast (split c s) ++ [List.last (split c s) EmptyString +:+ t].
Proof.
  intros Ht. induction s as [|a s IH]; simpl.
  - by apply split_free.
  - destruct (Ascii.eqb a c).
    + rewrite IH. pose proof (split_nonnil c s) as Hn.
      destruct (split c s) as [|y ys]; [done |]. done.
    + rewrite IH. pose proof (split_nonnil c s) as Hn.
      destruct (split c s) as [|y ys]; [done |].
      destruct ys as [|z zs]; simpl; done.
Qed.

Lemma last_split_app_free c s t :
  free_of c t = true →
  List.last (split c (s +:+ t)) EmptyString = List.last (split c s) EmptyString +:+ t.
Proof.
  intros Ht. rewrite split_app_free by done. apply last_last.
Qed.

Lemma length_append (s t : string) :
  String.length (s +:+ t) = String.length s + String.length t.
Proof. induction s as [|a s IH]; simpl; [done | by rewrite IH]. Qed.

Lemma eqb_false_length (s t : string) :
  String.length s ≠ String.length t → (s =? t)%string = false.
Proof.
  intros Hl. apply String.eqb_neq. intros ->. done.
Qed.

(** A name that ends in a long enough slash-free suffix needs no directory. *)
Lemma dir_required_suffix p t :
  free_of slash t = true → 2 < String.length t → dir_required (p +:+ t) = false.
Proof.
  intros Ht Hl. unfold dir_required. rewrite last_split_app_free by done.
  set (x := List.last (split slash p) EmptyString).
  rewrite !eqb_false_length; [done | | |]; rewrite length_append; simpl; lia.
Qed.

Lemma nonempty_suffix p t : nonempty t = true → nonempty (p +:+ t) = true.
Proof. destruct p; simpl; done. Qed.

End SplitFacts.

(* ===================================================================== *)
(** * What one call does to the world                                     *)
(* ===================================================================== *)

(** [extend w m evs]: the world [w] with files [m] after the events [evs]. *)
Definition extend (w : world) (m : gmap (list string) node) (evs : list event) : world :=
  {| files := m; cwd := cwd w; trace := trace w ++ evs |}.

Definition lock_path_of (path : string) : string := path +:+ ".transcode.lock".
Definition lock_key (w : world) (path : string) : list string :=
  key_of (cwd w) (lock_path_of path).

(** How an attempt to create the marker of [path] ends. *)
Inductive lock_try : Type :=
| LockRaises (e : exn)
| LockHeld
| LockFree.

Definition lock_status (w : world) (path : string) : lock_try :=
  match check_parent w (lock_key w path) with
  | Some e => LockRaises e
  | None =>
      match files w !! lock_key w path with
      | Some _ => LockHeld
      | None => LockFree
      end
  end.

(** Unfolding the monad one step at a time. *)
Section ProgFacts.

Lemma bind_eq {A B} (m : M A) (k : A → M B) w :
  bind m k w = match m w with
               | (Ok a, w') => k a w'
               | (Raise e, w') => (Raise e, w')
               end.
Proof. done. Qed.
Lemma ret_eq {A} (a : A) w : ret a w = (Ok a, w).
Proof. done. Qed.
Lemma try_except_eq {A} (m : M A) handled h w :
  try_except m handled h w =
    match m w with
    | (Raise e, w') => if handled e then h w' else (Raise e, w')
    | r => r
    end.
Proof. done. Qed.
Lemma os_path_exists_eq p w : os_path_exists p w = (Ok (path_exists w p), w).
Proof. done. Qed.
Lemma os_path_isfile_eq p w : os_path_isfile p w = (Ok (isfile w p), w).
Proof. done. Qed.
Lemma os_getcwd_eq w : os_getcwd w = (Ok (cwd w), w).
Proof. done. Qed.
Lemma flock_eq b w : flock b w = (Ok tt, extend w (files w) [EvFlock b]).
Proof. done. Qed.
Lemma read_all_eq f w :
  read_all f w = (Ok (match files w !! f with Some (File c) => c | _ => EmptyString end), w).
Proof. done. Qed.
Lemma rewrite_all_eq f text w :
  rewrite_all f text w = (Ok tt, extend w (<[f := File text]> (files w)) [EvWrite f text]).
Proof. done. Qed.

End ProgFacts.

Ltac norm :=
  cbv beta iota;
  cbn [negb andb orb fst snd any_Exception only_CalledProcessError only_FileExistsError].

Section WorldFacts.

Lemma commit_extend w m e : commit w m e = extend w m [e].
Proof. done. Qed.
Lemma log_event_extend w e : log_event w e = extend w (files w) [e].
Proof. done. Qed.
Lemma set_files_extend w m evs m' : set_files (extend w m evs) m' = extend w m' evs.
Proof. done. Qed.
Lemma extend_extend w m evs m' evs' :
  extend (extend w m evs) m' evs' = extend w m' (evs ++ evs').
Proof. unfold extend; simpl. by rewrite app_assoc. Qed.
Lemma extend_id w : extend w (files w) [] = w.
Proof. destruct w; unfold extend; simpl. by rewrite app_nil_r. Qed.
Lemma files_extend w m evs : files (extend w m evs) = m.
Proof. done. Qed.
Lemma cwd_extend w m evs : cwd (extend w m evs) = cwd w.
Proof. done. Qed.
Lemma trace_extend w m evs : trace (extend w m evs) = trace w ++ evs.
Proof. done. Qed.

Lemma lock_path_nonempty path : nonempty (lock_path_of path) = true.
Proof. by apply nonempty_suffix. Qed.

Lemma lock_path_no_dir path : dir_required (lock_path_of path) = false.
Proof. apply dir_required_suffix; [done | simpl; lia]. Qed.

Lemma check_parent_not_exists w k e :
  check_parent w k = Some e → only_FileExistsError e = false.
Proof.
  unfold check_parent. destruct (files w !! parent k) as [[|]|]; intros [= <-]; done.
Qed.

Lemma lock_key_extend w m evs path : lock_key (extend w m evs) path = lock_key w path.
Proof. done. Qed.

Lemma lock_status_extend w evs path :
  lock_status (extend w (files w) evs) path = lock_status w path.
Proof. done. Qed.

(** [make_item_lock], by the state of the marker. *)
Lemma make_item_lock_eq path w :
  make_item_lock path w =
    match lock_status w path with
    | LockRaises e => (Raise e, w)
    | LockHeld => (Ok None, w)
    | LockFree =>
        (Ok (Some (lock_path_of path)),
         extend w (<[lock_key w path := File ""]> (files w)) [EvCreate (lock_key w path)])
    end.
Proof.
  unfold make_item_lock, lock_status, try_except, bind, os_open_excl, lock_key.
  fold (lock_path_of path).
  rewrite lock_path_nonempty, lock_path_no_dir. simpl.
  destruct (check_parent w _) as [e|] eqn:Hp.
  - by rewrite (check_parent_not_exists _ _ _ Hp).
  - destruct (files w !! _); done.
Qed.

Lemma stat_lock w path : stat w (lock_path_of path) = files w !! lock_key w path.
Proof.
  unfold stat. rewrite lock_path_nonempty, lock_path_no_dir. simpl.
  unfold lock_key. by destruct (files w !! _) as [[|]|].
Qed.

(** [release_item_lock (Some lock)], by the state of the marker. *)
Lemma release_item_lock_eq path w :
  release_item_lock (Some (lock_path_of path)) w =
    match files w !! lock_key w path with
    | Some (File _) =>
        (Ok tt, extend w (delete (lock_key w path) (files w)) [EvRemove (lock_key w path)])
    | _ => (Ok tt, w)
    end.
Proof.
  unfold release_item_lock, try_except, bind, os_path_exists, path_exists, ret.
  rewrite lock_path_nonempty, stat_lock.
  destruct (files w !! lock_key w path) as [[c|]|] eqn:E; simpl; [| |done].
  - unfold os_remove. rewrite lock_path_nonempty, lock_path_no_dir. simpl.
    fold (lock_key w path). by rewrite E.
  - unfold os_remove. rewrite lock_path_nonempty. simpl.
    fold (lock_key w path). by rewrite E.
Qed.

End WorldFacts.

(* ===================================================================== *)
(** * The claim protocol, case by case                                    *)
(* ===================================================================== *)

Definition list_key (cfg : config) (w : world) : list string :=
  key_of (cwd w) (input_file cfg).

(** The text of the list artifact, when it can be opened. *)
Definition list_text (cfg : config) (w : world) : option string :=
  match stat w (input_file cfg) with
  | Some (File c) => Some c
  | _ => None
  end.

Definition held (cfg : config) (w : world) (rel : string) : Prop :=
  lock_status w (full_path cfg rel) = LockHeld.

(** Every way a call of [acquire_next_job_from_list] can end. *)
Inductive acquired (cfg : config) (w : world)
  : result (option string * option string) → world → Prop :=
| acq_absent :
    path_exists w (input_file cfg) = false →
    acquired cfg w (Ok (None, None)) w
| acq_open_fails e :
    list_text cfg w = None →
    open_text (input_file cfg) w = (Raise e, w) →
    acquired cfg w (Raise e) w
| acq_exhausted c :
    list_text cfg w = Some c →
    read_lines c = [] →
    acquired cfg w (Ok (None, None))
      (extend w (<[list_key cfg w := File ""]> (files w))
         [EvFlock true; EvWrite (list_key cfg w) ""; EvFlock false])
| acq_all_held c :
    list_text cfg w = Some c →
    read_lines c ≠ [] →
    Forall (held cfg w) (read_lines c) →
    acquired cfg w (Ok (None, None)) (extend w (files w) [EvFlock true; EvFlock false])
| acq_scan_fails c e j rel :
    list_text cfg w = Some c →
    read_lines c !! j = Some rel →
    lock_status w (full_path cfg rel) = LockRaises e →
    acquired cfg w (Raise e) (extend w (files w) [EvFlock true])
| acq_claimed c j rel :
    list_text cfg w = Some c →
    read_lines c !! j = Some rel →
    Forall (held cfg w) (take j (read_lines c)) →
    lock_status w (full_path cfg rel) = LockFree →
    acquired cfg w
      (Ok (Some (full_path cfg rel), Some (lock_path_of (full_path cfg rel))))
      (extend w
         (<[list_key cfg w := File (unlines (delete j (read_lines c)))]>
            (<[lock_key w (full_path cfg rel) := File ""]> (files w)))
         [EvFlock true; EvCreate (lock_key w (full_path cfg rel));
          EvWrite (list_key cfg w) (unlines (delete j (read_lines c)));
          EvFlock false]).

Section ClaimProtocol.

Lemma scan_lines_spec cfg lines : ∀ idx w,
  match scan_lines cfg idx lines w with
  | (Raise e, w') =>
      w' = w ∧ ∃ j rel, lines !! j = Some rel
                        ∧ lock_status w (full_path cfg rel) = LockRaises e
  | (Ok None, w') => w' = w ∧ Forall (held cfg w) lines
  | (Ok (Some (i, rc, full, lock)), w') =>
      ∃ j rel, i = idx + j ∧ lines !! j = Some rel
               ∧ Forall (held cfg w) (take j lines)
               ∧ lock_status w (full_path cfg rel) = LockFree
               ∧ rc = rel_clean rel ∧ full = full_path cfg rel
               ∧ lock = lock_path_of full
               ∧ w' = extend w (<[lock_key w full := File ""]> (files w))
                              [EvCreate (lock_key w full)]
  end.
Proof.
  induction lines as [|rel rest IH]; intros idx w; simpl.
  - unfold ret. split; [done | constructor].
  - unfold bind. rewrite make_item_lock_eq.
    destruct (lock_status w (full_path cfg rel)) eqn:Hs; simpl.
    + split; [done |]. exists 0, rel. done.
    + specialize (IH (S idx) w).
      destruct (scan_lines cfg (S idx) rest w) as [[[[[[i rc] full] lock]|]|e] w'].
      * destruct IH as (j & rel' & -> & Hj & Hheld & Hfree & Hrest).
        exists (S j), rel'. split; [lia |]. split; [done |].
        split; [simpl; by constructor | done].
      * destruct IH as [-> Hall]. split; [done | by constructor].
      * destruct IH as [-> (j & rel' & Hj & He)]. split; [done |].
        by exists (S j), rel'.
    + rewrite lock_path_nonempty. unfold ret. simpl.
      exists 0, rel. repeat split; done.
Qed.

Lemma list_text_Some cfg w c :
  list_text cfg w = Some c →
  path_exists w (input_file cfg) = true
  ∧ open_text (input_file cfg) w = (Ok (list_key cfg w), w)
  ∧ files w !! list_key cfg w = Some (File c).
Proof.
  unfold list_text, path_exists, stat, open_text, list_key.
  destruct (nonempty (input_file cfg)); simpl; [|done].
  destruct (files w !! _) as [[c'|]|]; [|done|done].
  destruct (dir_required _); [done |]. by intros [= ->].
Qed.

Lemma list_text_None cfg w :
  list_text cfg w = None →
  path_exists w (input_file cfg) = false
  ∨ ∃ e, open_text (input_file cfg) w = (Raise e, w).
Proof.
  unfold list_text, path_exists, stat, open_text.
  destruct (nonempty (input_file cfg)); simpl; [|by left].
  destruct (files w !! _) as [[c'|]|]; [| |by left].
  - destruct (dir_required _); [by left | done].
  - intros _. right. by eexists.
Qed.

Theorem acquire_cases cfg w :
  acquired cfg w (acquire_next_job_from_list cfg w).1
                 (acquire_next_job_from_list cfg w).2.
Proof.
  unfold acquire_next_job_from_list.
  rewrite bind_eq, os_path_exists_eq.
  destruct (list_text cfg w) as [c|] eqn:Ht.
  - destruct (list_text_Some _ _ _ Ht) as (Hex & Hop & Hc).
    rewrite Hex. norm. rewrite bind_eq, Hop. norm.
    rewrite bind_eq, flock_eq. norm.
    rewrite bind_eq, read_all_eq. norm.
    rewrite files_extend, Hc.
    destruct (read_lines c) as [|l0 ls] eqn:Hl.
    + rewrite bind_eq, rewrite_all_eq. norm.
      rewrite bind_eq, flock_eq, ret_eq. norm.
      rewrite !extend_extend, !files_extend. simpl app.
      by eapply acq_exhausted.
    + rewrite <- Hl. rewrite bind_eq.
      pose proof (scan_lines_spec cfg (read_lines c) 0
                    (extend w (files w) [EvFlock true])) as Hscan.
      destruct (scan_lines cfg 0 (read_lines c) _)
        as [[[[[[i rc] full] lock]|]|e] w'].
      * destruct Hscan as (j & rel & -> & Hj & Hheld & Hfree & -> & -> & -> & ->).
        norm. rewrite bind_eq, rewrite_all_eq. norm.
        rewrite bind_eq, flock_eq, ret_eq. norm.
        rewrite !extend_extend, !files_extend, !lock_key_extend. simpl app.
        eapply acq_claimed; [done | exact Hj | | exact Hfree].
        eapply Forall_impl; [exact Hheld | intros x Hx; exact Hx].
      * destruct Hscan as [-> Hall]. norm.
        rewrite bind_eq, flock_eq, ret_eq. norm.
        rewrite !extend_extend, !files_extend. simpl app.
        eapply acq_all_held; [done | by rewrite Hl |].
        eapply Forall_impl; [exact Hall | intros x Hx; exact Hx].
      * destruct Hscan as [-> (j & rel & Hj & He)]. norm.
        eapply acq_scan_fails; [done | exact Hj | exact He].
  - destruct (list_text_None _ _ Ht) as [Hex|[e He]].
    + rewrite Hex. norm. rewrite ret_eq. by apply acq_absent.
    + destruct (path_exists w (input_file cfg)) eqn:Hex; norm.
      * rewrite bind_eq, He. norm. by apply acq_open_fails.
      * rewrite ret_eq. by apply acq_absent.
Qed.

End ClaimProtocol.

(* ===================================================================== *)
(** * Writing the list back and reading it again                          *)
(* ===================================================================== *)

(** A line as [read_lines] yields it: not blank, stripped, on one line. *)
Definition clean_line (l : string) : Prop :=
  nonempty l = true ∧ strip l = l ∧ free_of LF l = true ∧ free_of CR l = true.

Section ListRoundTrip.

Lemma rstrip_by_idem f s : rstrip_by f (rstrip_by f s) = rstrip_by f s.
Proof.
  induction s as [|a s IH]; simpl; [done |].
  destruct (rstrip_by f s) as [|b r] eqn:E.
  - destruct (f a) eqn:Ha; simpl; [done | by rewrite Ha].
  - simpl in *. by rewrite IH.
Qed.

Lemma lstrip_by_idem f s : lstrip_by f (lstrip_by f s) = lstrip_by f s.
Proof.
  induction s as [|a s IH]; simpl; [done |].
  destruct (f a) eqn:Ha; [done |]. simpl. by rewrite Ha.
Qed.

Lemma rstrip_lstrip_fixed f y :
  rstrip_by f y = y → rstrip_by f (lstrip_by f y) = lstrip_by f y.
Proof.
  induction y as [|a y IH]; simpl; [done |].
  destruct (f a) eqn:Ha.
  - destruct (rstrip_by f y) as [|b r] eqn:E; [done |].
    intros [= Hy]. by apply IH.
  - intros H. simpl. by rewrite Ha.
Qed.

Lemma strip_by_idem f s :
  lstrip_by f (rstrip_by f (lstrip_by f (rstrip_by f s))) = lstrip_by f (rstrip_by f s).
Proof.
  rewrite (rstrip_lstrip_fixed f (rstrip_by f s)) by apply rstrip_by_idem.
  apply lstrip_by_idem.
Qed.

Lemma strip_idem s : strip (strip s) = strip s.
Proof. apply strip_by_idem. Qed.

Lemma free_of_lstrip c f s : free_of c s = true → free_of c (lstrip_by f s) = true.
Proof.
  induction s as [|a s IH]; simpl; [done |].
  intros [Ha Hs]%andb_prop. destruct (f a); [by apply IH |].
  simpl. by rewrite Ha, Hs.
Qed.

Lemma free_of_rstrip c f s : free_of c s = true → free_of c (rstrip_by f s) = true.
Proof.
  induction s as [|a s IH]; simpl; [done |].
  intros [Ha Hs]%andb_prop. specialize (IH Hs).
  destruct (rstrip_by f s) as [|b r].
  - destruct (f a); simpl; [done | by rewrite Ha].
  - simpl in *. by rewrite Ha, IH.
Qed.

Lemma free_of_app c s t :
  free_of c (s +:+ t) = free_of c s && free_of c t.
Proof.
  induction s as [|a s IH]; simpl; [done |]. by rewrite IH, andb_assoc.
Qed.

(** [universal_newlines] leaves no carriage return. *)
Lemma universal_newlines_free_aux n : ∀ s,
  String.length s ≤ n → free_of CR (universal_newlines s) = true.
Proof.
  induction n as [|n IH]; intros [|a s] Hn; simpl in *; try done; [lia |].
  destruct (Ascii.eqb a CR) eqn:Ha; simpl.
  - destruct s as [|b s']; [done |].
    destruct (Ascii.eqb b LF); apply IH; simpl in *; lia.
  - rewrite Ha. simpl. apply IH. lia.
Qed.

Lemma universal_newlines_free s : free_of CR (universal_newlines s) = true.
Proof. by apply (universal_newlines_free_aux (String.length s)). Qed.

Lemma universal_newlines_fixed s :
  free_of CR s = true → universal_newlines s = s.
Proof.
  induction s as [|a s IH]; simpl; [done |].
  intros [Ha Hs]%andb_prop. apply negb_true_iff in Ha. rewrite Ha.
  by rewrite IH.
Qed.

(** Every line of a text is free of "\n" up to its terminator, and has no
    character the text has not. *)
Lemma lines_keepends_shape s :
  Forall (λ x, ∃ body, free_of LF body = true
                       ∧ (x = body ∨ x = body +:+ String LF "")) (lines_keepends s).
Proof.
  induction s as [|a s IH]; simpl; [constructor |].
  destruct (Ascii.eqb a LF) eqn:Ha.
  - constructor; [|done]. exists "". split; [done | by right].
  - destruct (lines_keepends s) as [|l ls]; inversion IH as [|? ? Hl Hls]; subst.
    + constructor; [|done]. exists (String a ""). simpl. rewrite Ha. split; [done | by left].
    + constructor; [|done]. destruct Hl as (body & Hb & Hx).
      exists (String a body). simpl. rewrite Ha, Hb. split; [done |].
      destruct Hx as [->| ->]; [by left | by right].
Qed.

Lemma lines_keepends_free c s :
  free_of c s = true → Forall (λ x, free_of c x = true) (lines_keepends s).
Proof.
  induction s as [|a s IH]; simpl; [constructor |].
  intros [Ha Hs]%andb_prop. specialize (IH Hs).
  destruct (Ascii.eqb a LF) eqn:E.
  - constructor; [|done]. apply Ascii.eqb_eq in E. subst a.
    change (negb (Ascii.eqb LF c) && true = true). by rewrite andb_true_r.
  - destruct (lines_keepends s) as [|l ls]; inversion IH; subst.
    + constructor; [|done]. simpl. by rewrite Ha.
    + constructor; [|done]. simpl. rewrite Ha. done.
Qed.

Lemma strip_terminated body :
  strip (body +:+ String LF "") = strip body.
Proof. unfold strip. by rewrite rstrip_by_snoc_strip. Qed.

Lemma read_lines_clean c : Forall clean_line (read_lines c).
Proof.
  unfold read_lines, file_lines.
  pose proof (lines_keepends_shape (universal_newlines c)) as Hshape.
  pose proof (lines_keepends_free CR _ (universal_newlines_free c)) as Hcr.
  induction (lines_keepends (universal_newlines c)) as [|x xs IH]; simpl; [constructor |].
  inversion Hshape as [|? ? (body & Hb & Hx) Hs']; subst.
  inversion Hcr as [|? ? Hx' Hc']; subst.
  rewrite filter_cons. case_decide as Hne; [|by apply IH].
  constructor; [|by apply IH].
  split; [done |]. split; [apply strip_idem |].
  assert (strip x = strip body) as ->.
  { destruct Hx as [->| ->]; [done | apply strip_terminated]. }
  assert (free_of CR body = true) as Hcb.
  { destruct Hx as [->| ->]; [done |]. rewrite free_of_app in Hx'.
    by apply andb_prop in Hx' as [? _]. }
  unfold strip. split; by apply free_of_lstrip, free_of_rstrip.
Qed.

Lemma lines_keepends_cons l rest :
  free_of LF l = true →
  lines_keepends (l +:+ String LF rest) = (l +:+ String LF "") :: lines_keepends rest.
Proof.
  induction l as [|a l IH]; simpl.
  - intros _. reflexivity.
  - intros [Ha Hl]%andb_prop. apply negb_true_iff in Ha. rewrite Ha.
    by rewrite IH.
Qed.

Lemma unlines_free_CR ls :
  Forall clean_line ls → free_of CR (unlines ls) = true.
Proof.
  induction 1 as [|l ls (_ & _ & _ & Hcr) _ IH]; simpl; [done |].
  rewrite free_of_app, Hcr. simpl. exact IH.
Qed.

(** What was written is what the next reader finds. *)
Lemma read_lines_unlines ls : Forall clean_line ls → read_lines (unlines ls) = ls.
Proof.
  intros Hcl. unfold read_lines, file_lines.
  rewrite universal_newlines_fixed by by apply unlines_free_CR.
  induction Hcl as [|l ls (Hne & Hst & Hlf & Hcr) _ IH]; simpl; [done |].
  rewrite lines_keepends_cons by done. simpl.
  rewrite strip_terminated, Hst, filter_cons.
  case_decide; [|done]. by rewrite IH.
Qed.

Lemma read_lines_after_delete c j :
  read_lines (unlines (delete j (read_lines c))) = delete j (read_lines c).
Proof.
  apply read_lines_unlines, Forall_delete, read_lines_clean.
Qed.

Lemma read_lines_empty_text : read_lines "" = [].
Proof. done. Qed.

End ListRoundTrip.

(* ===================================================================== *)
(** * Consequences for callers of the claim protocol                      *)
(* ===================================================================== *)

Section ClaimConsequences.

Lemma held_iff_creation_fails cfg w rel :
  held cfg w rel ↔ make_item_lock (full_path cfg rel) w = (Ok None, w).
Proof.
  unfold held. rewrite make_item_lock_eq.
  destruct (lock_status w (full_path cfg rel)); split; intros H; done.
Qed.

Lemma free_iff_creation_succeeds w path :
  lock_status w path = LockFree →
  files w !! lock_key w path = None
  ∧ make_item_lock path w =
      (Ok (Some (lock_path_of path)),
       extend w (<[lock_key w path := File ""]> (files w)) [EvCreate (lock_key w path)]).
Proof.
  intros Hs. rewrite make_item_lock_eq, Hs. split; [|done].
  unfold lock_status in Hs. destruct (check_parent _ _); [done |].
  by destruct (files w !! _).
Qed.

Lemma remaining_eq ls :
  existsb (λ ln, nonempty (strip ln)) ls =
    match filter (λ ln, nonempty ln = true) (map strip ls) with
    | [] => false
    | _ => true
    end.
Proof.
  induction ls as [|l ls IH]; simpl; [done |].
  rewrite filter_cons. case_decide as H.
  - by rewrite H.
  - apply not_true_is_false in H. by rewrite H.
Qed.

(** The worker's check (lines 201-206) when the list can be opened. *)
Lemma list_has_remaining_eq cfg w c :
  list_text cfg w = Some c →
  list_has_remaining cfg w =
    (Ok (match read_lines c with [] => false | _ => true end), w).
Proof.
  intros Ht. destruct (list_text_Some _ _ _ Ht) as (Hex & Hop & Hc).
  unfold list_has_remaining.
  rewrite bind_eq, os_path_exists_eq, Hex. norm.
  rewrite bind_eq, Hop. norm. rewrite bind_eq, read_all_eq, Hc. norm.
  rewrite ret_eq. unfold read_lines. by rewrite remaining_eq.
Qed.

Lemma list_text_rewritten cfg w c m evs text :
  list_text cfg w = Some c →
  list_text cfg (extend w (<[list_key cfg w := File text]> m) evs) = Some text.
Proof.
  unfold list_text, stat, list_key. simpl.
  destruct (nonempty (input_file cfg)); simpl; [|done].
  rewrite lookup_insert_eq.
  destruct (files w !! _) as [[c'|]|]; [|done|done].
  by destruct (dir_required _).
Qed.

(** When the list holds no line, the call truncates it and says so. *)
Lemma acquire_exhausted cfg w c :
  list_text cfg w = Some c → read_lines c = [] →
  acquire_next_job_from_list cfg w =
    (Ok (None, None),
     extend w (<[list_key cfg w := File ""]> (files w))
       [EvFlock true; EvWrite (list_key cfg w) ""; EvFlock false]).
Proof.
  intros Ht Hl. pose proof (acquire_cases cfg w) as H.
  destruct (acquire_next_job_from_list cfg w) as [r w']. simpl in H.
  destruct (list_text_Some _ _ _ Ht) as (Hex & Hop & Hc).
  inversion H as [Hab|e Hn|c' Ht' Hl'|c' Ht' Hl'|c' e j rel Ht' Hj|c' j rel Ht' Hj];
    subst; try congruence.
  - assert (c' = c) as -> by congruence. rewrite Hl in Hj. by rewrite lookup_nil in Hj.
  - assert (c' = c) as -> by congruence. rewrite Hl in Hj. by rewrite lookup_nil in Hj.
Qed.

(** When lines remain and every marker exists, the call changes no file. *)
Lemma acquire_all_held cfg w c :
  list_text cfg w = Some c → read_lines c ≠ [] →
  Forall (held cfg w) (read_lines c) →
  acquire_next_job_from_list cfg w =
    (Ok (None, None), extend w (files w) [EvFlock true; EvFlock false]).
Proof.
  intros Ht Hl Hall. pose proof (acquire_cases cfg w) as H.
  destruct (acquire_next_job_from_list cfg w) as [r w']. simpl in H.
  destruct (list_text_Some _ _ _ Ht) as (Hex & Hop & Hc).
  inversion H as [Hab|e Hn|c' Ht' Hl'|c' Ht' Hl'|c' e j rel Ht' Hj Hs|c' j rel Ht' Hj Hh Hs];
    subst; try congruence.
  - assert (c' = c) as -> by congruence.
    rewrite Forall_lookup in Hall. specialize (Hall _ _ Hj).
    unfold held in Hall. congruence.
  - assert (c' = c) as -> by congruence.
    rewrite Forall_lookup in Hall. specialize (Hall _ _ Hj).
    unfold held in Hall. congruence.
Qed.

End ClaimConsequences.

(* ===================================================================== *)
(** * Theorems on the claim protocol                                      *)
(* ===================================================================== *)

(** Two worlds for the examples: the list is empty in the first; in the
    second it holds one line whose marker exists. *)
Definition sample_config : config :=
  {| input_file := "transcode_list.txt"; base_path := "/data";
     log_file := "transcode_failures.log"; workers := 2 |}.

Definition world_exhausted : world :=
  {| files := list_to_map
       [([], Dir); (["data"], Dir); (["work"], Dir);
        (["work"; "transcode_list.txt"], File "")];
     cwd := "/work"; trace := [] |}.

Definition world_all_held : world :=
  {| files := list_to_map
       [([], Dir); (["data"], Dir); (["work"], Dir);
        (["data"; "a.mkv"], File "AAAA");
        (["data"; "a.mkv.transcode.lock"], File "");
        (["work"; "transcode_list.txt"], File ("a.mkv" +:+ newline))];
     cwd := "/work"; trace := [] |}.

(** C2, the claim as stated fails: with an empty list and with a list
    whose only line is held by another worker the call returns the same
    value, [(None, None)]. *)
Lemma C2_same_result_when_exhausted_and_when_held :
  list_text sample_config world_exhausted = Some ""
  ∧ read_lines "" = []
  ∧ list_text sample_config world_all_held = Some ("a.mkv" +:+ newline)
  ∧ read_lines ("a.mkv" +:+ newline) = ["a.mkv"]
  ∧ held sample_config world_all_held "a.mkv"
  ∧ (acquire_next_job_from_list sample_config world_exhausted).1 = Ok (None, None)
  ∧ (acquire_next_job_from_list sample_config world_all_held).1 = Ok (None, None).
Proof. vm_compute. repeat split; reflexivity. Qed.

(** C2, as amended: a call that returns gives either a job with its lock
    path or the one value [(None, None)].  That value stands both for
    "no line left", where the artifact is truncated to the empty text and
    a second call changes no file, and for "lines left, all held", where
    no file changes.  The caller tells the two apart by reading the list
    again ([list_has_remaining]). *)
Theorem C2_acquire_results (cfg : config) (w : world) :
  ((∃ e, (acquire_next_job_from_list cfg w).1 = Raise e)
   ∨ (acquire_next_job_from_list cfg w).1 = Ok (None, None)
   ∨ (∃ job lock, (acquire_next_job_from_list cfg w).1 = Ok (Some job, Some lock)))
  ∧ (∀ c, list_text cfg w = Some c → read_lines c = [] →
       let w' := (acquire_next_job_from_list cfg w).2 in
       (acquire_next_job_from_list cfg w).1 = Ok (None, None)
       ∧ list_text cfg w' = Some ""
       ∧ files (acquire_next_job_from_list cfg w').2 = files w'
       ∧ (list_has_remaining cfg w').1 = Ok false)
  ∧ (∀ c, list_text cfg w = Some c → read_lines c ≠ [] →
       (∀ rel, rel ∈ read_lines c →
          make_item_lock (full_path cfg rel) w = (Ok None, w)) →
       let w' := (acquire_next_job_from_list cfg w).2 in
       (acquire_next_job_from_list cfg w).1 = Ok (None, None)
       ∧ files w' = files w
       ∧ (list_has_remaining cfg w').1 = Ok true).
Proof.
  split; [|split].
  - pose proof (acquire_cases cfg w) as H.
    destruct (acquire_next_job_from_list cfg w) as [r w']. simpl in *.
    inversion H; subst; eauto.
  - intros c Ht Hl. rewrite (acquire_exhausted _ _ _ Ht Hl). simpl.
    set (w' := extend w _ _).
    assert (list_text cfg w' = Some "") as Ht' by by eapply list_text_rewritten.
    split; [done |]. split; [done |]. split.
    + rewrite (acquire_exhausted _ _ _ Ht' read_lines_empty_text). simpl.
      unfold w', list_key. simpl. apply insert_insert_eq.
    + by rewrite (list_has_remaining_eq _ _ _ Ht').
  - intros c Ht Hl Hheld.
    assert (Forall (held cfg w) (read_lines c)) as Hall.
    { apply Forall_forall. intros rel Hrel. by apply held_iff_creation_fails, Hheld. }
    rewrite (acquire_all_held _ _ _ Ht Hl Hall). simpl.
    split; [done |]. split; [done |].
    assert (list_text cfg (extend w (files w) [EvFlock true; EvFlock false]) = Some c)
      as Ht' by exact Ht.
    rewrite (list_has_remaining_eq _ _ _ Ht'). simpl.
    by destruct (read_lines c).
Qed.

(** The two hypothetical cases of C2's theorem do occur. *)
Lemma C2_acquire_results_witness :
  (list_text sample_config world_exhausted = Some "" ∧ read_lines "" = [])
  ∧ (list_text sample_config world_all_held = Some ("a.mkv" +:+ newline)
     ∧ read_lines ("a.mkv" +:+ newline) ≠ []
     ∧ ∀ rel, rel ∈ read_lines ("a.mkv" +:+ newline) →
         make_item_lock (full_path sample_config rel) world_all_held
         = (Ok None, world_all_held))
  ∧ (acquire_next_job_from_list sample_config world_exhausted).1 = Ok (None, None)
  ∧ (acquire_next_job_from_list sample_config world_all_held).1 = Ok (None, None).
Proof.
  assert (H1 : list_text sample_config world_exhausted = Some "") by reflexivity.
  assert (H2 : list_text sample_config world_all_held = Some ("a.mkv" +:+ newline))
    by reflexivity.
  assert (H3 : read_lines ("a.mkv" +:+ newline) ≠ []) by (vm_compute; discriminate).
  assert (H4 : ∀ rel, rel ∈ read_lines ("a.mkv" +:+ newline) →
                 make_item_lock (full_path sample_config rel) world_all_held
                 = (Ok None, world_all_held)).
  { intros rel Hrel. change (read_lines ("a.mkv" +:+ newline)) with ["a.mkv"] in Hrel.
    apply list_elem_of_singleton in Hrel as ->. reflexivity. }
  split; [split; [exact H1 | reflexivity] |].
  split; [split; [exact H2 | split; [exact H3 | exact H4]] |].
  split.
  - exact (proj1 (proj1 (proj2 (C2_acquire_results sample_config world_exhausted))
                    "" H1 eq_refl)).
  - exact (proj1 (proj2 (proj2 (C2_acquire_results sample_config world_all_held))
                    ("a.mkv" +:+ newline) H2 H3 H4)).
Defined.

(** C4: a call that returns a job read the list under the exclusive lock,
    took the first line, in the order of the list, whose marker it could
    create, and, the marker made, wrote back the other lines in their
    order; the lock is let go last. *)
Theorem C4_claims_first_creatable_line
  (cfg : config) (w w' : world) (job lock : string) :
  acquire_next_job_from_list cfg w = (Ok (Some job, Some lock), w') →
  ∃ (c : string) (j : nat) (rel : string),
    list_text cfg w = Some c
    ∧ read_lines c !! j = Some rel
    ∧ job = full_path cfg rel
    ∧ lock = job +:+ ".transcode.lock"
    ∧ (∀ i rel', i < j → read_lines c !! i = Some rel' →
         make_item_lock (full_path cfg rel') w = (Ok None, w))
    ∧ files w !! lock_key w job = None
    ∧ (make_item_lock job w).1 = Ok (Some lock)
    ∧ files w' =
        <[list_key cfg w := File (unlines (delete j (read_lines c)))]>
          (<[lock_key w job := File ""]> (files w))
    ∧ read_lines (unlines (delete j (read_lines c))) = delete j (read_lines c)
    ∧ trace w' =
        trace w ++ [EvFlock true; EvCreate (lock_key w job);
                    EvWrite (list_key cfg w) (unlines (delete j (read_lines c)));
                    EvFlock false].
Proof.
  intros Hacq. pose proof (acquire_cases cfg w) as H. rewrite Hacq in H. simpl in H.
  inversion H as [| | | | |c j rel Ht Hj Hheld Hfree]; subst.
  exists c, j, rel.
  destruct (free_iff_creation_succeeds _ _ Hfree) as [Hnone Hmk].
  repeat split; try done.
  - intros i rel' Hi Hrel'. apply held_iff_creation_fails.
    rewrite Forall_lookup in Hheld. apply (Hheld i).
    by rewrite lookup_take_lt.
  - by rewrite Hmk.
  - apply read_lines_after_delete.
Qed.

Definition world_second_free : world :=
  {| files := list_to_map
       [([], Dir); (["data"], Dir); (["work"], Dir);
        (["data"; "a.mkv.transcode.lock"], File "");
        (["work"; "transcode_list.txt"],
         File ("a.mkv" +:+ newline +:+ "b.mkv" +:+ newline +:+ "c.mkv" +:+ newline))];
     cwd := "/work"; trace := [] |}.

(** On the list a.mkv, b.mkv, c.mkv with a.mkv held, the call takes
    b.mkv. *)
Lemma C4_claims_first_creatable_line_witness :
  ∃ c j rel,
    list_text sample_config world_second_free = Some c
    ∧ read_lines c !! j = Some rel
    ∧ "/data/b.mkv" = full_path sample_config rel
    ∧ read_lines (unlines (delete j (read_lines c))) = delete j (read_lines c).
Proof.
  assert (acquire_next_job_from_list sample_config world_second_free
          = (Ok (Some "/data/b.mkv", Some "/data/b.mkv.transcode.lock"),
             (acquire_next_job_from_list sample_config world_second_free).2)) as Hacq
    by (vm_compute; reflexivity).
  destruct (C4_claims_first_creatable_line sample_config world_second_free _
              "/data/b.mkv" "/data/b.mkv.transcode.lock" Hacq)
    as (c & j & rel & Ht & Hj & Hjob & _ & _ & _ & _ & _ & Hrt & _).
  by exists c, j, rel.
Defined.

(** C8: when the list holds lines and the marker of every one of them
    exists, the call returns [(None, None)] and changes no file; between
    locking and unlocking it does nothing. *)
Theorem C8_all_held_leaves_list_untouched (cfg : config) (w : world) (c : string) :
  list_text cfg w = Some c →
  read_lines c ≠ [] →
  (∀ rel, rel ∈ read_lines c →
     make_item_lock (full_path cfg rel) w = (Ok None, w)) →
  (acquire_next_job_from_list cfg w).1 = Ok (None, None)
  ∧ files (acquire_next_job_from_list cfg w).2 = files w
  ∧ list_text cfg (acquire_next_job_from_list cfg w).2 = Some c
  ∧ trace (acquire_next_job_from_list cfg w).2
    = trace w ++ [EvFlock true; EvFlock false].
Proof.
  intros Ht Hl Hheld.
  assert (Forall (held cfg w) (read_lines c)) as Hall.
  { apply Forall_forall. intros rel Hrel. by apply held_iff_creation_fails, Hheld. }
  rewrite (acquire_all_held _ _ _ Ht Hl Hall). simpl. repeat split; done.
Qed.

Lemma C8_all_held_leaves_list_untouched_witness :
  files (acquire_next_job_from_list sample_config world_all_held).2
  = files world_all_held.
Proof.
  refine (proj1 (proj2 (C8_all_held_leaves_list_untouched sample_config world_all_held
                   ("a.mkv" +:+ newline) eq_refl _ _))).
  - vm_compute. discriminate.
  - intros rel Hrel. change (read_lines ("a.mkv" +:+ newline)) with ["a.mkv"] in Hrel.
    apply list_elem_of_singleton in Hrel as ->. reflexivity.
Defined.

(** C9, the claim as stated fails: a listed absolute path does not name
    the file directly; it too is joined to the base directory. *)
Lemma C9_absolute_path_is_rebased :
  isabs "/media/a.mkv" = true
  ∧ full_path sample_config "/media/a.mkv" = "/data/media/a.mkv"
  ∧ full_path sample_config "/media/a.mkv" ≠ "/media/a.mkv".
Proof. repeat split; [reflexivity.. | discriminate]. Qed.

(** C9, as amended: for every line, the double quotes and then the single
    quotes around it are stripped; of what is left every leading separator
    is stripped, not only one, so that the rest never starts with a
    separator and is always joined to the base directory, whether or not
    the line named an absolute path. *)
Theorem C9_line_resolution (cfg : config) (rel : string) :
  let x := lstrip_chars sep (rel_clean rel) in
  startswith x sep = false
  ∧ full_path cfg rel =
      (if negb (nonempty (base_path cfg)) || ends_with_char (base_path cfg) slash
       then base_path cfg +:+ x
       else base_path cfg +:+ sep +:+ x)
  ∧ rel_clean (dquote +:+ rel +:+ dquote) = rel_clean rel
  ∧ rel_clean (squote +:+ rel +:+ squote) = strip_chars squote rel.
Proof.
  cbv zeta. unfold sep.
  split; [apply lstrip_chars_not_startswith |]. split; [|split].
  - unfold full_path, join2, sep. by rewrite lstrip_chars_not_startswith.
  - unfold rel_clean, strip_chars.
    change (dquote +:+ rel +:+ dquote)
      with (String (ascii_of_nat 34) (rel +:+ String (ascii_of_nat 34) "")).
    by rewrite strip_wrapped.
  - unfold rel_clean, strip_chars.
    change (squote +:+ rel +:+ squote)
      with (String (ascii_of_nat 39) (rel +:+ String (ascii_of_nat 39) "")).
    rewrite (strip_shielded (in_chars dquote)) by done.
    by rewrite strip_wrapped.
Qed.

(* ===================================================================== *)
(** * The failure log and the release of a marker                         *)
(* ===================================================================== *)

Definition log_key (cfg : config) (w : world) : list string :=
  key_of (cwd w) (log_file cfg).

(** The text of the failure log; nothing when there is no log yet. *)
Definition log_text (cfg : config) (w : world) : string :=
  match files w !! log_key cfg w with
  | Some (File c) => c
  | _ => EmptyString
  end.

(** The failure log can be opened for appending: it is a regular file, or
    it is absent and its directory exists. *)
Definition log_appendable (cfg : config) (w : world) : bool :=
  nonempty (log_file cfg) && negb (dir_required (log_file cfg))
  && match files w !! log_key cfg w with
     | Some (File _) => true
     | Some Dir => false
     | None => match check_parent w (log_key cfg w) with
               | None => true
               | Some _ => false
               end
     end.

Section LogAndRelease.

Lemma try_any_never_raises {A} (m : M A) (h : M A) w :
  (∀ w', ∃ a, h w' = (Ok a, w')) →
  ∃ a, (try_except m any_Exception h w).1 = Ok a.
Proof.
  intros Hh. rewrite try_except_eq. destruct (m w) as [[a|e] w']; simpl; [eauto |].
  destruct (Hh w') as [a ->]. eauto.
Qed.

(** [log_failure] never raises and writes nowhere but to the log. *)
Lemma log_failure_cases cfg path w :
  log_failure cfg path w = (Ok tt, w)
  ∨ log_failure cfg path w =
      (Ok tt, extend w (<[log_key cfg w := File (log_text cfg w +:+ path +:+ newline)]> (files w))
                [EvAppend (log_key cfg w) (path +:+ newline)]).
Proof.
  unfold log_failure, log_text. rewrite try_except_eq. unfold append_text, log_key.
  destruct (nonempty (log_file cfg)); simpl; [|by left].
  destruct (files w !! _) as [[c|]|] eqn:E.
  - destruct (dir_required _); simpl; [by left | by right].
  - by left.
  - destruct (check_parent w _); simpl; [by left |].
    destruct (dir_required _); simpl; [by left | by right].
Qed.

Lemma log_failure_appends cfg path w :
  log_appendable cfg w = true →
  log_failure cfg path w =
    (Ok tt, extend w (<[log_key cfg w := File (log_text cfg w +:+ path +:+ newline)]> (files w))
              [EvAppend (log_key cfg w) (path +:+ newline)]).
Proof.
  unfold log_appendable, log_failure, log_text. rewrite try_except_eq.
  unfold append_text, log_key.
  destruct (nonempty (log_file cfg)); simpl; [|done].
  destruct (dir_required _); simpl; [done |].
  destruct (files w !! _) as [[c|]|] eqn:E; [done | done |].
  by destruct (check_parent w _).
Qed.

(** [release_item_lock] never raises; it removes the marker or does
    nothing. *)
Lemma release_item_lock_cases lock w :
  release_item_lock lock w = (Ok tt, w)
  ∨ ∃ l c, lock = Some l
           ∧ files w !! key_of (cwd w) l = Some (File c)
           ∧ release_item_lock lock w =
               (Ok tt, extend w (delete (key_of (cwd w) l) (files w))
                         [EvRemove (key_of (cwd w) l)]).
Proof.
  unfold release_item_lock. rewrite try_except_eq.
  destruct lock as [l|]; [|by left].
  destruct (nonempty l) eqn:Hne; [|by left].
  rewrite bind_eq, os_path_exists_eq. norm.
  destruct (path_exists w l) eqn:Hex; [|by left].
  unfold os_remove. rewrite Hne. norm.
  destruct (files w !! key_of (cwd w) l) as [[c|]|] eqn:E; [| by left | by left].
  destruct (dir_required l) eqn:Hd; [by left |].
  right. exists l, c. done.
Qed.

Lemma release_item_lock_ok lock w : (release_item_lock lock w).1 = Ok tt.
Proof.
  destruct (release_item_lock_cases lock w) as [-> | (l & c & _ & _ & ->)]; done.
Qed.

Lemma release_item_lock_twice lock w :
  release_item_lock lock (release_item_lock lock w).2
  = (Ok tt, (release_item_lock lock w).2).
Proof.
  destruct (release_item_lock_cases lock w) as [H | (l & c & -> & Hc & H)].
  - rewrite H. simpl. exact H.
  - rewrite H. simpl.
    unfold release_item_lock. rewrite try_except_eq.
    destruct (nonempty l) eqn:Hne; [|done].
    rewrite bind_eq, os_path_exists_eq. norm.
    unfold path_exists, stat. rewrite Hne. simpl.
    by rewrite lookup_delete_eq.
Qed.

End LogAndRelease.

(* ===================================================================== *)
(** * The pipeline before any file is touched                             *)
(* ===================================================================== *)

Section EarlyExits.

(** Lines 129-131. *)
Lemma transcode_file_not_a_file po eo path w :
  isfile w path = false → transcode_file po eo path w = (Ok false, w).
Proof.
  intros H. unfold transcode_file. rewrite bind_eq, os_path_isfile_eq, H. done.
Qed.

Lemma get_video_codec_exit0 out path w :
  get_video_codec (ProbeExit0 out) path w =
    (Ok (if nonempty (lower (strip out)) then Some (lower (strip out)) else None),
     extend w (files w) [EvProbe path]).
Proof. done. Qed.

Lemma get_video_codec_nonzero path w :
  get_video_codec ProbeNonZero path w = (Ok None, extend w (files w) [EvProbe path]).
Proof. done. Qed.

Lemma get_video_codec_spawn_error path w :
  get_video_codec ProbeSpawnError path w = (Raise OSError, w).
Proof. done. Qed.

(** Lines 133-139: the codec is not one to transcode. *)
Lemma transcode_file_skips po eo out path w :
  isfile w path = true →
  po = ProbeExit0 out →
  nonempty (lower (strip out)) = true →
  lower (strip out) ∉ inefficient_codecs →
  transcode_file po eo path w = (Ok true, extend w (files w) [EvProbe path]).
Proof.
  intros Hf -> Hne Hnot. unfold transcode_file.
  rewrite bind_eq, os_path_isfile_eq, Hf. norm.
  rewrite bind_eq, get_video_codec_exit0, Hne. norm.
  unfold truthy. rewrite Hne. norm. simpl default.
  rewrite bool_decide_eq_false_2 by done. done.
Qed.

End EarlyExits.

(** The world of the examples: two media files and a list of two lines. *)
Definition world_two_jobs : world :=
  {| files := list_to_map
       [([], Dir); (["data"], Dir); (["work"], Dir);
        (["data"; "a.mkv"], File "AAAA"); (["data"; "b.mkv"], File "BBBB");
        (["data"; "a.mkv.transcode.lock"], File "");
        (["work"; "transcode_list.txt"], File ("b.mkv" +:+ newline))];
     cwd := "/work"; trace := [] |}.

Definition at_job (job : string) : worker_local :=
  {| pc := WJob job (Some (lock_path_of job)); processed_local := 0 |}.

(** C7: a claimed job whose codec is not in the inefficient set ends as a
    success without any change: the pipeline only runs the probe and
    returns [True]; the worker goes straight to releasing the marker, so
    nothing is appended to the failure log, and after the release the
    world differs from the one before by the probe and the release
    alone. *)
Theorem C7_efficient_codec_is_skipped
  (cfg : config) (o o' : outcomes) (l : worker_local) (s : shared)
  (job out : string) (lock : option string) :
  pc l = WJob job lock →
  isfile (sh_world s) job = true →
  on_probe o = ProbeExit0 out →
  nonempty (lower (strip out)) = true →
  lower (strip out) ∉ inefficient_codecs →
  let w := sh_world s in
  let r1 := worker_step cfg o l s in
  let r2 := worker_step cfg o' r1.1 r1.2 in
  transcode_file (on_probe o) (on_encode o) job w
    = (Ok true, extend w (files w) [EvProbe job])
  ∧ pc r1.1 = WFinally lock None
  ∧ files (sh_world r1.2) = files w
  ∧ trace (sh_world r1.2) = trace w ++ [EvProbe job]
  ∧ pc r2.1 = WTop
  ∧ sh_world r2.2 = (release_item_lock lock (extend w (files w) [EvProbe job])).2
  ∧ log_text cfg (sh_world r1.2) = log_text cfg w.
Proof.
  intros Hpc Hf Hpo Hne Hnot w r1 r2.
  pose proof (transcode_file_skips _ (on_encode o) _ _ _ Hf Hpo Hne Hnot) as Ht.
  fold w in Ht. split; [exact Ht |].
  assert (r1 = (goto l (WFinally lock None),
                {| sh_world := extend w (files w) [EvProbe job];
                   global_counter := global_counter s |})) as Hr1.
  { unfold r1, worker_step. rewrite Hpc. fold w. by rewrite Ht. }
  rewrite Hr1. simpl. repeat split; try done.
  - unfold r2. rewrite Hr1. unfold worker_step. simpl.
    pose proof (release_item_lock_ok lock (extend w (files w) [EvProbe job])) as Hok.
    destruct (release_item_lock lock _) as [[[]|e] w2]; simpl in *; done.
  - unfold r2. rewrite Hr1. unfold worker_step. simpl.
    pose proof (release_item_lock_ok lock (extend w (files w) [EvProbe job])) as Hok.
    destruct (release_item_lock lock _) as [[[]|e] w2]; simpl in *; done.
Qed.

(** A file whose probe answers "hevc" is skipped. *)
Lemma C7_efficient_codec_is_skipped_witness :
  transcode_file (ProbeExit0 "hevc") EncodeSpawnError "/data/a.mkv" world_two_jobs
  = (Ok true, extend world_two_jobs (files world_two_jobs) [EvProbe "/data/a.mkv"]).
Proof.
  refine (proj1 (C7_efficient_codec_is_skipped sample_config
            {| on_probe := ProbeExit0 "hevc"; on_encode := EncodeSpawnError |}
            {| on_probe := ProbeNonZero; on_encode := EncodeSpawnError |}
            (at_job "/data/a.mkv")
            {| sh_world := world_two_jobs; global_counter := 0 |}
            "/data/a.mkv" "hevc" _ eq_refl eq_refl eq_refl eq_refl _)).
  vm_compute. intros H. discriminate H.
Defined.

(** C10: when the path of a claimed job is not an existing regular file,
    the pipeline returns [False] at once: no probe is run and no file is
    touched; the worker then appends the job's path, relative to the base
    directory, to the failure log. *)
Theorem C10_missing_file_fails_and_is_logged
  (cfg : config) (o o' : outcomes) (l : worker_local) (s : shared)
  (job : string) (lock : option string) :
  pc l = WJob job lock →
  isfile (sh_world s) job = false →
  log_appendable cfg (sh_world s) = true →
  let w := sh_world s in
  let r1 := worker_step cfg o l s in
  let r2 := worker_step cfg o' r1.1 r1.2 in
  transcode_file (on_probe o) (on_encode o) job w = (Ok false, w)
  ∧ pc r1.1 = WLog job lock
  ∧ sh_world r1.2 = w
  ∧ pc r2.1 = WFinally lock None
  ∧ files (sh_world r2.2) =
      <[log_key cfg w := File (log_text cfg w +:+ failure_rel cfg job +:+ newline)]> (files w)
  ∧ trace (sh_world r2.2) =
      trace w ++ [EvAppend (log_key cfg w) (failure_rel cfg job +:+ newline)].
Proof.
  intros Hpc Hf Hlog w r1 r2.
  pose proof (transcode_file_not_a_file (on_probe o) (on_encode o) _ _ Hf) as Ht.
  fold w in Ht. split; [exact Ht |].
  assert (r1 = (goto l (WLog job lock), s)) as Hr1.
  { unfold r1, worker_step. rewrite Hpc. fold w. rewrite Ht. by destruct s. }
  rewrite Hr1. simpl. split; [done |]. split; [done |].
  unfold r2. rewrite Hr1. unfold worker_step. simpl. fold w.
  rewrite (log_failure_appends cfg _ w Hlog). done.
Qed.

(** A listed file that does not exist: "missing.mkv" ends in the log. *)
Lemma C10_missing_file_fails_and_is_logged_witness :
  isfile world_two_jobs "/data/missing.mkv" = false
  ∧ log_appendable sample_config world_two_jobs = true
  ∧ transcode_file ProbeNonZero EncodeSpawnError "/data/missing.mkv" world_two_jobs
    = (Ok false, world_two_jobs).
Proof.
  split; [reflexivity |]. split; [reflexivity |].
  exact (proj1 (C10_missing_file_fails_and_is_logged sample_config
            {| on_probe := ProbeNonZero; on_encode := EncodeSpawnError |}
            {| on_probe := ProbeNonZero; on_encode := EncodeSpawnError |}
            (at_job "/data/missing.mkv")
            {| sh_world := world_two_jobs; global_counter := 0 |}
            "/data/missing.mkv" _ eq_refl eq_refl eq_refl)).
Defined.

(* ===================================================================== *)
(** * Normalised path names                                               *)
(* ===================================================================== *)

(** A component the kernel keeps: a name, not "", "." or "..". *)
Definition clean_comp (z : string) : Prop :=
  nonempty z = true ∧ (z =? ".")%string = false ∧ (z =? "..")%string = false
  ∧ free_of slash z = true.

(** The normalised absolute name of the file with components [K]. *)
Definition canon (lead : string) (K : list string) : string :=
  lead +:+ Str.join sep K.

Definition is_lead (lead : string) : Prop := lead = sep ∨ lead = sep +:+ sep.

(** [k1/k2/.../] *)
Fixpoint slashed (K : list string) : string :=
  match K with
  | [] => EmptyString
  | k :: r => k +:+ sep +:+ slashed r
  end.

Section PathFacts.

Lemma split_app_sep c a b :
  split c (a +:+ String c b) = split c a ++ split c b.
Proof.
  induction a as [|x a IH]; simpl.
  - by rewrite Ascii.eqb_refl.
  - destruct (Ascii.eqb x c); [by rewrite IH |].
    rewrite IH. pose proof (split_nonnil c a) as Hn.
    by destruct (split c a).
Qed.

Lemma split_comps_free c s : Forall (λ x, free_of c x = true) (split c s).
Proof.
  induction s as [|a s IH]; simpl; [by constructor |].
  destruct (Ascii.eqb a c) eqn:E; [by constructor |].
  destruct (split c s) as [|y ys]; [by constructor; [simpl; rewrite E|] |].
  inversion IH; subst. constructor; [|done]. simpl. by rewrite E.
Qed.

Lemma split_join K :
  Forall (λ x, free_of slash x = true) K → K ≠ [] →
  split slash (Str.join sep K) = K.
Proof.
  induction 1 as [|x K Hx HK IH]; [done |]. intros _.
  destruct K as [|y K'].
  - simpl. by apply split_free.
  - change (Str.join sep (x :: y :: K')) with (x +:+ String slash (Str.join sep (y :: K'))).
    rewrite split_app_sep, IH by done. by rewrite split_free.
Qed.

Lemma norm_loop_clean K : ∀ acc,
  Forall clean_comp K → norm_loop true K acc = rev K ++ acc.
Proof.
  induction K as [|x K IH]; intros acc HK; [done |].
  inversion HK as [|? ? (Hne & Hd & Hdd & _) HK']; subst. simpl.
  destruct x as [|a x']; [done |]. rewrite Hd, Hdd. simpl.
  rewrite IH by done. by rewrite <- app_assoc.
Qed.

Lemma norm_loop_snoc x pre : ∀ acc,
  clean_comp x → norm_loop true (pre ++ [x]) acc = x :: norm_loop true pre acc.
Proof.
  intros acc (Hne & Hd & Hdd & _). revert acc.
  induction pre as [|a pre IH]; intros acc; simpl.
  - destruct x as [|b x']; [done |]. by rewrite Hd, Hdd.
  - destruct ((a =? "")%string || (a =? ".")%string); [apply IH |].
    destruct (negb (a =? "..")%string || _ || _); [apply IH |].
    destruct acc; apply IH.
Qed.

Lemma norm_loop_keeps_clean comps : ∀ acc,
  Forall (λ x, free_of slash x = true) comps →
  Forall clean_comp acc →
  Forall clean_comp (norm_loop true comps acc).
Proof.
  induction comps as [|a comps IH]; intros acc Hc Hacc; [done |].
  inversion Hc as [|? ? Ha Hc']; subst. simpl.
  destruct (a =? "")%string eqn:E1; [by apply IH |].
  destruct (a =? ".")%string eqn:E2; [by apply IH |]. simpl.
  destruct (a =? "..")%string eqn:E3; simpl.
  - destruct acc as [|top acc'].
    + by apply IH.
    + inversion Hacc as [|? ? (_ & _ & Htop & _) Hacc']; subst. rewrite Htop.
      by apply IH.
  - apply IH; [done |]. constructor; [|done].
    split; [|done]. by destruct a.
Qed.

Lemma key_of_clean cwd p : Forall clean_comp (key_of cwd p).
Proof.
  unfold key_of. apply Forall_rev, norm_loop_keeps_clean; [|constructor].
  apply split_comps_free.
Qed.

Lemma clean_comp_free K :
  Forall clean_comp K → Forall (λ x, free_of slash x = true) K.
Proof. intros H. eapply Forall_impl; [exact H |]. by intros x (_ & _ & _ & Hx). Qed.

Lemma isabs_canon lead K : is_lead lead → isabs (canon lead K) = true.
Proof. intros [-> | ->]; reflexivity. Qed.

(** A normalised name denotes the file with its components. *)
Lemma key_of_canon cwd lead K :
  is_lead lead → Forall clean_comp K → key_of cwd (canon lead K) = K.
Proof.
  intros Hlead HK. unfold key_of. rewrite isabs_canon by done.
  assert (norm_loop true (split slash (Str.join sep K)) [] = rev K) as Hn.
  { destruct K as [|x K'] eqn:EK; [done |].
    rewrite split_join; [| by apply clean_comp_free | done].
    rewrite norm_loop_clean by done. by rewrite app_nil_r. }
  unfold canon. destruct Hlead as [-> | ->]; simpl; rewrite Hn; by rewrite rev_involutive.
Qed.

Lemma last_split_canon lead x K0 :
  is_lead lead → Forall clean_comp (K0 ++ [x]) →
  List.last (split slash (canon lead (K0 ++ [x]))) EmptyString = x.
Proof.
  intros Hlead HK. unfold canon.
  assert (split slash (Str.join sep (K0 ++ [x])) = K0 ++ [x]) as Hs.
  { apply split_join; [by apply clean_comp_free | by destruct K0]. }
  destruct Hlead as [-> | ->]; simpl; rewrite Hs.
  - destruct (K0 ++ [x]) eqn:E; [by destruct K0 |]. rewrite <- E. apply last_last.
  - destruct (K0 ++ [x]) eqn:E; [by destruct K0 |]. rewrite <- E.
    change (List.last ("" :: K0 ++ [x]) "") with (List.last (("" :: K0) ++ [x]) "").
    apply last_last.
Qed.

Lemma dir_required_canon lead x K0 :
  is_lead lead → Forall clean_comp (K0 ++ [x]) →
  dir_required (canon lead (K0 ++ [x])) = false.
Proof.
  intros Hlead HK. unfold dir_required. rewrite last_split_canon by done.
  apply Forall_app in HK as [_ Hx]. inversion Hx as [|? ? (Hne & Hd & Hdd & _) _]; subst.
  rewrite Hd, Hdd. by destruct x.
Qed.

Lemma nonempty_canon lead K : is_lead lead → nonempty (canon lead K) = true.
Proof. intros [-> | ->]; reflexivity. Qed.

End PathFacts.

Section AbsPath.

Lemma list_last_app {A} (l1 l2 : list A) (d : A) :
  l2 ≠ [] → List.last (l1 ++ l2) d = List.last l2 d.
Proof.
  intros Hn. destruct l2 as [|y ys] using rev_ind; [done |].
  by rewrite app_assoc, !last_last.
Qed.

Lemma ends_with_char_snoc s c :
  ends_with_char s c = true → ∃ s', s = s' +:+ String c "".
Proof.
  induction s as [|a s IH]; simpl; [done |].
  destruct s as [|b s'].
  - intros ->%Ascii.eqb_eq. by exists "".
  - intros H. destruct (IH H) as [s'' ->]. by exists (String a s'').
Qed.

Lemma startswith_sep_cases p :
  (startswith p sep = true ∧ ∃ p', p = String slash p')
  ∨ (startswith p sep = false).
Proof.
  destruct p as [|a p']; [by right |]. simpl.
  destruct (Ascii.eqb a slash) eqn:E; [|by right].
  left. apply Ascii.eqb_eq in E as ->. split; [done | by eexists].
Qed.

Lemma isabs_join2 cwd p : isabs cwd = true → isabs (join2 cwd p) = true.
Proof.
  unfold isabs, join2. intros Hc.
  destruct (startswith p sep) eqn:Hp; [done |].
  destruct cwd as [|a cwd']; [done |]. simpl in Hc.
  destruct (negb (nonempty (String a cwd')) || _); simpl; exact Hc.
Qed.

(** The path name the kernel walks for [p]. *)
Definition walked (cwd p : string) : string :=
  if isabs p then p else join2 cwd p.

Lemma isabs_walked cwd p : isabs cwd = true → nonempty p = true → isabs (walked cwd p) = true.
Proof.
  intros Hc Hp. unfold walked. destruct (isabs p) eqn:E; [done |].
  by apply isabs_join2.
Qed.

Lemma last_split_walked cwd p :
  nonempty p = true →
  List.last (split slash (walked cwd p)) EmptyString
  = List.last (split slash p) EmptyString.
Proof.
  intros Hp. unfold walked. destruct (isabs p) eqn:E; [done |].
  unfold join2. unfold isabs in E. rewrite E.
  pose proof (split_nonnil slash p) as Hn.
  destruct (negb (nonempty cwd) || ends_with_char cwd slash) eqn:Hc.
  - apply orb_prop in Hc as [Hc|Hc].
    + by destruct cwd.
    + apply ends_with_char_snoc in Hc as [c' ->].
      rewrite append_assoc. simpl. rewrite split_app_sep.
      by apply list_last_app.
  - unfold sep. simpl. rewrite split_app_sep. by apply list_last_app.
Qed.

Lemma clean_last_comp p :
  dir_required p = false → clean_comp (List.last (split slash p) EmptyString).
Proof.
  unfold dir_required. intros H.
  apply orb_false_elim in H as [H H3]. apply orb_false_elim in H as [H1 H2].
  split; [by destruct (List.last _ _) |]. split; [done |]. split; [done |].
  pose proof (split_comps_free slash p) as Hf.
  pose proof (split_nonnil slash p) as Hn.
  destruct (split slash p) as [|y ys] using rev_ind; [done |].
  rewrite last_last. apply Forall_app in Hf as [_ Hf]. by inversion Hf.
Qed.

(** A name that needs no directory denotes a file whose last component is
    the last component of the name. *)
Lemma key_of_last cwd p :
  nonempty p = true → dir_required p = false →
  ∃ K0, key_of cwd p = K0 ++ [List.last (split slash p) EmptyString].
Proof.
  intros Hp Hd. unfold key_of. fold (walked cwd p).
  pose proof (last_split_walked cwd p Hp) as Hl.
  pose proof (split_nonnil slash (walked cwd p)) as Hn.
  destruct (split slash (walked cwd p)) as [|y ys] using rev_ind; [done |].
  rewrite last_last in Hl. subst y.
  rewrite norm_loop_snoc by by apply clean_last_comp.
  simpl. by eexists.
Qed.

(** [normpath] of an absolute name is the normalised name of its file. *)
Lemma normpath_absolute s :
  isabs s = true →
  ∃ lead, is_lead lead
          ∧ normpath s = canon lead (rev (norm_loop true (split slash s) [])).
Proof.
  intros Hs. unfold normpath, initial_slashes. unfold isabs in Hs. rewrite Hs.
  destruct s as [|a s']; [done |]. cbn [nonempty negb].
  set (K := rev (norm_loop _ _ _)).
  destruct (startswith (String a s') (sep +:+ sep) && _) eqn:E.
  - exists (sep +:+ sep). split; [by right |]. done.
  - exists sep. split; [by left |]. done.
Qed.

Lemma abspath_canon cwd p :
  isabs cwd = true → nonempty p = true →
  ∃ lead, is_lead lead ∧ abspath cwd p = canon lead (key_of cwd p).
Proof.
  intros Hc Hp. unfold abspath, key_of. fold (walked cwd p).
  apply normpath_absolute. by apply isabs_walked.
Qed.

End AbsPath.

Section Siblings.

Lemma join_snoc_app K0 x t :
  Str.join sep (K0 ++ [x]) +:+ t = Str.join sep (K0 ++ [x +:+ t]).
Proof.
  induction K0 as [|k K0 IH]; [done |].
  change ((k :: K0) ++ [x]) with (k :: (K0 ++ [x])).
  change ((k :: K0) ++ [x +:+ t]) with (k :: (K0 ++ [x +:+ t])).
  destruct (K0 ++ [x]) as [|y ys] eqn:E1; [by destruct K0 |].
  destruct (K0 ++ [x +:+ t]) as [|z zs] eqn:E2; [by destruct K0 |].
  change (Str.join sep (k :: y :: ys)) with (k +:+ sep +:+ Str.join sep (y :: ys)).
  change (Str.join sep (k :: z :: zs)) with (k +:+ sep +:+ Str.join sep (z :: zs)).
  by rewrite !append_assoc, IH.
Qed.

Lemma canon_snoc_app lead K0 x t :
  canon lead (K0 ++ [x]) +:+ t = canon lead (K0 ++ [x +:+ t]).
Proof. unfold canon. by rewrite append_assoc, join_snoc_app. Qed.

Lemma join_snoc K0 x : Str.join sep (K0 ++ [x]) = slashed K0 +:+ x.
Proof.
  induction K0 as [|k K0 IH]; [done |].
  change ((k :: K0) ++ [x]) with (k :: (K0 ++ [x])).
  destruct (K0 ++ [x]) as [|y ys] eqn:E1; [by destruct K0 |].
  change (Str.join sep (k :: y :: ys)) with (k +:+ sep +:+ Str.join sep (y :: ys)).
  rewrite IH. simpl. by rewrite !append_assoc.
Qed.

Lemma rfind1_free c x : free_of c x = true → rfind1 c x = 0.
Proof.
  induction x as [|a x IH]; simpl; [done |].
  intros [Ha Hx]%andb_prop. rewrite IH by done.
  apply negb_true_iff in Ha. by rewrite Ha.
Qed.

Lemma rfind1_after_sep c h x :
  free_of c x = true →
  rfind1 c ((h +:+ String c "") +:+ x) = S (String.length h).
Proof.
  intros Hx. induction h as [|a h IH]; simpl.
  - by rewrite rfind1_free, Ascii.eqb_refl.
  - by rewrite IH.
Qed.

Lemma slice_from_app h x : slice_from (String.length h) (h +:+ x) = x.
Proof. induction h as [|a h IH]; simpl; [by destruct x | done]. Qed.

Lemma slice_to_app h x : slice_to (String.length h) (h +:+ x) = h.
Proof. induction h as [|a h IH]; simpl; [by destruct x | by rewrite IH]. Qed.

Lemma length_snoc h c : String.length (h +:+ String c "") = S (String.length h).
Proof. rewrite length_append. simpl. lia. Qed.

(** The part of a normalised name before its last component ends in a
    slash. *)
Lemma head_ends_in_sep lead K0 :
  is_lead lead → ∃ h, lead +:+ slashed K0 = h +:+ String slash "".
Proof.
  intros Hlead. induction K0 as [|k K0 IH] using rev_ind.
  - destruct Hlead as [-> | ->]; [by exists "" | by exists sep].
  - exists (lead +:+ slashed K0 +:+ k).
    assert (∀ K, slashed (K ++ [k]) = slashed K +:+ k +:+ sep) as Hs.
    { induction K as [|z K IHK]; simpl; [done |]. by rewrite IHK, !append_assoc. }
    rewrite Hs. by rewrite !append_assoc.
Qed.

Lemma basename_canon lead K0 x :
  is_lead lead → free_of slash x = true →
  basename (canon lead (K0 ++ [x])) = x.
Proof.
  intros Hlead Hx. unfold basename, canon. rewrite join_snoc, <- append_assoc.
  destruct (head_ends_in_sep lead K0 Hlead) as [h ->].
  rewrite rfind1_after_sep by done. rewrite <- (length_snoc h slash).
  apply slice_from_app.
Qed.

Lemma head_canon lead K0 x :
  is_lead lead → free_of slash x = true →
  slice_to (rfind1 slash (canon lead (K0 ++ [x]))) (canon lead (K0 ++ [x]))
  = lead +:+ slashed K0.
Proof.
  intros Hlead Hx. unfold canon. rewrite join_snoc, <- append_assoc.
  destruct (head_ends_in_sep lead K0 Hlead) as [h Hh]. rewrite Hh.
  rewrite rfind1_after_sep by done. rewrite <- (length_snoc h slash).
  apply slice_to_app.
Qed.

Lemma nonempty_snoc z c :
  nonempty z = true → free_of c z = true →
  ∃ z' a, z = z' +:+ String a "" ∧ Ascii.eqb a c = false.
Proof.
  induction z as [|b z IH]; [done |]. intros _ [Hb Hz]%andb_prop.
  destruct z as [|b' z'].
  - exists "", b. split; [done |]. by apply negb_true_iff.
  - destruct (IH eq_refl Hz) as (z'' & a & -> & Ha).
    exists (String b z''), a. done.
Qed.

Lemma all_slashes_app s t : all_slashes (s +:+ t) = all_slashes s && all_slashes t.
Proof.
  induction s as [|a s IH]; simpl; [done |]. by rewrite IH, andb_assoc.
Qed.

Lemma all_slashes_clean z : clean_comp z → all_slashes z = false.
Proof.
  intros (Hne & _ & _ & Hf). destruct z as [|a z]; [done |]. simpl in *.
  apply andb_prop in Hf as [Ha _]. apply negb_true_iff in Ha. by rewrite Ha.
Qed.

Lemma slashed_snoc K k : slashed (K ++ [k]) = Str.join sep (K ++ [k]) +:+ sep.
Proof.
  induction K as [|z K IH]; simpl; [done |].
  rewrite IH. destruct (K ++ [k]) eqn:E; [by destruct K |].
  by rewrite !append_assoc.
Qed.

(** [dirname] of a normalised name is the normalised name of the
    directory, and joining a name to it gives a sibling. *)
Lemma sibling_canon lead K0 x y :
  is_lead lead → Forall clean_comp (K0 ++ [x]) →
  startswith y sep = false →
  join2 (dirname (canon lead (K0 ++ [x]))) y = canon lead (K0 ++ [y]).
Proof.
  intros Hlead HK Hy.
  apply Forall_app in HK as [HK0 Hx]. inversion Hx as [|? ? Hxc _]; subst.
  unfold dirname. rewrite head_canon by (done || by destruct Hxc as (_ & _ & _ & ?)).
  unfold join2. rewrite Hy.
  destruct K0 as [|k K0'] using rev_ind.
  - destruct Hlead as [-> | ->]; reflexivity.
  - clear IHK0'. rewrite slashed_snoc.
    apply Forall_app in HK0 as [_ Hk]. inversion Hk as [|? ? Hkc _]; subst.
    assert (nonempty (lead +:+ Str.join sep (K0' ++ [k]) +:+ sep) = true) as ->.
    { by destruct Hlead as [-> | ->]. }
    assert (all_slashes (lead +:+ Str.join sep (K0' ++ [k]) +:+ sep) = false) as ->.
    { rewrite all_slashes_app, all_slashes_app, join_snoc, all_slashes_app.
      rewrite (all_slashes_clean k) by done.
      by rewrite andb_false_r, andb_false_l, andb_false_r. }
    cbn [negb andb].
    destruct Hkc as (Hkne & _ & _ & Hkf).
    destruct (nonempty_snoc k slash Hkne Hkf) as (k' & a & -> & Ha).
    assert (lead +:+ Str.join sep (K0' ++ [k' +:+ String a ""]) +:+ sep
            = (lead +:+ slashed K0' +:+ k' +:+ String a "") +:+ String slash "") as ->.
    { rewrite join_snoc. by rewrite !append_assoc. }
    unfold rstrip_chars.
    rewrite rstrip_by_snoc_strip by done.
    assert (lead +:+ slashed K0' +:+ k' +:+ String a ""
            = (lead +:+ slashed K0' +:+ k') +:+ String a "") as ->
      by by rewrite !append_assoc.
    rewrite rstrip_by_snoc_keep
      by (change (in_chars sep a) with (Ascii.eqb slash a || false);
          by rewrite Ascii.eqb_sym, Ha).
    assert (nonempty ((lead +:+ slashed K0' +:+ k') +:+ String a "") = true) as ->.
    { by destruct Hlead as [-> | ->]. }
    assert (ends_with_char ((lead +:+ slashed K0' +:+ k') +:+ String a "") slash = false) as ->.
    { generalize (lead +:+ slashed K0' +:+ k'). intros s.
      induction s as [|b s IH]; simpl; [done |].
      destruct (s +:+ String a "") eqn:E; [by destruct s | done]. }
    cbn [negb orb]. unfold canon.
    rewrite (join_snoc (K0' ++ [k' +:+ String a ""]) y), slashed_snoc, join_snoc.
    by rewrite !append_assoc.
Qed.

End Siblings.

(* ===================================================================== *)
(** * The pipeline from the backup rename on                              *)
(* ===================================================================== *)

(** Lines 141-145: the names the pipeline works with. *)
Definition backup_of (cwd p : string) : string := abspath cwd p +:+ ".old".
Definition temp_of (cwd p : string) : string :=
  join2 (dirname (abspath cwd p)) ("." +:+ basename (abspath cwd p) +:+ ".tmp.mkv").

(** The files after the encoder ran. *)
Definition encoded_files (v : world) (out : option string) (dst : string)
  : gmap (list string) node :=
  match out with
  | Some d => if writable v dst then <[key_of (cwd v) dst := File d]> (files v)
              else files v
  | None => files v
  end.

Section PipelineFacts.

Lemma run_ffmpeg_exit status out src dst v :
  run_ffmpeg (EncodeExit status out) src dst v =
    (if status then Ok tt else Raise CalledProcessError,
     extend v (encoded_files v out dst) [EvEncode src dst]).
Proof.
  unfold run_ffmpeg, encoded_files. destruct out as [d|]; [|done].
  by destruct (writable v dst).
Qed.

(** Renaming a regular file within one directory tree. *)
Lemma os_rename_file src dst c v :
  nonempty src = true → nonempty dst = true →
  dir_required src = false → dir_required dst = false →
  files v !! key_of (cwd v) src = Some (File c) →
  key_of (cwd v) src ≠ key_of (cwd v) dst →
  os_rename src dst v =
    match check_parent v (key_of (cwd v) dst) with
    | Some e => (Raise e, v)
    | None =>
        match files v !! key_of (cwd v) dst with
        | Some Dir => (Raise IsADirectoryError, v)
        | _ => (Ok tt, extend v (<[key_of (cwd v) dst := File c]>
                                   (delete (key_of (cwd v) src) (files v)))
                         [EvRename (key_of (cwd v) src) (key_of (cwd v) dst)])
        end
    end.
Proof.
  intros Hs Hd Hrs Hrd Hf Hne. unfold os_rename.
  rewrite Hs, Hd, Hf, Hrs, Hrd. simpl.
  destruct (check_parent v _); [done |].
  destruct (files v !! key_of (cwd v) dst) as [[c'|]|]; try done;
    by rewrite bool_decide_eq_false_2.
Qed.

Lemma os_remove_file p c v :
  nonempty p = true → dir_required p = false →
  files v !! key_of (cwd v) p = Some (File c) →
  os_remove p v = (Ok tt, extend v (delete (key_of (cwd v) p) (files v))
                            [EvRemove (key_of (cwd v) p)]).
Proof. intros Hp Hd Hf. unfold os_remove. by rewrite Hp, Hf, Hd. Qed.

Lemma os_remove_dir p v :
  files v !! key_of (cwd v) p = Some Dir →
  ∃ e, os_remove p v = (Raise e, v).
Proof.
  intros Hf. unfold os_remove. destruct (nonempty p); simpl; [|by eexists].
  rewrite Hf. by eexists.
Qed.

Lemma stat_plain p v :
  nonempty p = true → dir_required p = false →
  stat v p = files v !! key_of (cwd v) p.
Proof.
  intros Hp Hd. unfold stat. rewrite Hp, Hd. simpl.
  by destruct (files v !! _) as [[c|]|].
Qed.

Lemma stat_file_inv p c v :
  stat v p = Some (File c) →
  nonempty p = true ∧ dir_required p = false
  ∧ files v !! key_of (cwd v) p = Some (File c).
Proof.
  unfold stat. destruct (nonempty p); simpl; [|done].
  destruct (files v !! _) as [[c'|]|]; [|done|done].
  destruct (dir_required p); [done |]. by intros [= ->].
Qed.

Lemma clean_comp_suffix x t :
  clean_comp x → free_of slash t = true → 0 < String.length t →
  clean_comp (x +:+ t).
Proof.
  intros (Hne & Hd & Hdd & Hf) Ht Hl.
  assert (0 < String.length x) by (destruct x; [done | simpl; lia]).
  split; [by destruct x |].
  split; [| split].
  - destruct (String.length x + String.length t =? 1) eqn:E.
    + apply Nat.eqb_eq in E. lia.
    + apply eqb_false_length. rewrite length_append. simpl.
      apply Nat.eqb_neq in E. lia.
  - destruct (decide (String.length (x +:+ t) = 2)) as [E|E].
    + rewrite length_append in E.
      assert (String.length x = 1 ∧ String.length t = 1) as [Hx1 Ht1] by lia.
      destruct x as [|a [|b x']]; try done.
      destruct t as [|a' [|b' t']]; try done. simpl in *.
      destruct (Ascii.eqb a ".") eqn:Ea; [|done].
      apply Ascii.eqb_eq in Ea. subst a. done.
    + by apply eqb_false_length.
  - by rewrite free_of_app, Hf, Ht.
Qed.

Lemma clean_comp_temp x : clean_comp x → clean_comp ("." +:+ x +:+ ".tmp.mkv").
Proof.
  intros (Hne & Hd & Hdd & Hf).
  split; [done |]. split; [| split].
  - apply eqb_false_length. simpl. rewrite length_append. simpl. lia.
  - apply eqb_false_length. simpl. rewrite length_append. simpl. lia.
  - simpl. by rewrite free_of_app, Hf.
Qed.

(** The three names of a job that is a regular file, and the files they
    denote: siblings in one directory. *)
Lemma pipeline_names w p c :
  isabs (cwd w) = true → stat w p = Some (File c) →
  ∃ lead K0 x,
    is_lead lead ∧ Forall clean_comp K0 ∧ clean_comp x
    ∧ key_of (cwd w) p = K0 ++ [x]
    ∧ abspath (cwd w) p = canon lead (K0 ++ [x])
    ∧ backup_of (cwd w) p = canon lead (K0 ++ [x +:+ ".old"])
    ∧ temp_of (cwd w) p = canon lead (K0 ++ ["." +:+ x +:+ ".tmp.mkv"]).
Proof.
  intros Hc Hst. destruct (stat_file_inv _ _ _ Hst) as (Hp & Hd & Hf).
  destruct (key_of_last (cwd w) p Hp Hd) as [K0 HK].
  destruct (abspath_canon (cwd w) p Hc Hp) as (lead & Hlead & Habs).
  set (x := List.last (split slash p) EmptyString) in *.
  pose proof (key_of_clean (cwd w) p) as Hclean. rewrite HK in Hclean.
  pose proof Hclean as Hclean'.
  apply Forall_app in Hclean' as [HK0 Hx]. inversion Hx as [|? ? Hxc _]; subst.
  exists lead, K0, x. rewrite HK in Habs.
  split; [done |]. split; [done |]. split; [done |]. split; [done |].
  split; [done |]. split.
  - unfold backup_of. rewrite Habs. apply canon_snoc_app.
  - unfold temp_of. rewrite Habs.
    rewrite basename_canon by (done || by destruct Hxc as (_ & _ & _ & ?)).
    by apply sibling_canon.
Qed.

Lemma snoc_inj_ne {A} (K0 : list A) (x y : A) : x ≠ y → K0 ++ [x] ≠ K0 ++ [y].
Proof. intros Hne Heq. by apply app_inv_head in Heq as [= ->]. Qed.

Lemma parent_snoc (K0 : list string) x : parent (K0 ++ [x]) = K0.
Proof. apply removelast_last. Qed.

Lemma append_ne_self x t : 0 < String.length t → x ≠ x +:+ t.
Proof.
  intros Hl Heq. apply (f_equal String.length) in Heq.
  rewrite length_append in Heq. lia.
Qed.

End PipelineFacts.

Section Rollback.

Lemma check_parent_files v v' k :
  files v' !! parent k = files v !! parent k → check_parent v' k = check_parent v k.
Proof. unfold check_parent. by intros ->. Qed.

(** Lines 127-188 when the encoder exits with a non-zero status. *)
Lemma transcode_file_encode_fails w p c out eout :
  isabs (cwd w) = true →
  stat w p = Some (File c) →
  nonempty (lower (strip out)) = true →
  lower (strip out) ∈ inefficient_codecs →
  (os_rename (abspath (cwd w) p) (backup_of (cwd w) p) w).1 = Ok tt →
  let kO := key_of (cwd w) p in
  let kB := key_of (cwd w) (backup_of (cwd w) p) in
  let kT := key_of (cwd w) (temp_of (cwd w) p) in
  ∃ w' evs,
    transcode_file (ProbeExit0 out) (EncodeExit false eout) p w = (Ok false, w')
    ∧ cwd w' = cwd w
    ∧ files w' !! kO = Some (File c)
    ∧ files w' !! kB = None
    ∧ files w' !! kT = match files w !! kT with Some Dir => Some Dir | _ => None end
    ∧ (∀ k, k ≠ kO → k ≠ kB → k ≠ kT → files w' !! k = files w !! k)
    ∧ trace w' = trace w ++ [EvProbe p; EvRename kO kB;
                             EvEncode (backup_of (cwd w) p) (temp_of (cwd w) p);
                             EvRename kB kO] ++ evs
    ∧ (evs = [] ∨ evs = [EvRemove kT]).
Proof.
  intros Hcwd Hst Hne Hin Hren kO kB kT.
  destruct (pipeline_names w p c Hcwd Hst) as
    (lead & K0 & x & Hlead & HK0 & Hx & HkO & Habs & Hbak & Htmp).
  destruct (stat_file_inv _ _ _ Hst) as (Hp & Hd & Hf).
  assert (Forall clean_comp (K0 ++ [x])) as HcO by (apply Forall_app; split; [done | by apply Forall_singleton]).
  assert (clean_comp (x +:+ ".old")) as HxB by (apply clean_comp_suffix; [done | done | simpl; lia]).
  assert (clean_comp ("." +:+ x +:+ ".tmp.mkv")) as HxT by by apply clean_comp_temp.
  assert (Forall clean_comp (K0 ++ [x +:+ ".old"])) as HcB by (apply Forall_app; split; [done | by apply Forall_singleton]).
  assert (Forall clean_comp (K0 ++ ["." +:+ x +:+ ".tmp.mkv"])) as HcT
    by (apply Forall_app; split; [done | by apply Forall_singleton]).
  assert (kO = K0 ++ [x]) as EO by done.
  assert (kB = K0 ++ [x +:+ ".old"]) as EB.
  { unfold kB. rewrite Hbak. by apply key_of_canon. }
  assert (kT = K0 ++ ["." +:+ x +:+ ".tmp.mkv"]) as ET.
  { unfold kT. rewrite Htmp. by apply key_of_canon. }
  assert (key_of (cwd w) (abspath (cwd w) p) = kO) as EA.
  { rewrite Habs, EO. by apply key_of_canon. }
  assert (kO ≠ kB) as HOB.
  { rewrite EO, EB. apply snoc_inj_ne, append_ne_self. simpl. lia. }
  assert (kO ≠ kT) as HOT.
  { rewrite EO, ET. apply snoc_inj_ne. intros Heq.
    apply (f_equal String.length) in Heq. simpl in Heq.
    rewrite length_append in Heq. simpl in Heq. lia. }
  assert (kB ≠ kT) as HBT.
  { rewrite EB, ET. apply snoc_inj_ne. intros Heq.
    apply (f_equal String.length) in Heq. simpl in Heq.
    rewrite !length_append in Heq. simpl in Heq. lia. }
  assert (parent kO = K0 ∧ parent kB = K0 ∧ parent kT = K0) as (PO & PB & PT).
  { rewrite EO, EB, ET. by rewrite !parent_snoc. }
  assert (K0 ≠ kO ∧ K0 ≠ kB ∧ K0 ≠ kT) as (HKO & HKB & HKT).
  { rewrite EO, EB, ET. repeat split; intros Heq;
      apply (f_equal length) in Heq; rewrite length_app in Heq; simpl in Heq; lia. }
  assert (nonempty (abspath (cwd w) p) = true ∧ dir_required (abspath (cwd w) p) = false)
    as [NA DA].
  { rewrite Habs. split; [by apply nonempty_canon | by apply dir_required_canon]. }
  assert (nonempty (backup_of (cwd w) p) = true ∧ dir_required (backup_of (cwd w) p) = false)
    as [NB DB].
  { rewrite Hbak. split; [by apply nonempty_canon | by apply dir_required_canon]. }
  assert (nonempty (temp_of (cwd w) p) = true ∧ dir_required (temp_of (cwd w) p) = false)
    as [NT DT].
  { rewrite Htmp. split; [by apply nonempty_canon | by apply dir_required_canon]. }
  (* the backup rename *)
  assert (files w !! key_of (cwd w) (abspath (cwd w) p) = Some (File c)) as HfA
    by by rewrite EA.
  assert (key_of (cwd w) (abspath (cwd w) p) ≠ key_of (cwd w) (backup_of (cwd w) p)) as HneAB
    by by rewrite EA.
  pose proof (os_rename_file _ _ c w NA NB DA DB HfA HneAB) as Hr1.
  rewrite EA in Hr1. fold kB in Hr1.
  rewrite Hr1 in Hren.
  destruct (check_parent w kB) as [e|] eqn:Hpar; [done |].
  assert (files w !! K0 = Some Dir) as HK0dir.
  { unfold check_parent in Hpar. rewrite PB in Hpar.
    by destruct (files w !! K0) as [[?|]|]. }
  assert (files w !! kB ≠ Some Dir) as HBnd.
  { intros HB. by rewrite HB in Hren. }
  clear Hr1 Hren.
  assert (isfile w p = true) as Hisf by (unfold isfile; by rewrite Hst).
  unfold transcode_file.
  rewrite bind_eq, os_path_isfile_eq, Hisf. norm.
  rewrite bind_eq, get_video_codec_exit0, Hne. norm.
  unfold truthy. rewrite Hne. norm. simpl default.
  rewrite bool_decide_eq_true_2 by done. norm.
  rewrite bind_eq, os_getcwd_eq. norm. cbv zeta.
  set (w1 := extend w (files w) [EvProbe p]).
  change (cwd w1) with (cwd w).
  fold (backup_of (cwd w) p). fold (temp_of (cwd w) p).
  (* line 151 *)
  pose proof (os_rename_file _ _ c w1 NA NB DA DB HfA HneAB) as Hr1.
  change (cwd w1) with (cwd w) in Hr1. rewrite EA in Hr1. fold kB in Hr1.
  change (check_parent w1 kB) with (check_parent w kB) in Hr1. rewrite Hpar in Hr1.
  change (files w1) with (files w) in Hr1.
  assert (os_rename (abspath (cwd w) p) (backup_of (cwd w) p) w1
          = (Ok tt, extend w1 (<[kB := File c]> (delete kO (files w))) [EvRename kO kB])) as Hr1'.
  { rewrite Hr1. by destruct (files w !! kB) as [[?|]|]. }
  clear Hr1.
  rewrite bind_eq, try_except_eq, bind_eq, Hr1', ret_eq. norm.
  unfold w1. rewrite extend_extend. simpl app.
  set (F2 := <[kB := File c]> (delete kO (files w))).
  set (w2 := extend w F2 _).
  (* line 169 *)
  rewrite try_except_eq, bind_eq, run_ffmpeg_exit. norm.
  set (F3 := encoded_files w2 eout (temp_of (cwd w) p)).
  unfold w2. rewrite extend_extend. simpl app.
  set (w3 := extend w F3 _).
  assert (∀ k, k ≠ kT → F3 !! k = F2 !! k) as HF3o.
  { intros k Hk. unfold F3, encoded_files. destruct eout as [d|]; [|done].
    destruct (writable w2 _); [|done]. simpl.
    change (key_of (cwd w) (temp_of (cwd w) p)) with kT. by rewrite lookup_insert_ne. }
  assert (F2 !! kT = files w !! kT) as HF2t.
  { unfold F2. rewrite lookup_insert_ne, lookup_delete_ne; done. }
  assert (F3 !! kT = Some Dir ↔ files w !! kT = Some Dir) as HF3t.
  { unfold F3, encoded_files. destruct eout as [d|]; [|by rewrite <- HF2t].
    unfold writable. rewrite NT, DT. simpl.
    change (key_of (cwd w) (temp_of (cwd w) p)) with kT.
    rewrite HF2t. unfold check_parent. simpl. rewrite PT.
    assert (F2 !! K0 = Some Dir) as ->.
    { unfold F2. rewrite lookup_insert_ne, lookup_delete_ne; done. }
    destruct (files w !! kT) as [[?|]|] eqn:E; simpl.
    - rewrite lookup_insert_eq. split; done.
    - by rewrite HF2t.
    - rewrite lookup_insert_eq. split; done. }
  (* lines 177-182 *)
  rewrite bind_eq, try_except_eq, bind_eq, os_path_exists_eq. norm.
  assert (F3 !! kB = Some (File c)) as HF3b.
  { rewrite HF3o by done. unfold F2. by rewrite lookup_insert_eq. }
  assert (path_exists w3 (backup_of (cwd w) p) = true) as ->.
  { unfold path_exists. rewrite stat_plain by done. simpl.
    change (key_of (cwd w) (backup_of (cwd w) p)) with kB. by rewrite HF3b. }
  assert (key_of (cwd w3) (backup_of (cwd w) p) ≠ key_of (cwd w3) (abspath (cwd w) p)) as HneBA.
  { simpl. rewrite EA. done. }
  assert (files w3 !! key_of (cwd w3) (backup_of (cwd w) p) = Some (File c)) as HfB by exact HF3b.
  pose proof (os_rename_file _ _ c w3 NB NA DB DA HfB HneBA) as Hr2.
  change (cwd w3) with (cwd w) in Hr2. rewrite EA in Hr2. fold kB in Hr2.
  assert (check_parent w3 kO = None) as HparO.
  { unfold check_parent. simpl. rewrite PO, HF3o by done.
    unfold F2. rewrite lookup_insert_ne, lookup_delete_ne by done. by rewrite HK0dir. }
  rewrite HparO in Hr2.
  assert (files w3 !! kO = None) as HF3none.
  { simpl. rewrite HF3o by done. unfold F2.
    rewrite lookup_insert_ne by done. apply lookup_delete_eq. }
  rewrite HF3none in Hr2. change (files w3) with F3 in Hr2.
  rewrite Hr2. norm. unfold w3. rewrite extend_extend. simpl app.
  set (F4 := <[kO := File c]> (delete kB F3)).
  set (w4 := extend w F4 _).
  (* lines 183-188 *)
  rewrite bind_eq, os_path_exists_eq. norm.
  assert (F4 !! kT = F3 !! kT) as HF4t.
  { unfold F4. rewrite lookup_insert_ne, lookup_delete_ne; done. }
  assert (∀ k, k ≠ kO → k ≠ kB → k ≠ kT → F4 !! k = files w !! k) as HF4o.
  { intros k H1 H2 H3. unfold F4. rewrite lookup_insert_ne, lookup_delete_ne by done.
    rewrite HF3o by done. unfold F2. rewrite lookup_insert_ne, lookup_delete_ne; done. }
  assert (stat w4 (temp_of (cwd w) p) = F3 !! kT) as Hst4.
  { rewrite stat_plain by done. simpl. exact HF4t. }
  unfold path_exists. rewrite Hst4.
  destruct (F3 !! kT) as [[d|]|] eqn:ET3.
  - (* a temporary file is there: it is removed *)
    assert (files w4 !! key_of (cwd w4) (temp_of (cwd w) p) = Some (File d)) as HfT
      by (simpl; fold kT; by rewrite HF4t).
    rewrite bind_eq, try_except_eq, (os_remove_file _ d w4 NT DT HfT). norm.
    rewrite ret_eq. change (key_of (cwd w4) (temp_of (cwd w) p)) with kT.
    unfold w4. rewrite extend_extend. simpl app.
    eexists _, [EvRemove kT]. split; [reflexivity |]. simpl.
    split; [done |]. split.
    { rewrite lookup_delete_ne by done. unfold F4. by rewrite lookup_insert_eq. }
    split.
    { rewrite lookup_delete_ne by done. unfold F4.
      rewrite lookup_insert_ne by done. apply lookup_delete_eq. }
    split.
    { rewrite lookup_delete_eq.
      destruct (files w !! kT) as [[?|]|] eqn:E; try done.
      exfalso. assert (Some (File d) = Some Dir) by by apply HF3t. done. }
    split; [|split; [done | by right]].
    intros k H1 H2 H3. rewrite lookup_delete_ne by done. by apply HF4o.
  - (* a directory has that name: it stays *)
    assert (files w4 !! key_of (cwd w4) (temp_of (cwd w) p) = Some Dir) as HfT
      by (simpl; fold kT; by rewrite HF4t).
    destruct (os_remove_dir _ w4 HfT) as [e He].
    rewrite bind_eq, try_except_eq, He. norm. rewrite ret_eq. norm. rewrite ret_eq.
    eexists _, []. split; [reflexivity |]. simpl.
    split; [done |]. split; [unfold F4; by rewrite lookup_insert_eq |].
    split; [unfold F4; rewrite lookup_insert_ne by done; apply lookup_delete_eq |].
    split; [rewrite HF4t; by rewrite (proj1 HF3t eq_refl) |].
    split; [done | split; [done | by left]].
  - rewrite bind_eq, ret_eq. norm. rewrite ret_eq.
    eexists _, []. split; [reflexivity |]. simpl.
    split; [done |]. split; [unfold F4; by rewrite lookup_insert_eq |].
    split; [unfold F4; rewrite lookup_insert_ne by done; apply lookup_delete_eq |].
    split.
    { rewrite HF4t. destruct (files w !! kT) as [[?|]|] eqn:E; try done.
      exfalso. assert (@None node = Some Dir) by by apply HF3t. done. }
    split; [done | split; [done | by left]].
Qed.

End Rollback.



(** C5, evaluated where the code breaks it: the encoder cannot be started
    ([subprocess.run] raises [OSError], which line 175 does not catch).
    The exception leaves [transcode_file], the worker releases the marker
    and ends; nothing is logged and the original stays under its backup
    name. *)
Lemma C5_uncaught_error_ends_the_worker :
  let o := {| on_probe := ProbeExit0 "h264"; on_encode := EncodeSpawnError |} in
  let s := {| sh_world := world_two_jobs; global_counter := 0 |} in
  let r1 := worker_step sample_config o (at_job "/data/a.mkv") s in
  let r2 := worker_step sample_config o r1.1 r1.2 in
  (transcode_file (on_probe o) (on_encode o) "/data/a.mkv" world_two_jobs).1 = Raise OSError
  ∧ pc r1.1 = WFinally (Some "/data/a.mkv.transcode.lock") (Some OSError)
  ∧ pc r2.1 = WCrashed OSError
  ∧ stat (sh_world r2.2) "/data/a.mkv" = None
  ∧ stat (sh_world r2.2) "/data/a.mkv.old" = Some (File "AAAA")
  ∧ stat (sh_world r2.2) (log_file sample_config) = None
  ∧ (transcode_file ProbeSpawnError (on_encode o) "/data/a.mkv" world_two_jobs).1
    = Raise OSError.
Proof. vm_compute. repeat split; reflexivity. Qed.

(* ===================================================================== *)
(** * What a call can change                                              *)
(* ===================================================================== *)

(** [k] lies below none of the files of [K]. *)
Definition outside (K : list (list string)) (k : list string) : Prop :=
  Forall (λ fk, ¬ fk `prefix_of` k) K.

(** A computation that, started in directory [cwd0], stays there and
    changes nothing outside [K]. *)
Definition framed {A} (cwd0 : string) (K : list (list string)) (m : M A) : Prop :=
  ∀ v, cwd v = cwd0 →
    cwd (m v).2 = cwd0
    ∧ ∀ k, outside K k → files (m v).2 !! k = files v !! k.

Section Frames.

Context (cwd0 : string) (K : list (list string)).

Lemma outside_ne k fk : outside K k → fk ∈ K → fk ≠ k.
Proof.
  intros Ho Hin ->. unfold outside in Ho. rewrite Forall_forall in Ho.
  by apply (Ho k Hin).
Qed.

Lemma framed_ret {A} (a : A) : framed cwd0 K (ret a).
Proof. by intros v Hv. Qed.

Lemma framed_raise {A} e : framed cwd0 K (@raise A e).
Proof. by intros v Hv. Qed.

Lemma framed_bind {A B} (m : M A) (k : A → M B) :
  framed cwd0 K m → (∀ a, framed cwd0 K (k a)) → framed cwd0 K (bind m k).
Proof.
  intros Hm Hk v Hv. rewrite bind_eq. destruct (Hm v Hv) as [Hc Hf].
  destruct (m v) as [[a|e] v1]; simpl in *; [|done].
  destruct (Hk a v1 Hc) as [Hc' Hf']. split; [done |].
  intros k0 Ho. by rewrite Hf', Hf.
Qed.

Lemma framed_try {A} (m h : M A) handled :
  framed cwd0 K m → framed cwd0 K h → framed cwd0 K (try_except m handled h).
Proof.
  intros Hm Hh v Hv. rewrite try_except_eq. destruct (Hm v Hv) as [Hc Hf].
  destruct (m v) as [[a|e] v1]; simpl in *; [done |].
  destruct (handled e); [|done].
  destruct (Hh v1 Hc) as [Hc' Hf']. split; [done |].
  intros k0 Ho. by rewrite Hf', Hf.
Qed.

Lemma framed_exists p : framed cwd0 K (os_path_exists p).
Proof. by intros v Hv. Qed.

Lemma move_tree_outside (ks kd : list string) (m : gmap (list string) node)
  (k : list string) :
  ¬ ks `prefix_of` k → ¬ kd `prefix_of` k → move_tree ks kd m !! k = m !! k.
Proof.
  intros Hs Hd. unfold move_tree. rewrite lookup_union_r.
  - rewrite map_lookup_filter. rewrite lookup_delete_ne by (by intros ->).
    destruct (m !! k) as [n|]; simpl; [|done]. by rewrite option_guard_True.
  - apply not_elem_of_list_to_map_1. intros Hin.
    apply list_elem_of_fmap in Hin as ([k' n'] & Hk & Hin). simpl in Hk.
    apply list_elem_of_In, in_map_iff in Hin as ([k'' n''] & Heq & _).
    simpl in Heq. injection Heq as <- <-. subst k.
    apply Hd. by apply prefix_app_r.
Qed.

Lemma framed_rename src dst :
  key_of cwd0 src ∈ K → key_of cwd0 dst ∈ K → framed cwd0 K (os_rename src dst).
Proof.
  intros Hs Hd v Hv. unfold os_rename. rewrite Hv.
  set (ks := key_of cwd0 src) in *. set (kd := key_of cwd0 dst) in *.
  assert (∀ k, outside K k → ks ≠ k ∧ kd ≠ k ∧ ¬ ks `prefix_of` k ∧ ¬ kd `prefix_of` k) as Hout.
  { intros k Ho. unfold outside in Ho. rewrite Forall_forall in Ho.
    repeat split; try (by apply Ho); intros ->;
      [by apply (Ho k Hs) | by apply (Ho k Hd)]. }
  destruct (negb (nonempty src) || negb (nonempty dst)); [done |].
  destruct (files v !! ks) as [[c|]|]; [| |done].
  - destruct (dir_required src); [done |].
    destruct (check_parent v kd); [done |].
    destruct (files v !! kd) as [[c'|]|]; [|done|];
      (destruct (dir_required dst); [done |]);
      (destruct (bool_decide (ks = kd)); [done |]); simpl;
      (split; [done |]); intros k Ho; destruct (Hout k Ho) as (H1 & H2 & _);
      by rewrite lookup_insert_ne, lookup_delete_ne.
  - destruct (check_parent v kd); [done |].
    destruct (bool_decide (ks = kd)); [done |].
    destruct (bool_decide (ks `prefix_of` kd)); [done |].
    destruct (files v !! kd) as [[c'|]|]; [done | |].
    + destruct (has_entries (files v) kd); [done |]. simpl. split; [done |].
      intros k Ho. destruct (Hout k Ho) as (_ & _ & H3 & H4).
      by apply move_tree_outside.
    + simpl. split; [done |].
      intros k Ho. destruct (Hout k Ho) as (_ & _ & H3 & H4).
      by apply move_tree_outside.
Qed.

Lemma framed_remove p : key_of cwd0 p ∈ K → framed cwd0 K (os_remove p).
Proof.
  intros Hp v Hv. unfold os_remove. rewrite Hv.
  destruct (negb (nonempty p)); [done |].
  destruct (files v !! key_of cwd0 p) as [[c|]|]; [|done|done].
  destruct (dir_required p); [done |]. simpl. split; [done |].
  intros k Ho. rewrite lookup_delete_ne; [done |]. by eapply outside_ne.
Qed.

Lemma framed_ffmpeg eo src dst :
  key_of cwd0 dst ∈ K → framed cwd0 K (run_ffmpeg eo src dst).
Proof.
  intros Hd v Hv. destruct eo as [status out|]; [|done].
  rewrite run_ffmpeg_exit. simpl. split; [done |].
  intros k Ho. unfold encoded_files. destruct out as [d|]; [|done].
  destruct (writable v dst); [|done]. rewrite Hv.
  rewrite lookup_insert_ne; [done |]. by eapply outside_ne.
Qed.

End Frames.

(** The files a job's pipeline may touch. *)
Definition footprint (cwd0 job : string) : list (list string) :=
  [key_of cwd0 (abspath cwd0 job); key_of cwd0 (backup_of cwd0 job);
   key_of cwd0 (temp_of cwd0 job)].

(** Lines 150-188, the part of [transcode_file] that changes files. *)
Definition rename_and_encode (eo : encode_outcome)
  (original_path backup_path temp_output : string) : M bool :=
  renamed <- try_except
               (os_rename original_path backup_path ;;; ret true)
               any_Exception
               (ret false) ;;
  if negb renamed then ret false else
  try_except
    (run_ffmpeg eo backup_path temp_output ;;;
     os_rename temp_output original_path ;;;
     os_remove backup_path ;;;
     ret true)
    only_CalledProcessError
    (try_except
       (ex <- os_path_exists backup_path ;;
        if ex then os_rename backup_path original_path else ret tt)
       any_Exception
       (ret tt) ;;;
     ex <- os_path_exists temp_output ;;
     (if ex then try_except (os_remove temp_output) any_Exception (ret tt)
      else ret tt) ;;;
     ret false).

Section TranscodeFrame.

Lemma transcode_file_unfold po eo p :
  transcode_file po eo p =
    (isf <- os_path_isfile p ;;
     if negb isf then ret false else
     codec <- get_video_codec po p ;;
     if negb (truthy codec) then ret false else
     if negb (bool_decide (default EmptyString codec ∈ inefficient_codecs)) then ret true else
     here <- os_getcwd ;;
     rename_and_encode eo (abspath here p) (backup_of here p) (temp_of here p)).
Proof. reflexivity. Qed.

Lemma rename_and_encode_framed cwd0 eo job :
  framed cwd0 (footprint cwd0 job)
    (rename_and_encode eo (abspath cwd0 job) (backup_of cwd0 job) (temp_of cwd0 job)).
Proof.
  assert (key_of cwd0 (abspath cwd0 job) ∈ footprint cwd0 job) as HO
    by apply list_elem_of_here.
  assert (key_of cwd0 (backup_of cwd0 job) ∈ footprint cwd0 job) as HB
    by apply list_elem_of_further, list_elem_of_here.
  assert (key_of cwd0 (temp_of cwd0 job) ∈ footprint cwd0 job) as HT
    by apply list_elem_of_further, list_elem_of_further, list_elem_of_here.
  unfold rename_and_encode.
  apply framed_bind.
  { apply framed_try; [|apply framed_ret].
    apply framed_bind; [by apply framed_rename | intros; apply framed_ret]. }
  intros [|]; [|apply framed_ret]. cbn [negb].
  apply framed_try.
  - apply framed_bind; [by apply framed_ffmpeg |]. intros _.
    apply framed_bind; [by apply framed_rename |]. intros _.
    apply framed_bind; [by apply framed_remove |]. intros _. apply framed_ret.
  - apply framed_bind.
    { apply framed_try; [|apply framed_ret].
      apply framed_bind; [apply framed_exists |].
      intros [|]; [by apply framed_rename | apply framed_ret]. }
    intros _. apply framed_bind; [apply framed_exists |].
    intros ex. apply framed_bind; [|intros; apply framed_ret].
    destruct ex; [|apply framed_ret].
    apply framed_try; [by apply framed_remove | apply framed_ret].
Qed.

(** [transcode_file] changes nothing outside the footprint of its job. *)
Theorem transcode_file_framed cwd0 po eo job :
  framed cwd0 (footprint cwd0 job) (transcode_file po eo job).
Proof.
  rewrite transcode_file_unfold.
  apply framed_bind; [by intros v Hv |].
  intros [|]; [|apply framed_ret]. cbn [negb].
  apply framed_bind.
  { intros v Hv. destruct po; done. }
  intros codec. destruct (negb (truthy codec)); [apply framed_ret |].
  destruct (negb (bool_decide _)); [apply framed_ret |].
  intros v Hv. rewrite bind_eq, os_getcwd_eq. norm. rewrite Hv.
  by apply rename_and_encode_framed.
Qed.

End TranscodeFrame.


(* ===================================================================== *)
(** * Where the files of a run lie                                        *)
(* ===================================================================== *)

(** The paths of the list at the start. *)
Definition paths0 (cfg : config) (w0 : world) : list string :=
  match list_text cfg w0 with
  | Some c => map (full_path cfg) (read_lines c)
  | None => []
  end.

Definition outsideb (K : list (list string)) (k : list string) : bool :=
  forallb (λ fk, negb (bool_decide (fk `prefix_of` k))) K.

(** The list artifact is none of the files the run works on: not the
    failure log, no marker, and not at or below a media file, its backup
    or its temporary output. *)
Definition list_apart (cfg : config) (w0 : world) : bool :=
  bool_decide (log_key cfg w0 ≠ list_key cfg w0)
  && forallb (λ path,
       bool_decide (lock_key w0 path ≠ list_key cfg w0)
       && outsideb (footprint (cwd w0) path) (list_key cfg w0))
     (paths0 cfg w0).

(** No marker exists at the start, and a marker is neither the failure
    log nor at or below a file a pipeline works on. *)
Definition markers_apart (cfg : config) (w0 : world) : bool :=
  forallb (λ path,
       bool_decide (lock_key w0 path ≠ log_key cfg w0)
       && bool_decide (files w0 !! lock_key w0 path = None)
       && forallb (λ path', outsideb (footprint (cwd w0) path') (lock_key w0 path))
            (paths0 cfg w0))
     (paths0 cfg w0).

(* ===================================================================== *)
(** * Steps of the pool, one kind at a time                               *)
(* ===================================================================== *)

Section PoolSteps.

Lemma gather_insert {X} (f : worker_local → list X) ths i l l' :
  ths !! i = Some l →
  gather f (<[i := l']> ths) ++ f l ≡ₚ gather f ths ++ f l'.
Proof.
  intros Hi. unfold gather.
  rewrite <- (take_drop_middle ths i l Hi) at 2.
  rewrite insert_take_drop by (by eapply lookup_lt_Some).
  rewrite !map_app, !concat_app. simpl.
  rewrite <- !app_assoc. f_equiv.
  rewrite (Permutation_app_comm (f l')), (Permutation_app_comm (f l)).
  rewrite <- !app_assoc. f_equiv. apply Permutation_app_comm.
Qed.

Lemma gather_insert_same {X} (f : worker_local → list X) ths i l l' :
  ths !! i = Some l → f l' = f l → gather f (<[i := l']> ths) = gather f ths.
Proof.
  intros Hi Hf. unfold gather.
  rewrite <- (take_drop_middle ths i l Hi) at 2.
  rewrite insert_take_drop by (by eapply lookup_lt_Some).
  rewrite !map_app, !concat_app. simpl. by rewrite Hf.
Qed.

Lemma gather_nil {X} (f : worker_local → list X) ths :
  Forall (λ l, f l = []) ths → gather f ths = [].
Proof.
  induction 1 as [|l ths Hl _ IH]; [done |].
  unfold gather in *. simpl. by rewrite Hl, IH.
Qed.

Lemma outsideb_outside K k : outsideb K k = true → outside K k.
Proof.
  unfold outsideb, outside. rewrite forallb_forall, Forall_forall.
  intros H fk Hin. apply list_elem_of_In in Hin. specialize (H fk Hin).
  apply negb_true_iff in H. by apply bool_decide_eq_false in H.
Qed.

(** The text of the list depends on the working directory and on the
    list file alone. *)
Lemma list_text_frame cfg w w' :
  cwd w' = cwd w →
  files w' !! list_key cfg w = files w !! list_key cfg w →
  list_text cfg w' = list_text cfg w.
Proof.
  intros Hc Hf. unfold list_text, stat. rewrite Hc.
  unfold list_key in Hf. by rewrite Hf.
Qed.

Lemma main_started cfg w0 ths w :
  main cfg w0 = (Ok (Started ths), w) →
  w = w0
  ∧ ths = replicate (Nat.max 1 (workers cfg)) fresh_worker
  ∧ ∃ c, list_text cfg w0 = Some c ∧ read_lines c ≠ [].
Proof.
  unfold main. rewrite bind_eq, os_path_exists_eq.
  destruct (list_text cfg w0) as [c|] eqn:Ht.
  - destruct (list_text_Some _ _ _ Ht) as (Hex & Hop & Hc).
    rewrite Hex. norm. rewrite bind_eq, Hop. norm.
    rewrite bind_eq, read_all_eq, Hc. norm.
    rewrite remaining_eq. fold (read_lines c).
    destruct (read_lines c) eqn:Hl; norm; rewrite ret_eq; intros [= <- <-]; [].
    repeat split; try done. exists c. by rewrite Hl.
  - destruct (list_text_None _ _ Ht) as [Hex|[e He]].
    + rewrite Hex. norm. by rewrite ret_eq.
    + destruct (path_exists w0 (input_file cfg)); norm; [|by rewrite ret_eq].
      rewrite bind_eq, He. done.
Qed.

(** The four ways a call of the claim protocol ends when the list can be
    opened. *)
Lemma acquire_on_open_list cfg w c :
  list_text cfg w = Some c →
  let r := acquire_next_job_from_list cfg w in
  cwd r.2 = cwd w ∧
  ( (read_lines c = [] ∧ r.1 = Ok (None, None)
     ∧ files r.2 = <[list_key cfg w := File ""]> (files w))
  ∨ (read_lines c ≠ [] ∧ r.1 = Ok (None, None) ∧ files r.2 = files w)
  ∨ (∃ e, r.1 = Raise e ∧ files r.2 = files w)
  ∨ (∃ j rel, read_lines c !! j = Some rel
       ∧ r.1 = Ok (Some (full_path cfg rel), Some (lock_path_of (full_path cfg rel)))
       ∧ files w !! lock_key w (full_path cfg rel) = None
       ∧ files r.2 = <[list_key cfg w := File (unlines (delete j (read_lines c)))]>
                       (<[lock_key w (full_path cfg rel) := File ""]> (files w))) ).
Proof.
  intros Ht r. pose proof (acquire_cases cfg w) as H. fold r in H.
  destruct (list_text_Some _ _ _ Ht) as (Hex & Hop & Hc).
  destruct r as [res w']. simpl in *.
  inversion H as [Hab|e Hn|c' Ht' Hl'|c' Ht' Hl' Hall|c' e j rel Ht' Hj Hs
                  |c' j rel Ht' Hj Hh Hs]; subst; try congruence.
  - assert (c' = c) as -> by congruence. split; [done |]. left. done.
  - assert (c' = c) as -> by congruence. split; [done |]. right. left. done.
  - split; [done |]. right. right. left. by exists e.
  - assert (c' = c) as -> by congruence. split; [done |]. right. right. right.
    exists j, rel. destruct (free_iff_creation_succeeds _ _ Hs) as [Hnone _]. done.
Qed.

End PoolSteps.

(* ===================================================================== *)
(** * The list and the claims: an invariant of every run                  *)
(* ===================================================================== *)

(** A thread at work knows a path of the list and holds its marker. *)
Definition job_known (cfg : config) (w0 : world) (l : worker_local) : Prop :=
  match pc l with
  | WJob j lk | WLog j lk => j ∈ paths0 cfg w0 ∧ lk = Some (lock_path_of j)
  | WFinally lk _ => ∃ j, j ∈ paths0 cfg w0 ∧ lk = Some (lock_path_of j)
  | _ => True
  end.

Record list_inv (cfg : config) (w0 : world) (p : pool) : Prop := {
  li_cwd : cwd (sh_world (mem p)) = cwd w0;
  li_threads : threads p ≠ [];
  li_text : ∃ c,
      list_text cfg (sh_world (mem p)) = Some c
      ∧ map (full_path cfg) (read_lines c) ++ claims (history p) ≡ₚ paths0 cfg w0
      ∧ (read_lines c ≠ [] → Forall (λ l, pc l ≠ WDone) (threads p));
  li_jobs : Forall (job_known cfg w0) (threads p);
  li_attempts :
    attempts (history p) ++ gather waiting_job (threads p) ≡ₚ claims (history p)
}.

Section ListInvariant.

Context (cfg : config) (w0 : world).
Hypothesis Hlayout : list_apart cfg w0 = true.

Lemma layout_log : log_key cfg w0 ≠ list_key cfg w0.
Proof.
  unfold list_apart in Hlayout. apply andb_prop in Hlayout as [H _].
  by apply bool_decide_eq_true in H.
Qed.

Lemma layout_path j :
  j ∈ paths0 cfg w0 →
  lock_key w0 j ≠ list_key cfg w0
  ∧ outside (footprint (cwd w0) j) (list_key cfg w0).
Proof.
  intros Hj. unfold list_apart in Hlayout. apply andb_prop in Hlayout as [_ H].
  rewrite forallb_forall in H. apply list_elem_of_In in Hj.
  specialize (H j Hj). apply andb_prop in H as [H1 H2].
  split; [by apply bool_decide_eq_true in H1 | by apply outsideb_outside].
Qed.

Lemma list_text_of_files w w' c t :
  list_text cfg w = Some c → cwd w' = cwd w →
  files w' !! list_key cfg w = Some (File t) →
  list_text cfg w' = Some t.
Proof.
  unfold list_text, stat, list_key. intros Ht Hc Hf. rewrite Hc.
  destruct (nonempty (input_file cfg)); simpl in *; [|done].
  rewrite Hf. destruct (files w !! _) as [[c'|]|]; [|done|done].
  by destruct (dir_required _).
Qed.

(** The invariant survives a step that treats the list as [R1]-[R4] say. *)
Lemma list_inv_update p i l l' s' c c' :
  list_inv cfg w0 p →
  threads p !! i = Some l →
  cwd (sh_world s') = cwd w0 →
  list_text cfg (sh_world (mem p)) = Some c →
  list_text cfg (sh_world s') = Some c' →
  map (full_path cfg) (read_lines c') ++ claim_of (i, pc l, pc l')
    ≡ₚ map (full_path cfg) (read_lines c) →
  (read_lines c' ≠ [] → read_lines c ≠ [] ∧ pc l' ≠ WDone) →
  job_known cfg w0 l' →
  attempt_of (i, pc l, pc l') ++ waiting_job l'
    ≡ₚ claim_of (i, pc l, pc l') ++ waiting_job l →
  list_inv cfg w0 {| threads := <[i := l']> (threads p); mem := s';
                     history := history p ++ [(i, pc l, pc l')] |}.
Proof.
  intros [Hcwd Hths (c0 & Ht0 & Hperm & Hdone) Hjobs Hatt] Hi Hcwd' Ht Ht' R1 R2 R3 R4.
  assert (c0 = c) as -> by congruence.
  split; simpl.
  - done.
  - intros Hnil. apply (f_equal length) in Hnil. rewrite length_insert in Hnil.
    by destruct (threads p).
  - exists c'. split; [done |]. split.
    + unfold claims. rewrite map_app, concat_app. simpl. rewrite app_nil_r.
      fold (claims (history p)).
      rewrite (Permutation_app_comm (claims _)), app_assoc, R1. done.
    + intros Hne. destruct (R2 Hne) as [Hne0 Hpc].
      apply Forall_insert; [by apply Hdone | done].
  - by apply Forall_insert.
  - unfold claims, attempts. rewrite !map_app, !concat_app. simpl. rewrite !app_nil_r.
    fold (claims (history p)). fold (attempts (history p)).
    apply (Permutation_app_inv_r (waiting_job l)).
    rewrite <- !app_assoc.
    rewrite (gather_insert waiting_job _ _ _ l' Hi).
    rewrite (Permutation_app_comm (gather _ _)), !app_assoc.
    rewrite <- (app_assoc (attempts _)), R4.
    rewrite <- !app_assoc, (Permutation_app_comm (waiting_job l)).
    rewrite !app_assoc. f_equiv.
    rewrite <- Hatt, <- !app_assoc. f_equiv. apply Permutation_app_comm.
Qed.

End ListInvariant.

Section ListInvariantSteps.

Context (cfg : config) (w0 : world).
Hypothesis Hlayout : list_apart cfg w0 = true.

(** A call of the claim protocol by a thread at line 193 or 198. *)
Lemma list_inv_acquire p i l next :
  list_inv cfg w0 p →
  threads p !! i = Some l →
  (pc l = WTop ∧ next = WRetry) ∨ (pc l = WRetry ∧ next = WCheck) →
  let a := acquire_next_job_from_list cfg (sh_world (mem p)) in
  let l' := goto l (match a.1 with
                    | Ok (Some j, lk) => WJob j lk
                    | Ok (None, _) => next
                    | Raise e => WCrashed e
                    end) in
  list_inv cfg w0
    {| threads := <[i := l']> (threads p);
       mem := {| sh_world := a.2; global_counter := global_counter (mem p) |};
       history := history p ++ [(i, pc l, pc l')] |}.
Proof.
  intros Hinv Hi Hpc a l'.
  pose proof Hinv as [Hcwd Hths (c & Ht & Hperm & Hdone) Hjobs Hatt].
  destruct (acquire_on_open_list cfg _ c Ht) as [Hc Hcases]. fold a in Hc, Hcases.
  assert (list_key cfg (sh_world (mem p)) = list_key cfg w0) as HkL
    by (unfold list_key; by rewrite Hcwd).
  assert (∀ s, claim_of (i, pc l, s) = match s with WJob j _ => [j] | _ => [] end) as Hcl.
  { intros s. by destruct Hpc as [[-> _]|[-> _]]. }
  assert (∀ s, attempt_of (i, pc l, s) = []) as Hat.
  { intros s. by destruct Hpc as [[-> _]|[-> _]]. }
  assert (waiting_job l = []) as Hwl.
  { unfold waiting_job. by destruct Hpc as [[-> _]|[-> _]]. }
  assert (next ≠ WDone ∧ (∀ j lk, next ≠ WJob j lk)
          ∧ job_known cfg w0 (goto l next) ∧ waiting_job (goto l next) = []) as
    (Hn1 & Hn2 & Hn3 & Hn4).
  { destruct Hpc as [[_ ->]|[_ ->]]; done. }
  destruct Hcases as [(Hl & Hr & Hf) | [(Hl & Hr & Hf) | [(e & Hr & Hf) | 
                      (j & rel & Hj & Hr & Hnone & Hf)]]].
  - (* no line left *)
    assert (l' = goto l next) as -> by (unfold l'; by rewrite Hr).
    eapply (list_inv_update cfg w0 p i l (goto l next) _ c "");
      try done; cbn [sh_world pc goto].
    + by rewrite Hc.
    + eapply list_text_of_files; [exact Ht | done |]. rewrite Hf.
      apply lookup_insert_eq.
    + rewrite Hcl, Hl. by destruct Hpc as [[_ ->]|[_ ->]].
    + rewrite Hat, Hcl, Hwl, Hn4. by destruct Hpc as [[_ ->]|[_ ->]].
  - (* lines left, all held *)
    assert (l' = goto l next) as -> by (unfold l'; by rewrite Hr).
    eapply (list_inv_update cfg w0 p i l (goto l next) _ c c);
      try done; cbn [sh_world pc goto].
    + by rewrite Hc.
    + rewrite <- Ht. apply list_text_frame; [done | by rewrite Hf].
    + rewrite Hcl. by destruct Hpc as [[_ ->]|[_ ->]]; rewrite app_nil_r.
    + rewrite Hat, Hcl, Hwl, Hn4. by destruct Hpc as [[_ ->]|[_ ->]].
  - (* the call raised *)
    assert (l' = goto l (WCrashed e)) as -> by (unfold l'; by rewrite Hr).
    eapply (list_inv_update cfg w0 p i l (goto l (WCrashed e)) _ c c);
      try done; cbn [sh_world pc goto].
    + by rewrite Hc.
    + rewrite <- Ht. apply list_text_frame; [done | by rewrite Hf].
    + rewrite Hcl. by rewrite app_nil_r.
    + by rewrite Hat, Hcl, Hwl.
  - (* a job was claimed *)
    set (job := full_path cfg rel) in *.
    assert (l' = goto l (WJob job (Some (lock_path_of job)))) as ->
      by (unfold l'; by rewrite Hr).
    assert (job ∈ paths0 cfg w0) as Hin.
    { rewrite <- Hperm. apply elem_of_app. left.
      apply list_elem_of_fmap. exists rel. split; [done |].
      by eapply list_elem_of_lookup_2. }
    eapply (list_inv_update cfg w0 p i l _ _ c
              (unlines (delete j (read_lines c)))); try done; cbn [sh_world pc goto].
    + by rewrite Hc.
    + eapply list_text_of_files; [exact Ht | done |]. rewrite Hf.
      apply lookup_insert_eq.
    + rewrite Hcl, read_lines_after_delete.
      rewrite (delete_Permutation (read_lines c) j rel Hj) at 2.
      simpl. fold job. by rewrite <- Permutation_cons_append.
    + intros _. split; [|done]. intros Hnil. by rewrite Hnil in Hj.
    + rewrite Hat, Hcl, Hwl. by rewrite app_nil_r.
Qed.

(** A step that leaves the list as it is and claims nothing. *)
Lemma list_inv_quiet p i l l' s' :
  list_inv cfg w0 p →
  threads p !! i = Some l →
  cwd (sh_world s') = cwd w0 →
  files (sh_world s') !! list_key cfg w0 = files (sh_world (mem p)) !! list_key cfg w0 →
  claim_of (i, pc l, pc l') = [] →
  (pc l' = WDone → ∀ c, list_text cfg (sh_world (mem p)) = Some c → read_lines c = []) →
  job_known cfg w0 l' →
  attempt_of (i, pc l, pc l') ++ waiting_job l' ≡ₚ waiting_job l →
  list_inv cfg w0 {| threads := <[i := l']> (threads p); mem := s';
                     history := history p ++ [(i, pc l, pc l')] |}.
Proof.
  intros Hinv Hi Hc Hf Hcl Hd Hk Hat.
  pose proof Hinv as [Hcwd Hths (c & Ht & Hperm & Hdone) Hjobs Hatt].
  eapply (list_inv_update cfg w0 p i l l' s' c c); try done.
  - rewrite <- Ht. apply list_text_frame; [congruence |].
    unfold list_key in *. by rewrite Hcwd.
  - by rewrite Hcl, app_nil_r.
  - intros Hne. split; [done |]. intros Hpc. by apply Hne, Hd.
  - by rewrite Hcl.
Qed.

Lemma worker_step_acquire o l s next :
  (pc l = WTop ∧ next = WRetry) ∨ (pc l = WRetry ∧ next = WCheck) →
  worker_step cfg o l s =
    (goto l (match (acquire_next_job_from_list cfg (sh_world s)).1 with
             | Ok (Some j, lk) => WJob j lk
             | Ok (None, _) => next
             | Raise e => WCrashed e
             end),
     {| sh_world := (acquire_next_job_from_list cfg (sh_world s)).2;
        global_counter := global_counter s |}).
Proof.
  unfold worker_step.
  intros [[-> ->]|[-> ->]];
    by destruct (acquire_next_job_from_list cfg (sh_world s)) as [[[[j|] lk]|e] w'].
Qed.

Lemma worker_step_check o l s :
  pc l = WCheck →
  worker_step cfg o l s =
    match list_has_remaining cfg (sh_world s) with
    | (Ok remaining, w') =>
        (goto l (if remaining then WTop else WDone),
         {| sh_world := w'; global_counter := global_counter s |})
    | (Raise e, w') =>
        (goto l (WCrashed e), {| sh_world := w'; global_counter := global_counter s |})
    end.
Proof. unfold worker_step. by intros ->. Qed.

Lemma worker_step_job o l s job lk :
  pc l = WJob job lk →
  worker_step cfg o l s =
    match transcode_file (on_probe o) (on_encode o) job (sh_world s) with
    | (Ok ok, w') =>
        (goto l (if ok then WFinally lk None else WLog job lk),
         {| sh_world := w'; global_counter := global_counter s |})
    | (Raise e, w') =>
        (goto l (WFinally lk (Some e)),
         {| sh_world := w'; global_counter := global_counter s |})
    end.
Proof. unfold worker_step. by intros ->. Qed.

Lemma worker_step_log o l s job lk :
  pc l = WLog job lk →
  worker_step cfg o l s =
    match log_failure cfg (failure_rel cfg job) (sh_world s) with
    | (Ok _, w') =>
        (goto l (WFinally lk None),
         {| sh_world := w'; global_counter := global_counter s |})
    | (Raise e, w') =>
        (goto l (WFinally lk (Some e)),
         {| sh_world := w'; global_counter := global_counter s |})
    end.
Proof. unfold worker_step. by intros ->. Qed.

Lemma worker_step_finally o l s lk pend :
  pc l = WFinally lk pend →
  worker_step cfg o l s =
    match release_item_lock lk (sh_world s) with
    | (Ok _, w') =>
        match pend with
        | Some e => (goto l (WCrashed e),
                     {| sh_world := w'; global_counter := global_counter s |})
        | None => ({| pc := WTop; processed_local := S (processed_local l) |},
                   {| sh_world := w'; global_counter := S (global_counter s) |})
        end
    | (Raise e, w') =>
        (goto l (WCrashed e), {| sh_world := w'; global_counter := global_counter s |})
    end.
Proof. unfold worker_step. by intros ->. Qed.

(** Every step of the pool keeps the invariant. *)
Lemma list_inv_step p i o p' :
  list_inv cfg w0 p → pool_step cfg i o p = Some p' → list_inv cfg w0 p'.
Proof.
  intros Hinv. unfold pool_step.
  destruct (threads p !! i) as [l|] eqn:Hi; [|done].
  destruct (terminal (pc l)) eqn:Hterm; [done |]. intros [= <-].
  pose proof Hinv as [Hcwd Hths (c & Ht & Hperm & Hdone) Hjobs Hatt].
  assert (job_known cfg w0 l) as Hkl.
  { rewrite Forall_forall in Hjobs. apply Hjobs. by eapply list_elem_of_lookup_2. }
  destruct (pc l) as [| | |job lk|job lk|lk pend| |e] eqn:Hpc; try done;
    rewrite <- Hpc.
  - rewrite (worker_step_acquire o l (mem p) WRetry) by (left; done).
    apply list_inv_acquire; [done | done | left; done].
  - rewrite (worker_step_acquire o l (mem p) WCheck) by (right; done).
    apply list_inv_acquire; [done | done | right; done].
  - (* lines 201-211 *)
    rewrite (worker_step_check o l _ Hpc), (list_has_remaining_eq _ _ _ Ht).
    cbn [fst snd].
    apply list_inv_quiet; try done; cbn [sh_world pc goto]; rewrite ?Hpc; try done.
    + intros Hd c' Hc'. assert (c' = c) as -> by congruence.
      by destruct (read_lines c).
    + unfold job_known. cbn [pc goto]. by destruct (read_lines c).
    + unfold waiting_job. cbn [pc goto]. rewrite Hpc.
      by destruct (read_lines c).
  - (* line 214 *)
    unfold job_known in Hkl. rewrite Hpc in Hkl. destruct Hkl as [Hin ->].
    destruct (layout_path cfg w0 Hlayout job Hin) as [_ Hout].
    destruct (transcode_file_framed (cwd w0) (on_probe o) (on_encode o) job
                (sh_world (mem p)) Hcwd) as [Hc' Hf'].
    specialize (Hf' _ Hout).
    rewrite (worker_step_job o l _ _ _ Hpc).
    destruct (transcode_file _ _ job _) as [[ok|e] w'] eqn:Htr; cbn [fst snd] in *;
      apply list_inv_quiet; try done; cbn [sh_world pc goto];
      rewrite ?Hpc; try done.
    + by destruct ok.
    + unfold job_known. cbn [pc goto]. destruct ok; [by exists job | done].
    + unfold waiting_job. cbn [pc goto]. rewrite Hpc. by destruct ok.
    + unfold job_known. cbn [pc goto]. by exists job.
    + unfold waiting_job. cbn [pc goto]. by rewrite Hpc.
  - (* lines 217-220 *)
    unfold job_known in Hkl. rewrite Hpc in Hkl. destruct Hkl as [Hin ->].
    rewrite (worker_step_log o l _ _ _ Hpc).
    pose proof (log_failure_cases cfg (failure_rel cfg job) (sh_world (mem p))) as Hlog.
    assert (log_key cfg (sh_world (mem p)) ≠ list_key cfg w0) as Hne.
    { unfold log_key. rewrite Hcwd. apply (layout_log cfg w0 Hlayout). }
    destruct (log_failure cfg _ _) as [[[]|e] w'] eqn:Hl;
      [|by destruct Hlog as [H|H]].
    cbn [fst snd].
    apply list_inv_quiet; try done; cbn [sh_world pc goto]; rewrite ?Hpc; try done.
    + destruct Hlog as [[= ->]|[= ->]]; done.
    + destruct Hlog as [[= ->]|[= ->]]; [done |]. simpl. by rewrite lookup_insert_ne.
    + unfold job_known. cbn [pc goto]. by exists job.
    + unfold waiting_job. cbn [pc goto]. by rewrite Hpc.
  - (* line 223 *)
    unfold job_known in Hkl. rewrite Hpc in Hkl. destruct Hkl as (job & Hin & ->).
    destruct (layout_path cfg w0 Hlayout job Hin) as [Hne _].
    rewrite (worker_step_finally o l _ _ _ Hpc), release_item_lock_eq.
    assert (lock_key (sh_world (mem p)) job = lock_key w0 job) as Hk
      by (unfold lock_key; by rewrite Hcwd).
    rewrite Hk.
    destruct (files (sh_world (mem p)) !! lock_key w0 job) as [[c1|]|] eqn:Hlk;
      cbn [fst snd]; destruct pend as [e|]; cbn [fst snd];
      apply list_inv_quiet; try done; cbn [sh_world pc goto files extend];
      rewrite ?Hpc; try done.
    all: try (by rewrite lookup_delete_ne).
    all: try (unfold waiting_job; cbn [pc goto]; by rewrite Hpc).
Qed.

Theorem list_inv_reachable p : reachable cfg w0 p → list_inv cfg w0 p.
Proof.
  induction 1 as [ths w Hmain | p i o p' _ IH Hstep]; [|by eapply list_inv_step].
  destruct (main_started _ _ _ _ Hmain) as (-> & -> & c & Ht & Hne).
  assert (Forall (λ l, pc l = WTop) (replicate (Nat.max 1 (workers cfg)) fresh_worker)) as Hall.
  { apply Forall_forall. by intros l [-> _]%elem_of_replicate. }
  split; simpl.
  - done.
  - destruct (Nat.max 1 (workers cfg)) eqn:E; [lia | done].
  - exists c. split; [done |]. split.
    + unfold paths0. rewrite Ht. by rewrite app_nil_r.
    + intros _. eapply Forall_impl; [exact Hall |]. by intros l ->.
  - eapply Forall_impl; [exact Hall |]. intros l Hl. unfold job_known. by rewrite Hl.
  - rewrite gather_nil; [done |].
    eapply Forall_impl; [exact Hall |]. intros l Hl. unfold waiting_job. by rewrite Hl.
Qed.

End ListInvariantSteps.

(* ===================================================================== *)
(** * Runs of the pool                                                    *)
(* ===================================================================== *)

Section Runs.

Lemma run_schedule_reachable cfg w0 sched : ∀ p p',
  reachable cfg w0 p → run_schedule cfg sched p = Some p' → reachable cfg w0 p'.
Proof.
  induction sched as [|[i o] rest IH]; intros p p' Hp; simpl.
  - by intros [= <-].
  - destruct (pool_step cfg i o p) as [p1|] eqn:Hs; [|done].
    apply IH. by eapply reach_step.
Qed.

Lemma lock_key_snoc v path : ∃ K0 z, lock_key v path = K0 ++ [z].
Proof.
  unfold lock_key.
  destruct (key_of_last (cwd v) (lock_path_of path)
              (lock_path_nonempty path) (lock_path_no_dir path)) as [K0 H].
  by exists K0, (List.last (split slash (lock_path_of path)) EmptyString).
Qed.

(** Of two attempts to create the same marker the second fails. *)
Lemma make_item_lock_exclusive v path :
  (make_item_lock path v).1 = Ok (Some (lock_path_of path)) →
  make_item_lock path (make_item_lock path v).2 = (Ok None, (make_item_lock path v).2).
Proof.
  rewrite make_item_lock_eq. destruct (lock_status v path) eqn:Hs; [done | done |].
  intros _. cbn [snd]. rewrite make_item_lock_eq.
  set (v' := extend v _ _).
  assert (lock_status v' path = LockHeld) as ->; [|done].
  unfold lock_status in *. change (lock_key v' path) with (lock_key v path).
  destruct (lock_key_snoc v path) as (K0 & z & Hk).
  destruct (check_parent v (lock_key v path)) as [e|] eqn:Hp; [done |].
  assert (check_parent v' (lock_key v path) = None) as ->.
  { unfold check_parent in *. simpl. rewrite lookup_insert_ne; [done |].
    rewrite Hk, parent_snoc. intros Heq. apply (f_equal length) in Heq.
    rewrite length_app in Heq. simpl in Heq. lia. }
  simpl. by rewrite lookup_insert_eq.
Qed.

(** A line whose marker cannot be created is passed over. *)
Lemma scan_lines_moves_on cfg v idx rel rest :
  make_item_lock (full_path cfg rel) v = (Ok None, v) →
  scan_lines cfg idx (rel :: rest) v = scan_lines cfg (S idx) rest v.
Proof. intros H. simpl. rewrite bind_eq, H. done. Qed.

End Runs.

(** C1: in every complete run on a list of distinct paths, whatever the
    number of workers and however their steps interleave, each path of the
    list is claimed once and handed to the pipeline once, no path is ever
    claimed twice, and the list ends without a line.  Of two attempts to
    create one marker only the first succeeds; the scan passes over a line
    whose marker it cannot create and goes on to the next. *)
Theorem C1_complete_run_claims_each_path_once (cfg : config) (w0 : world) (p : pool) :
  list_apart cfg w0 = true →
  NoDup (paths0 cfg w0) →
  reachable cfg w0 p →
  complete p →
  length (threads p) = Nat.max 1 (workers cfg)
  ∧ (∃ c, list_text cfg (sh_world (mem p)) = Some c ∧ read_lines c = [])
  ∧ claims (history p) ≡ₚ paths0 cfg w0
  ∧ attempts (history p) ≡ₚ paths0 cfg w0
  ∧ NoDup (claims (history p))
  ∧ NoDup (attempts (history p))
  ∧ (∀ q, reachable cfg w0 q →
       NoDup (claims (history q)) ∧ NoDup (gather waiting_job (threads q)))
  ∧ (∀ v path,
       (make_item_lock path v).1 = Ok (Some (lock_path_of path)) →
       make_item_lock path (make_item_lock path v).2
       = (Ok None, (make_item_lock path v).2))
  ∧ (∀ v idx rel rest,
       make_item_lock (full_path cfg rel) v = (Ok None, v) →
       scan_lines cfg idx (rel :: rest) v = scan_lines cfg (S idx) rest v).
Proof.
  intros Hlayout Hnodup Hreach Hcomplete.
  destruct (list_inv_reachable cfg w0 Hlayout p Hreach)
    as [Hcwd Hths (c & Ht & Hperm & Hdone) Hjobs Hatt].
  assert (read_lines c = []) as Hnil.
  { destruct (read_lines c) as [|x xs] eqn:E; [done |]. exfalso.
    assert (Forall (λ l, pc l ≠ WDone) (threads p)) as Hno by by apply Hdone.
    unfold complete in Hcomplete.
    destruct (threads p) as [|l ths]; [done |].
    inversion Hno; subst. inversion Hcomplete; subst. done. }
  assert (claims (history p) ≡ₚ paths0 cfg w0) as Hclaims
    by (by rewrite Hnil in Hperm).
  assert (gather waiting_job (threads p) = []) as Hwait.
  { apply gather_nil. eapply Forall_impl; [exact Hcomplete |].
    intros l Hl. unfold waiting_job. by rewrite Hl. }
  rewrite Hwait, app_nil_r in Hatt.
  split.
  { clear -Hreach. induction Hreach as [ths w Hmain | p i o p' _ IH Hstep].
    - destruct (main_started _ _ _ _ Hmain) as (_ & -> & _). simpl.
      apply length_replicate.
    - unfold pool_step in Hstep. destruct (threads p !! i); [|done].
      destruct (terminal _); [done |]. injection Hstep as <-. simpl.
      by rewrite length_insert. }
  split; [by exists c |]. split; [done |]. split; [by rewrite Hatt |].
  split; [by rewrite Hclaims |]. split; [by rewrite Hatt, Hclaims |].
  split; [|split; [apply make_item_lock_exclusive | apply scan_lines_moves_on]].
  intros q Hq.
  destruct (list_inv_reachable cfg w0 Hlayout q Hq)
    as [_ _ (cq & _ & Hpq & _) _ Haq].
  assert (NoDup (claims (history q))) as Hnd.
  { rewrite <- Hpq in Hnodup. by apply NoDup_app in Hnodup as (_ & _ & ?). }
  split; [done |]. rewrite <- Haq in Hnd. by apply NoDup_app in Hnd as (_ & _ & ?).
Qed.

(** A run of two workers on the list a.mkv, b.mkv. *)
Definition world_start : world :=
  {| files := list_to_map
       [([], Dir); (["data"], Dir); (["work"], Dir);
        (["data"; "a.mkv"], File "AAAA"); (["data"; "b.mkv"], File "BBBB");
        (["work"; "transcode_list.txt"],
         File ("a.mkv" +:+ newline +:+ "b.mkv" +:+ newline))];
     cwd := "/work"; trace := [] |}.

Definition answers_h264 : outcomes :=
  {| on_probe := ProbeExit0 "h264"; on_encode := EncodeExit true (Some "hevc-A") |}.
Definition answers_hevc : outcomes :=
  {| on_probe := ProbeExit0 "hevc"; on_encode := EncodeSpawnError |}.

Definition sample_schedule : list (nat * outcomes) :=
  [(0, answers_h264); (1, answers_hevc);      (* both claim a job *)
   (1, answers_hevc); (0, answers_h264);      (* both run the pipeline *)
   (0, answers_h264); (1, answers_hevc);      (* both release *)
   (0, answers_h264); (0, answers_h264); (0, answers_h264);
   (1, answers_hevc); (1, answers_hevc); (1, answers_hevc)].

Definition sample_start : pool :=
  {| threads := replicate 2 fresh_worker;
     mem := {| sh_world := world_start; global_counter := 0 |};
     history := [] |}.

Definition sample_final : pool :=
  Eval vm_compute in
    default sample_start (run_schedule sample_config sample_schedule sample_start).


(** The sample run is a complete run, and it claims and attempts the two
    paths of its list. *)
Lemma C1_complete_run_claims_each_path_once_witness :
  complete sample_final
  ∧ length (threads sample_final) = 2
  ∧ claims (history sample_final) ≡ₚ ["/data/a.mkv"; "/data/b.mkv"]
  ∧ attempts (history sample_final) ≡ₚ ["/data/a.mkv"; "/data/b.mkv"].
Proof.
  assert (Hreach : reachable sample_config world_start sample_final).
  { apply (run_schedule_reachable _ _ sample_schedule sample_start).
    - apply (reach_start sample_config world_start (replicate 2 fresh_worker) world_start).
      vm_compute. reflexivity.
    - vm_compute. reflexivity. }
  assert (Hc : complete sample_final).
  { unfold complete. vm_compute. repeat constructor. }
  assert (Hnd : NoDup (paths0 sample_config world_start)).
  { apply (bool_decide_unpack _). vm_compute. exact I. }
  assert (Hl : list_apart sample_config world_start = true) by (vm_compute; reflexivity).
  destruct (C1_complete_run_claims_each_path_once sample_config world_start sample_final
              Hl Hnd Hreach Hc) as (H0 & _ & H1 & H2 & _).
  split; [exact Hc |]. split; [exact H0 |]. split; [exact H1 | exact H2].
Defined.

(* ===================================================================== *)
(** * The markers: an invariant of every run                              *)
(* ===================================================================== *)

(** The files of the markers the threads hold. *)
Definition held_keys (w0 : world) (ths : list worker_local) : list (list string) :=
  map (key_of (cwd w0)) (gather held_lock ths).

Record lock_inv (cfg : config) (w0 : world) (p : pool) : Prop := {
  lk_held : ∀ j, j ∈ paths0 cfg w0 →
      is_Some (files (sh_world (mem p)) !! lock_key w0 j) →
      lock_key w0 j ∈ held_keys w0 (threads p);
  lk_nodup : NoDup (held_keys w0 (threads p));
  lk_exists : ∀ k, k ∈ held_keys w0 (threads p) →
      ∃ c, files (sh_world (mem p)) !! k = Some (File c)
}.

Section LockInvariant.

Context (cfg : config) (w0 : world).
Hypothesis Hlayout : list_apart cfg w0 = true.
Hypothesis Hmarkers : markers_apart cfg w0 = true.

Lemma markers_path j :
  j ∈ paths0 cfg w0 →
  lock_key w0 j ≠ log_key cfg w0
  ∧ files w0 !! lock_key w0 j = None
  ∧ ∀ j', j' ∈ paths0 cfg w0 → outside (footprint (cwd w0) j') (lock_key w0 j).
Proof using Hmarkers.
  intros Hj. unfold markers_apart in Hmarkers.
  rewrite forallb_forall in Hmarkers. apply list_elem_of_In in Hj.
  specialize (Hmarkers j Hj). apply andb_prop in Hmarkers as [H12 H3].
  apply andb_prop in H12 as [H1 H2].
  split; [by apply bool_decide_eq_true in H1 |].
  split; [by apply bool_decide_eq_true in H2 |].
  intros j' Hj'. rewrite forallb_forall in H3. apply list_elem_of_In in Hj'.
  by apply outsideb_outside, H3.
Qed.

Lemma held_lock_known l :
  job_known cfg w0 l → ∀ lp, lp ∈ held_lock l → ∃ j, j ∈ paths0 cfg w0 ∧ lp = lock_path_of j.
Proof.
  unfold job_known, held_lock. intros Hk lp Hlp.
  destruct (pc l) as [| | |job lk|job lk|lk pend| |e]; try by apply elem_of_nil in Hlp.
  - destruct Hk as [Hin ->]. apply list_elem_of_singleton in Hlp as ->. by exists job.
  - destruct Hk as [Hin ->]. apply list_elem_of_singleton in Hlp as ->. by exists job.
  - destruct Hk as (j & Hin & ->). apply list_elem_of_singleton in Hlp as ->. by exists j.
Qed.

Lemma held_keys_known p :
  list_inv cfg w0 p →
  ∀ k, k ∈ held_keys w0 (threads p) → ∃ j, j ∈ paths0 cfg w0 ∧ k = lock_key w0 j.
Proof.
  intros [_ _ _ Hjobs _] k Hk. unfold held_keys, gather in Hk.
  apply list_elem_of_fmap in Hk as (lp & -> & Hlp).
  apply list_elem_of_In, in_concat in Hlp as (ls & Hls & Hlp).
  apply in_map_iff in Hls as (l & <- & Hl).
  apply list_elem_of_In in Hlp, Hl.
  rewrite Forall_forall in Hjobs.
  destruct (held_lock_known l (Hjobs l Hl) lp Hlp) as (j & Hj & ->).
  by exists j.
Qed.

(** A step that neither takes nor drops a marker. *)
Lemma lock_inv_quiet p i l l' s' h' :
  list_inv cfg w0 p → lock_inv cfg w0 p →
  threads p !! i = Some l →
  held_lock l' = held_lock l →
  (∀ j, j ∈ paths0 cfg w0 →
     files (sh_world s') !! lock_key w0 j = files (sh_world (mem p)) !! lock_key w0 j) →
  lock_inv cfg w0 {| threads := <[i := l']> (threads p); mem := s'; history := h' |}.
Proof.
  intros Hli [Hheld Hnd Hex] Hi Hsame Hfiles.
  assert (held_keys w0 (<[i := l']> (threads p)) = held_keys w0 (threads p)) as Hk.
  { unfold held_keys. by rewrite (gather_insert_same held_lock _ _ l l' Hi Hsame). }
  split; simpl; rewrite Hk.
  - intros j Hj Hsome. rewrite Hfiles in Hsome by done. by apply Hheld.
  - done.
  - intros k Hin. destruct (held_keys_known p Hli k Hin) as (j & Hj & ->).
    rewrite Hfiles by done. by apply Hex.
Qed.

(** A step that creates the marker of [j] and takes it. *)
Lemma lock_inv_take p i l l' s' h' j :
  list_inv cfg w0 p → lock_inv cfg w0 p →
  threads p !! i = Some l →
  held_lock l = [] → held_lock l' = [lock_path_of j] →
  j ∈ paths0 cfg w0 →
  files (sh_world (mem p)) !! lock_key w0 j = None →
  files (sh_world s') !! lock_key w0 j = Some (File "") →
  (∀ j', j' ∈ paths0 cfg w0 → lock_key w0 j' ≠ lock_key w0 j →
     files (sh_world s') !! lock_key w0 j' = files (sh_world (mem p)) !! lock_key w0 j') →
  lock_inv cfg w0 {| threads := <[i := l']> (threads p); mem := s'; history := h' |}.
Proof.
  intros Hli [Hheld Hnd Hex] Hi Hl Hl' Hj Hnone Hnew Hothers.
  assert (held_keys w0 (<[i := l']> (threads p))
          ≡ₚ held_keys w0 (threads p) ++ [lock_key w0 j]) as Hk.
  { unfold held_keys. pose proof (gather_insert held_lock _ _ l l' Hi) as Hg.
    rewrite Hl, Hl', app_nil_r in Hg. rewrite Hg, map_app. done. }
  assert (lock_key w0 j ∉ held_keys w0 (threads p)) as Hfresh.
  { intros Hin. destruct (Hex _ Hin) as [c Hc]. congruence. }
  split; simpl.
  - intros j' Hj' Hsome. rewrite Hk. apply elem_of_app.
    destruct (decide (lock_key w0 j' = lock_key w0 j)) as [->|Hne].
    + right. by apply list_elem_of_singleton.
    + left. apply Hheld; [done |]. by rewrite <- Hothers.
  - rewrite Hk. apply NoDup_app. split; [done |]. split; [|apply NoDup_singleton].
    intros k Hin ->%list_elem_of_singleton. done.
  - intros k Hin. rewrite Hk in Hin. apply elem_of_app in Hin as [Hin|Hin].
    + destruct (held_keys_known p Hli k Hin) as (j' & Hj' & ->).
      rewrite Hothers; [by apply Hex | done | by intros Heq; rewrite Heq in Hin].
    + apply list_elem_of_singleton in Hin as ->. by exists "".
Qed.

(** A step that removes the marker of [j] and drops it. *)
Lemma lock_inv_drop p i l l' s' h' j :
  list_inv cfg w0 p → lock_inv cfg w0 p →
  threads p !! i = Some l →
  held_lock l = [lock_path_of j] → held_lock l' = [] →
  files (sh_world s') = delete (lock_key w0 j) (files (sh_world (mem p))) →
  lock_inv cfg w0 {| threads := <[i := l']> (threads p); mem := s'; history := h' |}.
Proof.
  intros Hli [Hheld Hnd Hex] Hi Hl Hl' Hfiles.
  assert (held_keys w0 (<[i := l']> (threads p)) ++ [lock_key w0 j]
          ≡ₚ held_keys w0 (threads p)) as Hk.
  { unfold held_keys. pose proof (gather_insert held_lock _ _ l l' Hi) as Hg.
    rewrite Hl, Hl', app_nil_r in Hg. rewrite <- Hg, map_app. done. }
  rewrite <- Hk in Hnd. apply NoDup_app in Hnd as (Hnd1 & Hnd2 & _).
  split; simpl; rewrite ?Hfiles.
  - intros j' Hj' Hsome.
    destruct (decide (lock_key w0 j' = lock_key w0 j)) as [Heq|Hne].
    + rewrite Heq, lookup_delete_eq in Hsome. by destruct Hsome.
    + rewrite lookup_delete_ne in Hsome by done.
      specialize (Hheld j' Hj' Hsome). rewrite <- Hk in Hheld.
      apply elem_of_app in Hheld as [?|Hin]; [done |].
      by apply list_elem_of_singleton in Hin.
  - done.
  - intros k Hin. rewrite lookup_delete_ne.
    + apply Hex. rewrite <- Hk. apply elem_of_app. by left.
    + intros <-. apply (Hnd2 _ Hin). by apply list_elem_of_singleton.
Qed.

Lemma lock_inv_acquire p i l next h' :
  list_inv cfg w0 p → lock_inv cfg w0 p →
  threads p !! i = Some l →
  (pc l = WTop ∧ next = WRetry) ∨ (pc l = WRetry ∧ next = WCheck) →
  let a := acquire_next_job_from_list cfg (sh_world (mem p)) in
  let l' := goto l (match a.1 with
                    | Ok (Some j, lk) => WJob j lk
                    | Ok (None, _) => next
                    | Raise e => WCrashed e
                    end) in
  lock_inv cfg w0
    {| threads := <[i := l']> (threads p);
       mem := {| sh_world := a.2; global_counter := global_counter (mem p) |};
       history := h' |}.
Proof using Hlayout.
  intros Hli Hlk Hi Hpc a l'.
  pose proof Hli as [Hcwd Hths (c & Ht & Hperm & Hdone) Hjobs Hatt].
  destruct (acquire_on_open_list cfg _ c Ht) as [Hc Hcases]. fold a in Hc, Hcases.
  assert (list_key cfg (sh_world (mem p)) = list_key cfg w0) as HkL
    by (unfold list_key; by rewrite Hcwd).
  assert (∀ j, lock_key (sh_world (mem p)) j = lock_key w0 j) as HkM
    by (intros j; unfold lock_key; by rewrite Hcwd).
  assert (held_lock l = []) as Hl.
  { unfold held_lock. by destruct Hpc as [[-> _]|[-> _]]. }
  assert (held_lock (goto l next) = []) as Hn.
  { unfold held_lock. cbn [pc goto]. by destruct Hpc as [[_ ->]|[_ ->]]. }
  rewrite HkL in Hcases.
  destruct Hcases as [(Hlines & Hr & Hf) | [(Hlines & Hr & Hf) | [(e & Hr & Hf) | 
                      (j & rel & Hj & Hr & Hnone & Hf)]]].
  - assert (l' = goto l next) as -> by (unfold l'; by rewrite Hr).
    apply (lock_inv_quiet p i l); try done; [congruence |].
    intros j Hj. cbn [sh_world]. rewrite Hf.
    destruct (layout_path cfg w0 Hlayout j Hj) as [Hne _].
    by rewrite lookup_insert_ne.
  - assert (l' = goto l next) as -> by (unfold l'; by rewrite Hr).
    apply (lock_inv_quiet p i l); try done; [congruence |].
    intros j Hj. cbn [sh_world]. by rewrite Hf.
  - assert (l' = goto l (WCrashed e)) as -> by (unfold l'; by rewrite Hr).
    apply (lock_inv_quiet p i l); try done.
    intros j Hj. cbn [sh_world]. by rewrite Hf.
  - set (job := full_path cfg rel) in *.
    assert (l' = goto l (WJob job (Some (lock_path_of job)))) as ->
      by (unfold l'; by rewrite Hr).
    assert (job ∈ paths0 cfg w0) as Hin.
    { rewrite <- Hperm. apply elem_of_app. left.
      apply list_elem_of_fmap. exists rel. split; [done |].
      by eapply list_elem_of_lookup_2. }
    rewrite HkM in Hnone, Hf.
    destruct (layout_path cfg w0 Hlayout job Hin) as [Hne _].
    apply (lock_inv_take p i l _ _ _ job); try done; cbn [sh_world]; rewrite ?Hf.
    + rewrite lookup_insert_ne by done. apply lookup_insert_eq.
    + intros j' Hj' Hne'.
      destruct (layout_path cfg w0 Hlayout j' Hj') as [Hne2 _].
      by rewrite !lookup_insert_ne.
Qed.

(** Every step of the pool keeps the invariant of the markers. *)
Lemma lock_inv_step p i o p' :
  list_inv cfg w0 p → lock_inv cfg w0 p →
  pool_step cfg i o p = Some p' → lock_inv cfg w0 p'.
Proof using Hlayout Hmarkers.
  intros Hli Hlk. unfold pool_step.
  destruct (threads p !! i) as [l|] eqn:Hi; [|done].
  destruct (terminal (pc l)) eqn:Hterm; [done |]. intros [= <-].
  pose proof Hli as [Hcwd Hths (c & Ht & Hperm & Hdone) Hjobs Hatt].
  assert (job_known cfg w0 l) as Hkl.
  { rewrite Forall_forall in Hjobs. apply Hjobs. by eapply list_elem_of_lookup_2. }
  destruct (pc l) as [| | |job lk|job lk|lk pend| |e] eqn:Hpc; try done.
  - rewrite (worker_step_acquire cfg o l (mem p) WRetry) by (left; done).
    apply lock_inv_acquire; [done | done | done | left; done].
  - rewrite (worker_step_acquire cfg o l (mem p) WCheck) by (right; done).
    apply lock_inv_acquire; [done | done | done | right; done].
  - rewrite (worker_step_check cfg o l _ Hpc), (list_has_remaining_eq _ _ _ Ht).
    cbn [fst snd].
    apply (lock_inv_quiet p i l); try done.
    unfold held_lock. cbn [pc goto]. rewrite Hpc. by destruct (read_lines c).
  - unfold job_known in Hkl. rewrite Hpc in Hkl. destruct Hkl as [Hin ->].
    destruct (transcode_file_framed (cwd w0) (on_probe o) (on_encode o) job
                (sh_world (mem p)) Hcwd) as [Hc' Hf'].
    rewrite (worker_step_job cfg o l _ _ _ Hpc).
    destruct (transcode_file _ _ job _) as [[ok|e] w'] eqn:Htr; cbn [fst snd] in *;
      apply (lock_inv_quiet p i l); try done; cbn [sh_world].
    + unfold held_lock. cbn [pc goto]. rewrite Hpc. by destruct ok.
    + intros j Hj. apply Hf'. by apply (markers_path j Hj).
    + unfold held_lock. cbn [pc goto]. by rewrite Hpc.
    + intros j Hj. apply Hf'. by apply (markers_path j Hj).
  - unfold job_known in Hkl. rewrite Hpc in Hkl. destruct Hkl as [Hin ->].
    rewrite (worker_step_log cfg o l _ _ _ Hpc).
    pose proof (log_failure_cases cfg (failure_rel cfg job) (sh_world (mem p))) as Hlog.
    assert (log_key cfg (sh_world (mem p)) = log_key cfg w0) as Hlk0
      by (unfold log_key; by rewrite Hcwd).
    destruct (log_failure cfg _ _) as [[[]|e] w'] eqn:Hl;
      [|by destruct Hlog as [H|H]].
    cbn [fst snd]. apply (lock_inv_quiet p i l); try done; cbn [sh_world].
    + unfold held_lock. cbn [pc goto]. by rewrite Hpc.
    + intros j Hj. destruct Hlog as [[= ->]|[= ->]]; [done |]. simpl.
      rewrite Hlk0. destruct (markers_path j Hj) as (Hne & _).
      by rewrite lookup_insert_ne.
  - unfold job_known in Hkl. rewrite Hpc in Hkl. destruct Hkl as (job & Hin & ->).
    rewrite (worker_step_finally cfg o l _ _ _ Hpc), release_item_lock_eq.
    assert (lock_key (sh_world (mem p)) job = lock_key w0 job) as Hk
      by (unfold lock_key; by rewrite Hcwd).
    rewrite Hk.
    assert (held_lock l = [lock_path_of job]) as Hheld
      by (unfold held_lock; by rewrite Hpc).
    assert (lock_key w0 job ∈ held_keys w0 (threads p)) as Hmine.
    { unfold held_keys, gather. apply list_elem_of_fmap.
      exists (lock_path_of job). split; [done |].
      apply list_elem_of_In, in_concat. exists (held_lock l). split.
      - apply in_map, list_elem_of_In. by eapply list_elem_of_lookup_2.
      - rewrite Hheld. by left. }
    destruct (lk_exists _ _ _ Hlk _ Hmine) as [c1 Hc1]. rewrite Hc1.
    cbn [fst snd]. destruct pend as [e|]; cbn [fst snd];
      apply (lock_inv_drop p i l _ _ _ job); done.
Qed.

Theorem lock_inv_reachable p : reachable cfg w0 p → lock_inv cfg w0 p.
Proof using Hlayout Hmarkers.
  induction 1 as [ths w Hmain | p i o p' Hr IH Hstep].
  - destruct (main_started _ _ _ _ Hmain) as (-> & -> & c & Ht & Hne).
    assert (held_keys w0 (replicate (Nat.max 1 (workers cfg)) fresh_worker) = []) as Hk.
    { unfold held_keys. rewrite gather_nil; [done |].
      apply Forall_forall. by intros l [-> _]%elem_of_replicate. }
    split; simpl; rewrite Hk.
    + intros j Hj Hsome. destruct (markers_path j Hj) as (_ & Hnone & _).
      rewrite Hnone in Hsome. by destruct Hsome.
    + constructor.
    + intros k Hin. by apply elem_of_nil in Hin.
  - eapply lock_inv_step; [|done|done]. by apply list_inv_reachable.
Qed.

End LockInvariant.

(** C6: releasing a marker never raises, and releasing twice is releasing
    once; from the claim on, whatever the pipeline does (success, skip,
    failure or an exception), the worker reaches line 223 with the lock
    path it got and calls the release there; and once every worker has
    ended, no marker of any path of the list exists. *)
Theorem C6_markers_are_released (cfg : config) (w0 : world) :
  (∀ lock w,
     (release_item_lock lock w).1 = Ok tt
     ∧ release_item_lock lock (release_item_lock lock w).2
       = (Ok tt, (release_item_lock lock w).2))
  ∧ (∀ o l s job lk, pc l = WJob job lk →
       (∃ pend, pc (worker_step cfg o l s).1 = WFinally lk pend)
       ∨ pc (worker_step cfg o l s).1 = WLog job lk)
  ∧ (∀ o l s job lk, pc l = WLog job lk →
       ∃ pend, pc (worker_step cfg o l s).1 = WFinally lk pend)
  ∧ (∀ o l s lk pend, pc l = WFinally lk pend →
       sh_world (worker_step cfg o l s).2 = (release_item_lock lk (sh_world s)).2
       ∧ (pc (worker_step cfg o l s).1 = WTop
          ∨ ∃ e, pc (worker_step cfg o l s).1 = WCrashed e))
  ∧ (∀ p, list_apart cfg w0 = true → markers_apart cfg w0 = true →
       reachable cfg w0 p → ended p →
       ∀ j, j ∈ paths0 cfg w0 → stat (sh_world (mem p)) (lock_path_of j) = None).
Proof.
  split; [|split; [|split; [|split]]].
  - intros lock w. split; [apply release_item_lock_ok | apply release_item_lock_twice].
  - intros o l s job lk Hpc. rewrite (worker_step_job cfg o l s job lk Hpc).
    destruct (transcode_file _ _ _ _) as [[[|]|e] w']; cbn [fst pc goto]; eauto.
  - intros o l s job lk Hpc. rewrite (worker_step_log cfg o l s job lk Hpc).
    destruct (log_failure _ _ _) as [[[]|e] w']; cbn [fst pc goto]; eauto.
  - intros o l s lk pend Hpc. rewrite (worker_step_finally cfg o l s lk pend Hpc).
    pose proof (release_item_lock_ok lk (sh_world s)) as Hok.
    destruct (release_item_lock lk (sh_world s)) as [[[]|e] w']; [|done].
    destruct pend as [e|]; cbn [fst snd pc goto sh_world]; eauto.
  - intros p Hlayout Hmarkers Hreach Hended j Hj.
    pose proof (list_inv_reachable cfg w0 Hlayout p Hreach) as Hli.
    pose proof (lock_inv_reachable cfg w0 Hlayout Hmarkers p Hreach) as [Hheld _ _].
    rewrite stat_lock.
    assert (lock_key (sh_world (mem p)) j = lock_key w0 j) as ->
      by (unfold lock_key; by rewrite (li_cwd _ _ _ Hli)).
    destruct (files (sh_world (mem p)) !! lock_key w0 j) as [n|] eqn:E; [|done].
    exfalso. specialize (Hheld j Hj). rewrite E in Hheld.
    specialize (Hheld (mk_is_Some _ _ eq_refl)).
    assert (held_keys w0 (threads p) = []) as Hnil.
    { unfold held_keys. rewrite gather_nil; [done |].
      eapply Forall_impl; [exact Hended |]. intros l Hl. unfold held_lock.
      cbv beta in Hl. revert Hl. by destruct (pc l) as [| | |? []|? []|[] ?| |]. }
    rewrite Hnil in Hheld. by apply elem_of_nil in Hheld.
Qed.

(** At the end of the sample run no marker is left. *)
Lemma C6_markers_are_released_witness :
  ended sample_final
  ∧ ∀ j, j ∈ paths0 sample_config world_start →
         stat (sh_world (mem sample_final)) (lock_path_of j) = None.
Proof.
  assert (Hreach : reachable sample_config world_start sample_final).
  { apply (run_schedule_reachable _ _ sample_schedule sample_start).
    - apply (reach_start sample_config world_start (replicate 2 fresh_worker) world_start).
      vm_compute. reflexivity.
    - vm_compute. reflexivity. }
  assert (He : ended sample_final).
  { unfold ended. vm_compute. repeat constructor. }
  assert (Hl : list_apart sample_config world_start = true) by (vm_compute; reflexivity).
  assert (Hm : markers_apart sample_config world_start = true) by (vm_compute; reflexivity).
  split; [exact He |].
  exact (proj2 (proj2 (proj2 (proj2 (C6_markers_are_released sample_config world_start))))
           sample_final Hl Hm Hreach He).
Defined.

(* ===================================================================== *)
(** * The pipeline, outcome by outcome                                    *)
(* ===================================================================== *)

(** The three files of a job's pipeline and what is known of them. *)
Record pipeline_layout (w : world) (p c : string) (K0 : list string) : Prop := {
  pl_abs : key_of (cwd w) (abspath (cwd w) p) = key_of (cwd w) p;
  pl_file : files w !! key_of (cwd w) p = Some (File c);
  pl_OB : key_of (cwd w) p ≠ key_of (cwd w) (backup_of (cwd w) p);
  pl_OT : key_of (cwd w) p ≠ key_of (cwd w) (temp_of (cwd w) p);
  pl_BT : key_of (cwd w) (backup_of (cwd w) p) ≠ key_of (cwd w) (temp_of (cwd w) p);
  pl_PO : parent (key_of (cwd w) p) = K0;
  pl_PB : parent (key_of (cwd w) (backup_of (cwd w) p)) = K0;
  pl_PT : parent (key_of (cwd w) (temp_of (cwd w) p)) = K0;
  pl_KO : K0 ≠ key_of (cwd w) p;
  pl_KB : K0 ≠ key_of (cwd w) (backup_of (cwd w) p);
  pl_KT : K0 ≠ key_of (cwd w) (temp_of (cwd w) p);
  pl_NA : nonempty (abspath (cwd w) p) = true;
  pl_DA : dir_required (abspath (cwd w) p) = false;
  pl_NB : nonempty (backup_of (cwd w) p) = true;
  pl_DB : dir_required (backup_of (cwd w) p) = false;
  pl_NT : nonempty (temp_of (cwd w) p) = true;
  pl_DT : dir_required (temp_of (cwd w) p) = false
}.

Section Outcomes.

Lemma pipeline_layout_of w p c :
  isabs (cwd w) = true → stat w p = Some (File c) →
  ∃ K0, pipeline_layout w p c K0.
Proof.
  intros Hcwd Hst.
  destruct (pipeline_names w p c Hcwd Hst) as
    (lead & K0 & x & Hlead & HK0 & Hx & HkO & Habs & Hbak & Htmp).
  destruct (stat_file_inv _ _ _ Hst) as (Hp & Hd & Hf).
  assert (Forall clean_comp (K0 ++ [x])) as HcO
    by (apply Forall_app; split; [done | by apply Forall_singleton]).
  assert (clean_comp (x +:+ ".old")) as HxB
    by (apply clean_comp_suffix; [done | done | simpl; lia]).
  assert (clean_comp ("." +:+ x +:+ ".tmp.mkv")) as HxT by by apply clean_comp_temp.
  assert (Forall clean_comp (K0 ++ [x +:+ ".old"])) as HcB
    by (apply Forall_app; split; [done | by apply Forall_singleton]).
  assert (Forall clean_comp (K0 ++ ["." +:+ x +:+ ".tmp.mkv"])) as HcT
    by (apply Forall_app; split; [done | by apply Forall_singleton]).
  assert (key_of (cwd w) (backup_of (cwd w) p) = K0 ++ [x +:+ ".old"]) as EB
    by (rewrite Hbak; by apply key_of_canon).
  assert (key_of (cwd w) (temp_of (cwd w) p) = K0 ++ ["." +:+ x +:+ ".tmp.mkv"]) as ET
    by (rewrite Htmp; by apply key_of_canon).
  exists K0. split; rewrite ?EB, ?ET, ?HkO, ?parent_snoc; try done.
  - rewrite Habs. by apply key_of_canon.
  - by rewrite <- HkO.
  - apply snoc_inj_ne, append_ne_self. simpl. lia.
  - apply snoc_inj_ne. intros Heq. apply (f_equal String.length) in Heq.
    simpl in Heq. rewrite length_append in Heq. simpl in Heq. lia.
  - apply snoc_inj_ne. intros Heq. apply (f_equal String.length) in Heq.
    simpl in Heq. rewrite !length_append in Heq. simpl in Heq. lia.
  - intros Heq. apply (f_equal length) in Heq. rewrite length_app in Heq.
    simpl in Heq. lia.
  - intros Heq. apply (f_equal length) in Heq. rewrite length_app in Heq.
    simpl in Heq. lia.
  - intros Heq. apply (f_equal length) in Heq. rewrite length_app in Heq.
    simpl in Heq. lia.
  - rewrite Habs. by apply nonempty_canon.
  - rewrite Habs. by apply dir_required_canon.
  - rewrite Hbak. by apply nonempty_canon.
  - rewrite Hbak. by apply dir_required_canon.
  - rewrite Htmp. by apply nonempty_canon.
  - rewrite Htmp. by apply dir_required_canon.
Qed.

(** A rename that raises has changed nothing. *)
Lemma os_rename_raises src dst v e v' :
  os_rename src dst v = (Raise e, v') → v' = v.
Proof.
  unfold os_rename. intros H.
  repeat (case_match; simplify_eq; try done).
Qed.

(** Whether a rename goes through is decided by the files and the
    working directory alone. *)
Lemma os_rename_result src dst v v' :
  files v' = files v → cwd v' = cwd v →
  (os_rename src dst v').1 = (os_rename src dst v).1.
Proof.
  intros Hf Hc. unfold os_rename, check_parent. rewrite Hf, Hc.
  repeat (case_match; simplify_eq; try done).
Qed.

(** Lines 127-145 for a regular file with a codec to transcode. *)
Lemma transcode_file_reaches_rename w p out eo :
  isfile w p = true →
  nonempty (lower (strip out)) = true →
  lower (strip out) ∈ inefficient_codecs →
  transcode_file (ProbeExit0 out) eo p w =
    rename_and_encode eo (abspath (cwd w) p) (backup_of (cwd w) p) (temp_of (cwd w) p)
      (extend w (files w) [EvProbe p]).
Proof.
  intros Hisf Hne Hin. rewrite transcode_file_unfold.
  rewrite bind_eq, os_path_isfile_eq, Hisf. norm.
  rewrite bind_eq, get_video_codec_exit0, Hne. norm.
  unfold truthy. rewrite Hne. norm. simpl default.
  rewrite bool_decide_eq_true_2 by done. norm.
  by rewrite bind_eq, os_getcwd_eq.
Qed.

(** Lines 150-154: the backup rename raises. *)
Lemma transcode_file_rename_fails w p out eo e :
  isfile w p = true →
  nonempty (lower (strip out)) = true →
  lower (strip out) ∈ inefficient_codecs →
  (os_rename (abspath (cwd w) p) (backup_of (cwd w) p) w).1 = Raise e →
  transcode_file (ProbeExit0 out) eo p w = (Ok false, extend w (files w) [EvProbe p]).
Proof.
  intros Hisf Hne Hin Hren.
  rewrite (transcode_file_reaches_rename w p out eo Hisf Hne Hin).
  set (w1 := extend w (files w) [EvProbe p]).
  assert ((os_rename (abspath (cwd w) p) (backup_of (cwd w) p) w1).1 = Raise e) as Hren1
    by (rewrite <- Hren; by apply os_rename_result).
  unfold rename_and_encode.
  rewrite bind_eq, try_except_eq, bind_eq.
  destruct (os_rename _ _ w1) as [[[]|e'] w'] eqn:E; [done |].
  apply os_rename_raises in E as ->. norm. by rewrite ret_eq.
Qed.

(** The backup rename, when it goes through. *)
Lemma backup_rename_done w p c K0 v :
  pipeline_layout w p c K0 →
  cwd v = cwd w → files v = files w →
  (os_rename (abspath (cwd w) p) (backup_of (cwd w) p) w).1 = Ok tt →
  files w !! K0 = Some Dir
  ∧ files w !! key_of (cwd w) (backup_of (cwd w) p) ≠ Some Dir
  ∧ os_rename (abspath (cwd w) p) (backup_of (cwd w) p) v =
      (Ok tt, extend v (<[key_of (cwd w) (backup_of (cwd w) p) := File c]>
                          (delete (key_of (cwd w) p) (files w)))
                [EvRename (key_of (cwd w) p) (key_of (cwd w) (backup_of (cwd w) p))]).
Proof.
  intros L Hc Hf Hren.
  assert (∀ u, cwd u = cwd w → files u = files w →
            os_rename (abspath (cwd w) p) (backup_of (cwd w) p) u =
              match check_parent w (key_of (cwd w) (backup_of (cwd w) p)) with
              | Some e => (Raise e, u)
              | None =>
                  match files w !! key_of (cwd w) (backup_of (cwd w) p) with
                  | Some Dir => (Raise IsADirectoryError, u)
                  | _ => (Ok tt, extend u (<[key_of (cwd w) (backup_of (cwd w) p) := File c]>
                                             (delete (key_of (cwd w) p) (files w)))
                                   [EvRename (key_of (cwd w) p)
                                      (key_of (cwd w) (backup_of (cwd w) p))])
                  end
              end) as Hgen.
  { intros u Hcu Hfu.
    assert (files u !! key_of (cwd u) (abspath (cwd w) p) = Some (File c)) as HfA
      by (rewrite Hcu, Hfu, (pl_abs _ _ _ _ L); apply (pl_file _ _ _ _ L)).
    assert (key_of (cwd u) (abspath (cwd w) p) ≠ key_of (cwd u) (backup_of (cwd w) p)) as Hne
      by (rewrite Hcu, (pl_abs _ _ _ _ L); apply (pl_OB _ _ _ _ L)).
    rewrite (os_rename_file _ _ c u (pl_NA _ _ _ _ L) (pl_NB _ _ _ _ L)
               (pl_DA _ _ _ _ L) (pl_DB _ _ _ _ L) HfA Hne).
    rewrite Hcu, Hfu, (pl_abs _ _ _ _ L).
    unfold check_parent. by rewrite Hfu. }
  rewrite (Hgen w eq_refl eq_refl) in Hren. rewrite (Hgen v Hc Hf).
  destruct (check_parent w _) as [e|] eqn:Hpar; [done |].
  unfold check_parent in Hpar. rewrite (pl_PB _ _ _ _ L) in Hpar.
  split; [by destruct (files w !! K0) as [[?|]|] |].
  split; [intros HB; by rewrite HB in Hren |].
  by destruct (files w !! key_of (cwd w) (backup_of (cwd w) p)) as [[?|]|].
Qed.

(** Lines 168-169 when the encoder cannot be started: the exception
    leaves the function with the original under its backup name. *)
Lemma transcode_file_spawn_error w p c out :
  isabs (cwd w) = true →
  stat w p = Some (File c) →
  nonempty (lower (strip out)) = true →
  lower (strip out) ∈ inefficient_codecs →
  (os_rename (abspath (cwd w) p) (backup_of (cwd w) p) w).1 = Ok tt →
  let kO := key_of (cwd w) p in
  let kB := key_of (cwd w) (backup_of (cwd w) p) in
  transcode_file (ProbeExit0 out) EncodeSpawnError p w =
    (Raise OSError,
     extend w (<[kB := File c]> (delete kO (files w))) [EvProbe p; EvRename kO kB]).
Proof.
  intros Hcwd Hst Hne Hin Hren kO kB.
  destruct (pipeline_layout_of w p c Hcwd Hst) as [K0 L].
  assert (isfile w p = true) as Hisf by (unfold isfile; by rewrite Hst).
  rewrite (transcode_file_reaches_rename w p out _ Hisf Hne Hin).
  set (w1 := extend w (files w) [EvProbe p]).
  destruct (backup_rename_done w p c K0 w1 L eq_refl eq_refl Hren) as (_ & _ & Hr1).
  unfold rename_and_encode.
  rewrite bind_eq, try_except_eq, bind_eq, Hr1, ret_eq. norm.
  unfold w1. rewrite extend_extend. simpl app.
  by rewrite try_except_eq, bind_eq.
Qed.

(** Lines 168-173 when the encoder exits with status 0 and has written
    its output. *)
Lemma transcode_file_encode_succeeds w p c out d :
  isabs (cwd w) = true →
  stat w p = Some (File c) →
  nonempty (lower (strip out)) = true →
  lower (strip out) ∈ inefficient_codecs →
  (os_rename (abspath (cwd w) p) (backup_of (cwd w) p) w).1 = Ok tt →
  stat w (temp_of (cwd w) p) ≠ Some Dir →
  let kO := key_of (cwd w) p in
  let kB := key_of (cwd w) (backup_of (cwd w) p) in
  let kT := key_of (cwd w) (temp_of (cwd w) p) in
  ∃ w',
    transcode_file (ProbeExit0 out) (EncodeExit true (Some d)) p w = (Ok true, w')
    ∧ cwd w' = cwd w
    ∧ files w' !! kO = Some (File d)
    ∧ files w' !! kB = None
    ∧ files w' !! kT = None
    ∧ (∀ k, k ≠ kO → k ≠ kB → k ≠ kT → files w' !! k = files w !! k)
    ∧ trace w' = trace w ++ [EvProbe p; EvRename kO kB;
                             EvEncode (backup_of (cwd w) p) (temp_of (cwd w) p);
                             EvRename kT kO; EvRemove kB].
Proof.
  intros Hcwd Hst Hne Hin Hren Htmp kO kB kT.
  destruct (pipeline_layout_of w p c Hcwd Hst) as [K0 L].
  pose proof L as [EA HfO HOB HOT HBT PO PB PT HKO HKB HKT NA DA NB DB NT DT].
  fold kO in EA, HfO, HOB, HOT, PO, HKO. fold kB in HOB, HBT, PB, HKB.
  fold kT in HOT, HBT, PT, HKT.
  assert (isfile w p = true) as Hisf by (unfold isfile; by rewrite Hst).
  rewrite (transcode_file_reaches_rename w p out _ Hisf Hne Hin).
  set (w1 := extend w (files w) [EvProbe p]).
  destruct (backup_rename_done w p c K0 w1 L eq_refl eq_refl Hren) as (HK0dir & HBnd & Hr1).
  fold kO kB in Hr1.
  rewrite stat_plain in Htmp by done. fold kT in Htmp.
  unfold rename_and_encode.
  rewrite bind_eq, try_except_eq, bind_eq, Hr1, ret_eq. norm.
  unfold w1. rewrite extend_extend. simpl app.
  set (F2 := <[kB := File c]> (delete kO (files w))).
  set (w2 := extend w F2 _).
  (* line 169 *)
  rewrite try_except_eq, bind_eq, run_ffmpeg_exit. norm.
  assert (F2 !! kT = files w !! kT) as HF2t
    by (unfold F2; rewrite lookup_insert_ne, lookup_delete_ne; done).
  assert (F2 !! K0 = Some Dir) as HF2k
    by (unfold F2; rewrite lookup_insert_ne, lookup_delete_ne; done).
  assert (writable w2 (temp_of (cwd w) p) = true) as Hwr.
  { unfold writable. rewrite NT, DT. simpl. fold kT. rewrite HF2t.
    unfold check_parent. simpl. rewrite PT, HF2k.
    by destruct (files w !! kT) as [[?|]|]. }
  unfold encoded_files. rewrite Hwr. simpl cwd. fold kT.
  unfold w2. rewrite extend_extend. simpl app. simpl files.
  set (F3 := <[kT := File d]> F2).
  set (w3 := extend w F3 _).
  (* line 170 *)
  assert (files w3 !! key_of (cwd w3) (temp_of (cwd w) p) = Some (File d)) as HfT
    by (simpl; fold kT; unfold F3; by rewrite lookup_insert_eq).
  assert (key_of (cwd w3) (temp_of (cwd w) p) ≠ key_of (cwd w3) (abspath (cwd w) p)) as HneTO
    by (simpl; rewrite EA; done).
  pose proof (os_rename_file _ _ d w3 NT NA DT DA HfT HneTO) as Hr2.
  change (cwd w3) with (cwd w) in Hr2. rewrite EA in Hr2. fold kT in Hr2.
  assert (check_parent w3 kO = None) as HparO.
  { unfold check_parent. simpl. rewrite PO. unfold F3.
    rewrite lookup_insert_ne by done. by rewrite HF2k. }
  rewrite HparO in Hr2.
  assert (files w3 !! kO = None) as HF3none.
  { simpl. unfold F3, F2. rewrite !lookup_insert_ne by done. apply lookup_delete_eq. }
  rewrite HF3none in Hr2. change (files w3) with F3 in Hr2.
  rewrite bind_eq, Hr2. norm. unfold w3. rewrite extend_extend. simpl app.
  set (F4 := <[kO := File d]> (delete kT F3)).
  set (w4 := extend w F4 _).
  (* line 171 *)
  assert (files w4 !! key_of (cwd w4) (backup_of (cwd w) p) = Some (File c)) as HfB.
  { simpl. fold kB. unfold F4, F3, F2.
    rewrite lookup_insert_ne, lookup_delete_ne, lookup_insert_ne by done.
    by rewrite lookup_insert_eq. }
  rewrite bind_eq, (os_remove_file _ c w4 NB DB HfB). norm. rewrite ret_eq.
  change (key_of (cwd w4) (backup_of (cwd w) p)) with kB.
  unfold w4. rewrite extend_extend. simpl app.
  eexists. split; [reflexivity |]. simpl.
  split; [done |]. split.
  { rewrite lookup_delete_ne by done. unfold F4. by rewrite lookup_insert_eq. }
  split; [apply lookup_delete_eq |]. split.
  { rewrite lookup_delete_ne by done. unfold F4.
    rewrite lookup_insert_ne by done. apply lookup_delete_eq. }
  split; [|done].
  intros k H1 H2 H3. unfold F4, F3, F2.
  rewrite lookup_delete_ne, lookup_insert_ne, lookup_delete_ne by done.
  rewrite !lookup_insert_ne, lookup_delete_ne; done.
Qed.

End Outcomes.

(** X1: when the backup rename goes through and the encoder exits with
    status 0 having written its output, the pipeline commits: the original
    path holds the encoder's output, neither the backup nor the temporary
    file is left, no other file has changed, the result is [True], and the
    worker goes to the release without logging anything. *)
Theorem transcode_success_replaces_original
  (cfg : config) (o : outcomes) (l : worker_local) (s : shared)
  (job out c d : string) (lock : option string) :
  pc l = WJob job lock →
  isabs (cwd (sh_world s)) = true →
  stat (sh_world s) job = Some (File c) →
  on_probe o = ProbeExit0 out →
  nonempty (lower (strip out)) = true →
  lower (strip out) ∈ inefficient_codecs →
  on_encode o = EncodeExit true (Some d) →
  (os_rename (abspath (cwd (sh_world s)) job) (backup_of (cwd (sh_world s)) job)
     (sh_world s)).1 = Ok tt →
  stat (sh_world s) (temp_of (cwd (sh_world s)) job) ≠ Some Dir →
  let w := sh_world s in
  let backup := backup_of (cwd w) job in
  let temp := temp_of (cwd w) job in
  let kO := key_of (cwd w) job in
  let kB := key_of (cwd w) backup in
  let kT := key_of (cwd w) temp in
  let r1 := worker_step cfg o l s in
  let w1 := sh_world r1.2 in
  (transcode_file (on_probe o) (on_encode o) job w).1 = Ok true
  ∧ pc r1.1 = WFinally lock None
  ∧ stat w1 job = Some (File d)
  ∧ stat w1 backup = None
  ∧ stat w1 temp = None
  ∧ (∀ k, k ≠ kO → k ≠ kB → k ≠ kT → files w1 !! k = files w !! k)
  ∧ trace w1 = trace w ++ [EvProbe job; EvRename kO kB; EvEncode backup temp;
                           EvRename kT kO; EvRemove kB].
Proof.
  intros Hpc Hcwd Hst Hpo Hne Hin Heo Hren Htmp w backup temp kO kB kT r1 w1.
  destruct (transcode_file_encode_succeeds w job c out d Hcwd Hst Hne Hin Hren Htmp)
    as (w' & Ht & Hcw & HO & HB & HT & Hothers & Htr).
  fold backup temp in HO, HB, HT, Hothers, Htr. fold kO kB kT in HO, HB, HT, Hothers, Htr.
  assert (r1 = (goto l (WFinally lock None),
                {| sh_world := w'; global_counter := global_counter s |})) as Hr1.
  { unfold r1. rewrite (worker_step_job cfg o l s job lock Hpc), Hpo, Heo.
    fold w. by rewrite Ht. }
  assert (w1 = w') as Hw1 by (unfold w1; by rewrite Hr1).
  destruct (stat_file_inv _ _ _ Hst) as (Hp & Hd & Hf).
  destruct (pipeline_layout_of w job c Hcwd Hst) as [K0 L].
  rewrite Hpo, Heo, Ht, Hr1, Hw1. cbn [fst snd pc goto].
  split; [done |]. split; [done |].
  split; [rewrite stat_plain by done; by rewrite Hcw |].
  split; [rewrite stat_plain by apply L; by rewrite Hcw |].
  split; [rewrite stat_plain by apply L; by rewrite Hcw |].
  done.
Qed.

Definition world_one_job : world :=
  {| files := list_to_map
       [([], Dir); (["data"], Dir); (["work"], Dir);
        (["data"; "a.mkv"], File "AAAA");
        (["data"; "a.mkv.transcode.lock"], File "");
        (["work"; "transcode_list.txt"], File "")];
     cwd := "/work"; trace := [] |}.

(** An h264 file that is encoded to "hevc-A". *)
Lemma transcode_success_replaces_original_witness :
  let o := {| on_probe := ProbeExit0 "h264";
              on_encode := EncodeExit true (Some "hevc-A") |} in
  let s := {| sh_world := world_one_job; global_counter := 0 |} in
  let r1 := worker_step sample_config o (at_job "/data/a.mkv") s in
  pc r1.1 = WFinally (Some (lock_path_of "/data/a.mkv")) None
  ∧ stat (sh_world r1.2) "/data/a.mkv" = Some (File "hevc-A")
  ∧ stat (sh_world r1.2) "/data/a.mkv.old" = None
  ∧ stat (sh_world r1.2) "/data/.a.mkv.tmp.mkv" = None.
Proof.
  intros o s r1.
  assert (lower (strip "h264") ∈ inefficient_codecs) as Hin by (vm_compute; reflexivity).
  assert (stat world_one_job (temp_of (cwd world_one_job) "/data/a.mkv") ≠ Some Dir)
    as Htmp by (vm_compute; discriminate).
  destruct (transcode_success_replaces_original sample_config o (at_job "/data/a.mkv") s
              "/data/a.mkv" "h264" "AAAA" "hevc-A" _
              eq_refl eq_refl eq_refl eq_refl eq_refl Hin eq_refl eq_refl Htmp)
    as (_ & H1 & H2 & H3 & H4 & _).
  repeat split; assumption.
Defined.

(** X2: when the backup rename raises, whatever the error, the pipeline
    returns [False] having changed no file and without running the
    encoder; the worker goes on to log the job. *)
Theorem backup_rename_failure_changes_nothing
  (cfg : config) (o : outcomes) (l : worker_local) (s : shared)
  (job out : string) (lock : option string) (e : exn) :
  pc l = WJob job lock →
  isfile (sh_world s) job = true →
  on_probe o = ProbeExit0 out →
  nonempty (lower (strip out)) = true →
  lower (strip out) ∈ inefficient_codecs →
  (os_rename (abspath (cwd (sh_world s)) job) (backup_of (cwd (sh_world s)) job)
     (sh_world s)).1 = Raise e →
  let w := sh_world s in
  let r1 := worker_step cfg o l s in
  transcode_file (on_probe o) (on_encode o) job w
    = (Ok false, extend w (files w) [EvProbe job])
  ∧ pc r1.1 = WLog job lock
  ∧ files (sh_world r1.2) = files w
  ∧ trace (sh_world r1.2) = trace w ++ [EvProbe job].
Proof.
  intros Hpc Hisf Hpo Hne Hin Hren w r1.
  pose proof (transcode_file_rename_fails w job out (on_encode o) e Hisf Hne Hin Hren) as Ht.
  rewrite Hpo. split; [exact Ht |].
  unfold r1. rewrite (worker_step_job cfg o l s job lock Hpc), Hpo. fold w.
  by rewrite Ht.
Qed.

(** A directory sits where the backup is to go. *)
Definition world_backup_blocked : world :=
  {| files := list_to_map
       [([], Dir); (["data"], Dir); (["work"], Dir);
        (["data"; "a.mkv"], File "AAAA");
        (["data"; "a.mkv.old"], Dir);
        (["work"; "transcode_list.txt"], File "")];
     cwd := "/work"; trace := [] |}.

Lemma backup_rename_failure_changes_nothing_witness :
  let o := {| on_probe := ProbeExit0 "h264";
              on_encode := EncodeExit true (Some "hevc-A") |} in
  let s := {| sh_world := world_backup_blocked; global_counter := 0 |} in
  let r1 := worker_step sample_config o (at_job "/data/a.mkv") s in
  pc r1.1 = WLog "/data/a.mkv" (Some (lock_path_of "/data/a.mkv"))
  ∧ files (sh_world r1.2) = files world_backup_blocked.
Proof.
  intros o s r1.
  assert (lower (strip "h264") ∈ inefficient_codecs) as Hin by (vm_compute; reflexivity).
  destruct (backup_rename_failure_changes_nothing sample_config o (at_job "/data/a.mkv") s
              "/data/a.mkv" "h264" _ IsADirectoryError
              eq_refl eq_refl eq_refl eq_refl Hin eq_refl)
    as (_ & H1 & H2 & _).
  split; assumption.
Defined.

(** X3: when the probe exits with a failure, or prints nothing but white
    space, the codec is unknown: the pipeline returns [False] having
    changed no file and run no encoder, and the worker goes on to log the
    job. *)
Theorem probe_failure_changes_nothing
  (cfg : config) (o : outcomes) (l : worker_local) (s : shared)
  (job : string) (lock : option string) :
  pc l = WJob job lock →
  isfile (sh_world s) job = true →
  (on_probe o = ProbeNonZero ∨ ∃ out, on_probe o = ProbeExit0 out ∧ strip out = "") →
  let w := sh_world s in
  let r1 := worker_step cfg o l s in
  (get_video_codec (on_probe o) job w).1 = Ok None
  ∧ transcode_file (on_probe o) (on_encode o) job w
    = (Ok false, extend w (files w) [EvProbe job])
  ∧ pc r1.1 = WLog job lock
  ∧ files (sh_world r1.2) = files w
  ∧ trace (sh_world r1.2) = trace w ++ [EvProbe job].
Proof.
  intros Hpc Hisf Hpo w r1.
  assert ((get_video_codec (on_probe o) job w) =
            (Ok None, extend w (files w) [EvProbe job])) as Hg.
  { destruct Hpo as [-> | (out & -> & Hout)]; [done |].
    rewrite get_video_codec_exit0, Hout. done. }
  assert (transcode_file (on_probe o) (on_encode o) job w
          = (Ok false, extend w (files w) [EvProbe job])) as Ht.
  { change (isfile w job = true) in Hisf. rewrite transcode_file_unfold.
    rewrite bind_eq, os_path_isfile_eq, Hisf. norm.
    by rewrite bind_eq, Hg. }
  rewrite Hg. split; [done |]. split; [exact Ht |].
  unfold r1. rewrite (worker_step_job cfg o l s job lock Hpc). fold w.
  by rewrite Ht.
Qed.

Lemma probe_failure_changes_nothing_witness :
  let o := {| on_probe := ProbeExit0 (String LF ""); on_encode := EncodeSpawnError |} in
  let s := {| sh_world := world_one_job; global_counter := 0 |} in
  let r1 := worker_step sample_config o (at_job "/data/a.mkv") s in
  pc r1.1 = WLog "/data/a.mkv" (Some (lock_path_of "/data/a.mkv"))
  ∧ files (sh_world r1.2) = files world_one_job.
Proof.
  intros o s r1.
  destruct (probe_failure_changes_nothing sample_config o (at_job "/data/a.mkv") s
              "/data/a.mkv" _ eq_refl eq_refl
              (or_intror (ex_intro _ (String LF "") (conj eq_refl eq_refl))))
    as (_ & _ & H1 & H2 & _).
  split; assumption.
Defined.

(** X4: whatever the probe and the encoder do, a call of [transcode_file]
    on a regular file never loses its content.  Afterwards the original
    path holds the original bytes; or the encoder could not be started and
    they lie under the backup name; or the encoder succeeded and the
    original path holds its output.  (An encoder that exits with status 0
    is taken to have written its output file.) *)
Theorem original_survives_every_outcome
  (po : probe_outcome) (eo : encode_outcome) (w : world) (p c : string) :
  isabs (cwd w) = true →
  stat w p = Some (File c) →
  (∀ out, eo = EncodeExit true out →
     is_Some out ∧ stat w (temp_of (cwd w) p) ≠ Some Dir) →
  let r := transcode_file po eo p w in
  let backup := backup_of (cwd w) p in
  cwd r.2 = cwd w
  ∧ (stat r.2 p = Some (File c)
     ∨ (r.1 = Raise OSError ∧ stat r.2 p = None ∧ stat r.2 backup = Some (File c))
     ∨ (∃ d, eo = EncodeExit true (Some d) ∧ r.1 = Ok true
             ∧ stat r.2 p = Some (File d) ∧ stat r.2 backup = None)).
Proof.
  intros Hcwd Hst Henc r backup.
  destruct (stat_file_inv _ _ _ Hst) as (Hp & Hd & Hf).
  destruct (pipeline_layout_of w p c Hcwd Hst) as [K0 L].
  assert (isfile w p = true) as Hisf by (unfold isfile; by rewrite Hst).
  assert (∀ evs, stat (extend w (files w) evs) p = Some (File c)) as Hsame.
  { intros evs. rewrite stat_plain by done. exact Hf. }
  destruct po as [out| |].
  - destruct (nonempty (lower (strip out))) eqn:Hne.
    + destruct (decide (lower (strip out) ∈ inefficient_codecs)) as [Hin|Hnot].
      * destruct ((os_rename (abspath (cwd w) p) (backup_of (cwd w) p) w).1)
          as [[]|e] eqn:Hren.
        -- destruct eo as [[|] eout|].
           ++ destruct (Henc eout eq_refl) as [[d ->] Htmp].
              destruct (transcode_file_encode_succeeds w p c out d
                          Hcwd Hst Hne Hin Hren Htmp)
                as (w' & Ht & Hcw & HO & HB & _).
              unfold r. rewrite Ht. simpl. split; [done |]. right. right.
              exists d. split; [done |]. split; [done |].
              split; [rewrite stat_plain by done; by rewrite Hcw |].
              unfold backup. rewrite stat_plain by apply L. by rewrite Hcw.
           ++ destruct (transcode_file_encode_fails w p c out eout
                          Hcwd Hst Hne Hin Hren)
                as (w' & evs & Ht & Hcw & HO & _).
              unfold r. rewrite Ht. simpl. split; [done |]. left.
              rewrite stat_plain by done. by rewrite Hcw.
           ++ unfold r.
              rewrite (transcode_file_spawn_error w p c out Hcwd Hst Hne Hin Hren).
              simpl. split; [done |]. right. left. split; [done |].
              split.
              ** rewrite stat_plain by done. simpl.
                 rewrite lookup_insert_ne by (apply not_eq_sym, L).
                 apply lookup_delete_eq.
              ** unfold backup. rewrite stat_plain by apply L. simpl.
                 apply lookup_insert_eq.
        -- unfold r.
           rewrite (transcode_file_rename_fails w p out eo e Hisf Hne Hin Hren).
           split; [done |]. left. apply Hsame.
      * unfold r. rewrite (transcode_file_skips _ eo out p w Hisf eq_refl Hne Hnot).
        split; [done |]. left. apply Hsame.
    + unfold r. rewrite transcode_file_unfold.
      rewrite bind_eq, os_path_isfile_eq, Hisf. norm.
      rewrite bind_eq, get_video_codec_exit0, Hne. norm.
      split; [done |]. left. apply Hsame.
  - unfold r. rewrite transcode_file_unfold.
    rewrite bind_eq, os_path_isfile_eq, Hisf. norm.
    rewrite bind_eq, get_video_codec_nonzero. norm.
    split; [done |]. left. apply Hsame.
  - unfold r. rewrite transcode_file_unfold.
    rewrite bind_eq, os_path_isfile_eq, Hisf. norm.
    rewrite bind_eq, get_video_codec_spawn_error.
    split; [done |]. by left.
Qed.

(** The encoder cannot be started: the content is under the backup name. *)
Lemma original_survives_every_outcome_witness :
  let r := transcode_file (ProbeExit0 "h264") (EncodeExit true (Some "hevc-A"))
             "/data/a.mkv" world_one_job in
  stat r.2 "/data/a.mkv" = Some (File "AAAA")
  ∨ (r.1 = Raise OSError ∧ stat r.2 "/data/a.mkv" = None
     ∧ stat r.2 "/data/a.mkv.old" = Some (File "AAAA"))
  ∨ (∃ d, EncodeExit true (Some "hevc-A") = EncodeExit true (Some d) ∧ r.1 = Ok true
          ∧ stat r.2 "/data/a.mkv" = Some (File d)
          ∧ stat r.2 "/data/a.mkv.old" = None).
Proof.
  refine (proj2 (original_survives_every_outcome (ProbeExit0 "h264")
                   (EncodeExit true (Some "hevc-A")) world_one_job "/data/a.mkv" "AAAA"
                   eq_refl eq_refl _)).
  intros out [= <-]. split; [by eexists | vm_compute; discriminate].
Defined.

Section FailureLog.

Lemma startswith_app a b : startswith (a +:+ b) a = true.
Proof. induction a as [|c a IH]; simpl; [done |]. by rewrite Ascii.eqb_refl. Qed.

Lemma rstrip_by_length f s : String.length (rstrip_by f s) ≤ String.length s.
Proof.
  induction s as [|a s IH]; simpl; [done |].
  destruct (rstrip_by f s); [destruct (f a) |]; simpl in *; lia.
Qed.

Lemma rstrip_fixed_end f s c :
  f c = true → rstrip_by f s = s → ends_with_char s c = false.
Proof.
  intros Hc Hs. destruct (ends_with_char s c) eqn:E; [|done].
  apply ends_with_char_snoc in E as [s' ->].
  rewrite rstrip_by_snoc_strip in Hs by done.
  pose proof (rstrip_by_length f s') as Hl. rewrite Hs, length_snoc in Hl. lia.
Qed.

Lemma ends_with_char_app s c : ends_with_char (s +:+ String c "") c = true.
Proof.
  induction s as [|a s IH]; simpl; [apply Ascii.eqb_refl |].
  destruct (s +:+ String c "") eqn:E; [by destruct s | done].
Qed.

(** Lines 217-219 on a path that line 95 made. *)
Lemma failure_rel_of_join base x :
  startswith x sep = false →
  rstrip_chars sep base = base ∨ rstrip_chars sep base +:+ sep = base →
  (if startswith (join2 base x) (rstrip_chars sep base +:+ sep)
   then slice_from (String.length (rstrip_chars sep base) + 1) (join2 base x)
   else join2 base x) = x.
Proof.
  intros Hx [H|H]; unfold join2; rewrite Hx.
  - rewrite H. destruct base as [|a base'] eqn:Eb; [change ("" +:+ sep) with sep; cbn [nonempty negb orb]; change ("" +:+ x) with x; by rewrite Hx |].
    rewrite <- Eb in *.
    assert (ends_with_char base slash = false) as ->.
    { apply (rstrip_fixed_end (in_chars sep)); [done | exact H]. }
    assert (nonempty base = true) as -> by by rewrite Eb.
    simpl negb. simpl orb. cbv iota.
    rewrite <- append_assoc, startswith_app.
    replace (String.length base + 1) with (String.length (base +:+ sep))
      by (rewrite length_append; done).
    apply slice_from_app.
  - remember (rstrip_chars sep base) as b0 eqn:Hb0. subst base.
    assert (ends_with_char (b0 +:+ sep) slash = true) as -> by apply ends_with_char_app.
    rewrite orb_true_r.
    rewrite startswith_app.
    replace (String.length b0 + 1) with (String.length (b0 +:+ sep))
      by (rewrite length_append; done).
    apply slice_from_app.
Qed.

End FailureLog.

(** X5: for a job that came from the list, the path written to the
    failure log is the listed path without its quotes and leading
    separators: cutting the base directory off again undoes the join of
    line 95.  When the base directory ends in at most one separator.  Read
    again as a line of a list, it names the same file, provided stripping
    the quotes once left none at its ends. *)
Theorem logged_path_is_listed_path (cfg : config) (rel : string) :
  (rstrip_chars sep (base_path cfg) = base_path cfg
   ∨ rstrip_chars sep (base_path cfg) +:+ sep = base_path cfg) →
  failure_rel cfg (full_path cfg rel) = lstrip_chars sep (rel_clean rel)
  ∧ (rel_clean (lstrip_chars sep (rel_clean rel)) = lstrip_chars sep (rel_clean rel) →
     full_path cfg (failure_rel cfg (full_path cfg rel)) = full_path cfg rel).
Proof.
  intros Hbase.
  assert (failure_rel cfg (full_path cfg rel) = lstrip_chars sep (rel_clean rel)) as H.
  { unfold failure_rel, full_path. cbv zeta.
    apply failure_rel_of_join; [apply lstrip_chars_not_startswith | done]. }
  split; [exact H |]. intros Hclean. rewrite H.
  unfold full_path at 1. rewrite Hclean. unfold lstrip_chars. by rewrite lstrip_by_idem.
Qed.

Lemma logged_path_is_listed_path_witness :
  failure_rel sample_config (full_path sample_config "'/movies/a.mkv'") = "movies/a.mkv".
Proof.
  exact (proj1 (logged_path_is_listed_path sample_config "'/movies/a.mkv'"
                  (or_introl eq_refl))).
Defined.

(** X6: creating a marker and releasing it is a round trip.  A creation
    that succeeds found no file under the marker's name and adds one empty
    file there and nothing else; the release that follows gives back the
    files as they were before, and the marker can then be created again. *)
Theorem lock_then_release_restores_files (path lock : string) (w w1 : world) :
  make_item_lock path w = (Ok (Some lock), w1) →
  let w2 := (release_item_lock (Some lock) w1).2 in
  lock = path +:+ ".transcode.lock"
  ∧ stat w lock = None
  ∧ stat w1 lock = Some (File "")
  ∧ (∀ k, k ≠ key_of (cwd w) lock → files w1 !! k = files w !! k)
  ∧ (release_item_lock (Some lock) w1).1 = Ok tt
  ∧ files w2 = files w
  ∧ (make_item_lock path w2).1 = Ok (Some lock).
Proof.
  rewrite make_item_lock_eq. intros H w2.
  destruct (lock_status w path) eqn:Hs; [done | done |].
  injection H as <- <-.
  destruct (free_iff_creation_succeeds _ _ Hs) as [Hnone _].
  assert (w2 = extend w (delete (lock_key w path) (<[lock_key w path := File ""]> (files w)))
                 [EvCreate (lock_key w path); EvRemove (lock_key w path)]) as Hw2.
  { unfold w2. rewrite release_item_lock_eq. rewrite lock_key_extend, files_extend.
    rewrite lookup_insert_eq. cbn [snd]. by rewrite extend_extend. }
  assert (files w2 = files w) as Hf2.
  { rewrite Hw2, files_extend. rewrite delete_insert_eq. by apply delete_id. }
  split; [done |]. split; [by rewrite stat_lock |].
  split; [rewrite stat_lock, lock_key_extend, files_extend; apply lookup_insert_eq |].
  split; [intros k Hk; rewrite files_extend; by apply lookup_insert_ne |].
  split; [apply release_item_lock_ok |]. split; [exact Hf2 |].
  rewrite make_item_lock_eq.
  assert (lock_status w2 path = LockFree) as ->; [|done].
  assert (cwd w2 = cwd w) as Hc2 by (by rewrite Hw2).
  unfold lock_status, check_parent, lock_key in *. by rewrite Hf2, Hc2.
Qed.

Lemma lock_then_release_restores_files_witness :
  files (release_item_lock (Some "/data/b.mkv.transcode.lock")
           (make_item_lock "/data/b.mkv" world_two_jobs).2).2
  = files world_two_jobs.
Proof.
  exact (proj1 (proj2 (proj2 (proj2 (proj2 (proj2
           (lock_then_release_restores_files "/data/b.mkv" _ world_two_jobs _
              eq_refl))))))).
Defined.

(** X7: [main] changes no file.  It ends the program with a failure when
    the list does not exist, returns without starting a worker when the
    list holds no line, and otherwise starts [max(1, workers)] workers, at
    least one.  Its test for work to do is the test by which a worker
    decides to stay in its loop (lines 201-207). *)
Theorem main_starts_workers_when_there_is_work (cfg : config) (w : world) :
  (main cfg w).2 = w
  ∧ (path_exists w (input_file cfg) = false → (main cfg w).1 = Ok ExitFailure)
  ∧ (∀ c, list_text cfg w = Some c →
       (main cfg w).1 =
         Ok (match read_lines c with
             | [] => NothingToDo
             | _ => Started (replicate (Nat.max 1 (workers cfg)) fresh_worker)
             end)
       ∧ ((list_has_remaining cfg w).1 = Ok true ↔ read_lines c ≠ []))
  ∧ (∀ ths, (main cfg w).1 = Ok (Started ths) →
       0 < length ths ∧ (list_has_remaining cfg w).1 = Ok true).
Proof.
  assert (∀ c, list_text cfg w = Some c →
            main cfg w =
              (Ok (match read_lines c with
                   | [] => NothingToDo
                   | _ => Started (replicate (Nat.max 1 (workers cfg)) fresh_worker)
                   end), w)) as Hsome.
  { intros c Ht. destruct (list_text_Some _ _ _ Ht) as (Hex & Hop & Hc).
    unfold main. rewrite bind_eq, os_path_exists_eq, Hex. norm.
    rewrite bind_eq, Hop. norm. rewrite bind_eq, read_all_eq, Hc. norm.
    rewrite remaining_eq. fold (read_lines c). by destruct (read_lines c). }
  assert (path_exists w (input_file cfg) = false → main cfg w = (Ok ExitFailure, w))
    as Habsent.
  { intros Hex. unfold main. by rewrite bind_eq, os_path_exists_eq, Hex. }
  split.
  { destruct (list_text cfg w) as [c|] eqn:Ht; [by rewrite (Hsome c) |].
    destruct (list_text_None _ _ Ht) as [Hex|[e He]]; [by rewrite Habsent |].
    unfold main. rewrite bind_eq, os_path_exists_eq.
    destruct (path_exists w (input_file cfg)); norm; [|done].
    by rewrite bind_eq, He. }
  split; [intros Hex; by rewrite Habsent |]. split.
  { intros c Ht. rewrite (Hsome c Ht). split; [done |].
    rewrite (list_has_remaining_eq _ _ _ Ht). cbn [fst].
    destruct (read_lines c); split; done. }
  intros ths Hm. destruct (main cfg w) as [r w'] eqn:E. simpl in Hm. subst r.
  destruct (main_started _ _ _ _ E) as (-> & -> & c & Ht & Hne).
  split; [rewrite length_replicate; lia |].
  rewrite (list_has_remaining_eq _ _ _ Ht). cbn [fst]. by destruct (read_lines c).
Qed.

(** The worker after three steps. *)
Definition three_steps (cfg : config) (o1 o2 o3 : outcomes)
  (l : worker_local) (s : shared) : worker_local * shared :=
  let r1 := worker_step cfg o1 l s in
  let r2 := worker_step cfg o2 r1.1 r1.2 in
  worker_step cfg o3 r2.1 r2.2.

(** X8: a worker at the top of its loop that finds nothing to claim makes
    three calls (lines 193, 198 and 201-207).  When the list holds no
    line, or does not exist, it then leaves the loop, having at most
    truncated the list; when lines are left and all of them are held, it
    is back at the top of the loop and has changed no file.  It has
    counted no job in either case. *)
Theorem idle_worker_round
  (cfg : config) (o1 o2 o3 : outcomes) (l : worker_local) (s : shared) :
  pc l = WTop →
  let w := sh_world s in
  let r := three_steps cfg o1 o2 o3 l s in
  (path_exists w (input_file cfg) = false →
     pc r.1 = WDone ∧ files (sh_world r.2) = files w)
  ∧ (∀ c, list_text cfg w = Some c → read_lines c = [] →
       pc r.1 = WDone
       ∧ files (sh_world r.2) = <[list_key cfg w := File ""]> (files w))
  ∧ (∀ c, list_text cfg w = Some c → read_lines c ≠ [] →
       Forall (held cfg w) (read_lines c) →
       pc r.1 = WTop ∧ files (sh_world r.2) = files w)
  ∧ (path_exists w (input_file cfg) = false
     ∨ (∃ c, list_text cfg w = Some c
             ∧ (read_lines c = [] ∨ Forall (held cfg w) (read_lines c))) →
     processed_local r.1 = processed_local l
     ∧ global_counter r.2 = global_counter s).
Proof.
  intros Hpc w r.
  assert (path_exists w (input_file cfg) = false →
          r = (goto l WDone, s)) as Habsent.
  { intros Hex.
    assert (acquire_next_job_from_list cfg w = (Ok (None, None), w)) as Hacq.
    { unfold acquire_next_job_from_list. by rewrite bind_eq, os_path_exists_eq, Hex. }
    assert (list_has_remaining cfg w = (Ok false, w)) as Hrem.
    { unfold list_has_remaining. by rewrite bind_eq, os_path_exists_eq, Hex. }
    unfold r, three_steps. cbv zeta.
    rewrite (worker_step_acquire cfg o1 l s WRetry) by (left; done).
    fold w. rewrite Hacq. cbn [fst snd].
    rewrite (worker_step_acquire cfg o2 _ _ WCheck) by (right; done).
    cbn [sh_world]. rewrite Hacq. cbn [fst snd].
    rewrite (worker_step_check cfg o3) by done.
    cbn [sh_world]. rewrite Hrem. cbn [goto pc processed_local global_counter].
    by destruct s. }
  assert (∀ c, list_text cfg w = Some c → read_lines c = [] →
          r = (goto l WDone,
               {| sh_world :=
                    extend w (<[list_key cfg w := File ""]> (files w))
                      [EvFlock true; EvWrite (list_key cfg w) ""; EvFlock false;
                       EvFlock true; EvWrite (list_key cfg w) ""; EvFlock false];
                  global_counter := global_counter s |})) as Hexh.
  { intros c Ht Hl.
    pose proof (acquire_exhausted _ _ _ Ht Hl) as Hacq.
    set (w1 := extend w _ _) in Hacq.
    assert (list_text cfg w1 = Some "") as Ht1 by by eapply list_text_rewritten.
    pose proof (acquire_exhausted _ _ _ Ht1 read_lines_empty_text) as Hacq1.
    set (w2 := extend w1 _ _) in Hacq1.
    assert (list_text cfg w2 = Some "") as Ht2 by by eapply list_text_rewritten.
    pose proof (list_has_remaining_eq _ _ _ Ht2) as Hrem.
    rewrite read_lines_empty_text in Hrem.
    unfold r, three_steps. cbv zeta.
    rewrite (worker_step_acquire cfg o1 l s WRetry) by (left; done).
    fold w. rewrite Hacq. cbn [fst snd].
    rewrite (worker_step_acquire cfg o2 _ _ WCheck) by (right; done).
    cbn [sh_world]. rewrite Hacq1. cbn [fst snd].
    rewrite (worker_step_check cfg o3) by done.
    cbn [sh_world]. rewrite Hrem. cbn [goto pc processed_local global_counter].
    unfold w2, w1. rewrite extend_extend, files_extend. simpl app.
    change (list_key cfg (extend w _ _)) with (list_key cfg w).
    by rewrite insert_insert_eq. }
  assert (∀ c, list_text cfg w = Some c → read_lines c ≠ [] →
          Forall (held cfg w) (read_lines c) →
          r = (goto l WTop,
               {| sh_world := extend w (files w)
                                [EvFlock true; EvFlock false; EvFlock true; EvFlock false];
                  global_counter := global_counter s |})) as Hheld.
  { intros c Ht Hl Hall.
    pose proof (acquire_all_held _ _ _ Ht Hl Hall) as Hacq.
    set (w1 := extend w _ _) in Hacq.
    assert (list_text cfg w1 = Some c) as Ht1 by exact Ht.
    assert (Forall (held cfg w1) (read_lines c)) as Hall1
      by (eapply Forall_impl; [exact Hall | intros x Hx; exact Hx]).
    pose proof (acquire_all_held _ _ _ Ht1 Hl Hall1) as Hacq1.
    set (w2 := extend w1 _ _) in Hacq1.
    assert (list_text cfg w2 = Some c) as Ht2 by exact Ht.
    pose proof (list_has_remaining_eq _ _ _ Ht2) as Hrem.
    unfold r, three_steps. cbv zeta.
    rewrite (worker_step_acquire cfg o1 l s WRetry) by (left; done).
    fold w. rewrite Hacq. cbn [fst snd].
    rewrite (worker_step_acquire cfg o2 _ _ WCheck) by (right; done).
    cbn [sh_world]. rewrite Hacq1. cbn [fst snd].
    rewrite (worker_step_check cfg o3) by done.
    cbn [sh_world]. rewrite Hrem. cbn [goto pc processed_local global_counter].
    unfold w2, w1. rewrite extend_extend. simpl app.
    by destruct (read_lines c). }
  split; [intros Hex; by rewrite (Habsent Hex) |].
  split; [intros c Ht Hl; by rewrite (Hexh c Ht Hl) |].
  split; [intros c Ht Hl Hall; by rewrite (Hheld c Ht Hl Hall) |].
  intros [Hex | (c & Ht & [Hl | Hall])].
  - by rewrite (Habsent Hex).
  - by rewrite (Hexh c Ht Hl).
  - destruct (read_lines c) as [|x xs] eqn:Hl.
    + by rewrite (Hexh c Ht Hl).
    + rewrite (Hheld c Ht); [done | by rewrite Hl | by rewrite Hl].
Qed.

(** On an empty list the worker leaves its loop. *)
Lemma idle_worker_round_witness :
  pc (three_steps sample_config answers_hevc answers_hevc answers_hevc
        fresh_worker {| sh_world := world_exhausted; global_counter := 0 |}).1 = WDone.
Proof.
  exact (proj1 (proj1 (proj2 (idle_worker_round sample_config
                  answers_hevc answers_hevc answers_hevc fresh_worker
                  {| sh_world := world_exhausted; global_counter := 0 |} eq_refl))
                "" eq_refl eq_refl)).
Defined.

Section ClaimRaises.

Lemma scan_lines_raises cfg lines : ∀ j idx w rel e,
  lines !! j = Some rel →
  Forall (held cfg w) (take j lines) →
  lock_status w (full_path cfg rel) = LockRaises e →
  scan_lines cfg idx lines w = (Raise e, w).
Proof.
  induction lines as [|x rest IH]; intros j idx w rel e Hj Hheld Hs; [done |].
  simpl. rewrite bind_eq, make_item_lock_eq.
  destruct j as [|j]; simpl in *.
  - injection Hj as ->. by rewrite Hs.
  - inversion Hheld as [|? ? Hx Hrest]; subst. unfold held in Hx. rewrite Hx. norm.
    by eapply IH.
Qed.

End ClaimRaises.

(** X9: the claim stops at a line whose marker cannot be created for
    another reason than its existence, for instance because the directory
    of the file is gone: when the lines before it are held, the call
    raises that error instead of passing over the line.  No file has
    changed, so the line stays in the list, and the worker that made the
    call ends. *)
Theorem unreachable_line_ends_the_worker
  (cfg : config) (o : outcomes) (l : worker_local) (s : shared)
  (c rel : string) (j : nat) (e : exn) :
  pc l = WTop ∨ pc l = WRetry →
  list_text cfg (sh_world s) = Some c →
  read_lines c !! j = Some rel →
  Forall (held cfg (sh_world s)) (take j (read_lines c)) →
  check_parent (sh_world s) (lock_key (sh_world s) (full_path cfg rel)) = Some e →
  let w := sh_world s in
  let r := worker_step cfg o l s in
  (make_item_lock (full_path cfg rel) w).1 = Raise e
  ∧ acquire_next_job_from_list cfg w = (Raise e, extend w (files w) [EvFlock true])
  ∧ pc r.1 = WCrashed e
  ∧ files (sh_world r.2) = files w
  ∧ list_text cfg (sh_world r.2) = Some c.
Proof.
  intros Hpc Ht Hj Hheld Hpar w r.
  assert (lock_status w (full_path cfg rel) = LockRaises e) as Hs
    by (unfold lock_status; fold w in Hpar; by rewrite Hpar).
  assert (acquire_next_job_from_list cfg w = (Raise e, extend w (files w) [EvFlock true]))
    as Hacq.
  { destruct (list_text_Some _ _ _ Ht) as (Hex & Hop & Hc).
    unfold acquire_next_job_from_list. fold w in Hex, Hop, Hc.
    rewrite bind_eq, os_path_exists_eq, Hex. norm. rewrite bind_eq, Hop. norm.
    rewrite bind_eq, flock_eq. norm. rewrite bind_eq, read_all_eq. norm.
    rewrite files_extend, Hc.
    destruct (read_lines c) as [|l0 ls] eqn:Hl; [done |]. rewrite <- Hl in *.
    rewrite bind_eq.
    rewrite (scan_lines_raises cfg (read_lines c) j 0 _ rel e Hj); [done | | done].
    eapply Forall_impl; [exact Hheld | intros x Hx; exact Hx]. }
  split; [by rewrite make_item_lock_eq, Hs |]. split; [exact Hacq |].
  assert (r = (goto l (WCrashed e),
               {| sh_world := extend w (files w) [EvFlock true];
                  global_counter := global_counter s |})) as ->.
  { unfold r. destruct Hpc as [Hpc|Hpc].
    - rewrite (worker_step_acquire cfg o l s WRetry) by (left; done).
      fold w. by rewrite Hacq.
    - rewrite (worker_step_acquire cfg o l s WCheck) by (right; done).
      fold w. by rewrite Hacq. }
  done.
Qed.

(** The directory of the only listed file does not exist. *)
Definition world_directory_gone : world :=
  {| files := list_to_map
       [([], Dir); (["data"], Dir); (["work"], Dir);
        (["work"; "transcode_list.txt"], File ("gone/a.mkv" +:+ newline))];
     cwd := "/work"; trace := [] |}.

Lemma unreachable_line_ends_the_worker_witness :
  pc (worker_step sample_config answers_hevc fresh_worker
        {| sh_world := world_directory_gone; global_counter := 0 |}).1
  = WCrashed FileNotFoundError.
Proof.
  refine (proj1 (proj2 (proj2 (unreachable_line_ends_the_worker sample_config answers_hevc
            fresh_worker {| sh_world := world_directory_gone; global_counter := 0 |}
            ("gone/a.mkv" +:+ newline) "gone/a.mkv" 0 FileNotFoundError
            (or_introl eq_refl) eq_refl eq_refl _ eq_refl)))).
  constructor.
Defined.

(* ===================================================================== *)
(** * What a run changes                                                  *)
(* ===================================================================== *)

(** [k] is none of the files a run works on: not the list, no marker of a
    listed path, and not at or below a listed media file, its backup or
    its temporary output. *)
Definition apart (cfg : config) (w0 : world) (k : list string) : bool :=
  bool_decide (k ≠ list_key cfg w0)
  && forallb (λ path,
       bool_decide (k ≠ lock_key w0 path)
       && outsideb (footprint (cwd w0) path) k)
     (paths0 cfg w0).

(** The failure log can be appended to at the start, and neither it nor
    its directory is a file the run works on otherwise. *)
Definition log_apart (cfg : config) (w0 : world) : bool :=
  log_appendable cfg w0
  && apart cfg w0 (log_key cfg w0)
  && apart cfg w0 (parent (log_key cfg w0)).

(** The jobs whose pipeline returned [False], the jobs whose line went to
    the failure log, and the job a thread is about to log. *)
Definition failed_of (t : nat * wstate * wstate) : list string :=
  match t with
  | (_, WJob _ _, WLog j _) => [j]
  | _ => []
  end.
Definition logged_of (t : nat * wstate * wstate) : list string :=
  match t with
  | (_, WLog j _, _) => [j]
  | _ => []
  end.
Definition failed (h : list (nat * wstate * wstate)) : list string :=
  concat (map failed_of h).
Definition logged (h : list (nat * wstate * wstate)) : list string :=
  concat (map logged_of h).
Definition logging (l : worker_local) : list string :=
  match pc l with WLog j _ => [j] | _ => [] end.

Record log_inv (cfg : config) (w0 : world) (p : pool) : Prop := {
  lg_appendable : log_appendable cfg (sh_world (mem p)) = true;
  lg_text : log_text cfg (sh_world (mem p)) =
              log_text cfg w0 +:+ unlines (map (failure_rel cfg) (logged (history p)));
  lg_failed : logged (history p) ++ gather logging (threads p) ≡ₚ failed (history p)
}.

Section RunFrame.

Context (cfg : config) (w0 : world).

Lemma apart_spec k :
  apart cfg w0 k = true →
  k ≠ list_key cfg w0
  ∧ ∀ j, j ∈ paths0 cfg w0 →
      k ≠ lock_key w0 j ∧ outside (footprint (cwd w0) j) k.
Proof.
  unfold apart. intros [H1 H2]%andb_prop.
  split; [by apply bool_decide_eq_true in H1 |].
  intros j Hj. rewrite forallb_forall in H2. apply list_elem_of_In in Hj.
  specialize (H2 j Hj). apply andb_prop in H2 as [H3 H4].
  split; [by apply bool_decide_eq_true in H3 | by apply outsideb_outside].
Qed.

(** One step of one thread changes no file that is apart, the failure
    log excepted when the step is the logging of a job. *)
Lemma pool_step_files p i o p' l k :
  list_inv cfg w0 p →
  threads p !! i = Some l →
  pool_step cfg i o p = Some p' →
  apart cfg w0 k = true →
  k ≠ log_key cfg w0 ∨ logging l = [] →
  files (sh_world (mem p')) !! k = files (sh_world (mem p)) !! k.
Proof.
  intros Hinv Hi Hstep [Hlist Hpaths]%apart_spec Hlog.
  unfold pool_step in Hstep. rewrite Hi in Hstep.
  destruct (terminal (pc l)) eqn:Hterm; [done |]. injection Hstep as <-.
  pose proof Hinv as [Hcwd Hths (c & Ht & Hperm & Hdone) Hjobs Hatt].
  assert (job_known cfg w0 l) as Hkl.
  { rewrite Forall_forall in Hjobs. apply Hjobs. by eapply list_elem_of_lookup_2. }
  assert (list_key cfg (sh_world (mem p)) = list_key cfg w0) as Hlk
    by (unfold list_key; by rewrite Hcwd).
  assert (∀ j, lock_key (sh_world (mem p)) j = lock_key w0 j) as Hkk
    by (intros j; unfold lock_key; by rewrite Hcwd).
  assert (∀ next, (pc l = WTop ∧ next = WRetry) ∨ (pc l = WRetry ∧ next = WCheck) →
            files (sh_world (worker_step cfg o l (mem p)).2) !! k
            = files (sh_world (mem p)) !! k) as Hacq.
  { intros next Hn. rewrite (worker_step_acquire cfg o l (mem p) next Hn). cbn [snd sh_world].
    destruct (acquire_on_open_list cfg _ c Ht) as
      [_ [(_ & _ & Hf)|[(_ & _ & Hf)|[(e & _ & Hf)|(j & rel & Hj & _ & _ & Hf)]]]];
      rewrite Hf; try done.
    - rewrite Hlk. by rewrite lookup_insert_ne.
    - assert (full_path cfg rel ∈ paths0 cfg w0) as Hin.
      { rewrite <- Hperm. apply elem_of_app. left.
        apply list_elem_of_fmap_2. by eapply list_elem_of_lookup_2. }
      rewrite Hlk, Hkk. rewrite !lookup_insert_ne; [done | | done].
      apply not_eq_sym, (Hpaths _ Hin). }
  simpl mem.
  destruct (pc l) as [| | |job lk|job lk|lk pend| |e] eqn:Hpc; try done.
  - rewrite <- Hpc in Hacq. apply (Hacq WRetry). left. by rewrite Hpc.
  - rewrite <- Hpc in Hacq. apply (Hacq WCheck). right. by rewrite Hpc.
  - rewrite (worker_step_check cfg o l _ Hpc), (list_has_remaining_eq _ _ _ Ht). done.
  - unfold job_known in Hkl. rewrite Hpc in Hkl. destruct Hkl as [Hin ->].
    destruct (transcode_file_framed (cwd w0) (on_probe o) (on_encode o) job
                (sh_world (mem p)) Hcwd) as [_ Hf'].
    specialize (Hf' k (proj2 (Hpaths _ Hin))).
    rewrite (worker_step_job cfg o l _ _ _ Hpc).
    by destruct (transcode_file _ _ job _) as [[ok|e] w'].
  - destruct Hlog as [Hlog|Hlog]; [|unfold logging in Hlog; by rewrite Hpc in Hlog].
    rewrite (worker_step_log cfg o l _ _ _ Hpc).
    destruct (log_failure_cases cfg (failure_rel cfg job) (sh_world (mem p))) as [H|H];
      rewrite H; [done |]. cbn [snd sh_world files extend].
    rewrite lookup_insert_ne; [done |]. unfold log_key. rewrite Hcwd. by apply not_eq_sym.
  - unfold job_known in Hkl. rewrite Hpc in Hkl. destruct Hkl as (job & Hin & ->).
    rewrite (worker_step_finally cfg o l _ _ _ Hpc), release_item_lock_eq, Hkk.
    destruct (files (sh_world (mem p)) !! lock_key w0 job) as [[c1|]|];
      destruct pend as [e|]; cbn [snd sh_world files extend]; try done;
      rewrite lookup_delete_ne; try done; apply not_eq_sym, (Hpaths _ Hin).
Qed.

End RunFrame.

(** X10: a run changes no file but its own.  Whatever the workers, the
    probe and the encoder do, a file that is not the list, the failure
    log, a marker of a listed path, or at or below a listed media file,
    its backup or its temporary output is at every moment of the run as
    it was at the start. *)
Theorem run_changes_only_its_files
  (cfg : config) (w0 : world) (p : pool) (k : list string) :
  list_apart cfg w0 = true →
  reachable cfg w0 p →
  apart cfg w0 k = true →
  k ≠ log_key cfg w0 →
  cwd (sh_world (mem p)) = cwd w0
  ∧ files (sh_world (mem p)) !! k = files w0 !! k.
Proof.
  intros Hlayout Hreach Hk Hlog.
  split; [apply (li_cwd _ _ _ (list_inv_reachable cfg w0 Hlayout p Hreach)) |].
  induction Hreach as [ths w Hmain | p i o p' Hreach IH Hstep].
  - by destruct (main_started _ _ _ _ Hmain) as (-> & _).
  - rewrite <- IH.
    pose proof (list_inv_reachable cfg w0 Hlayout p Hreach) as Hinv.
    pose proof Hstep as Hstep'. unfold pool_step in Hstep'.
    destruct (threads p !! i) as [l|] eqn:Hi; [|done].
    eapply pool_step_files; eauto.
Qed.

(** The directory of the media files is as before after the sample run. *)
Lemma run_changes_only_its_files_witness :
  files (sh_world (mem sample_final)) !! ["data"] = Some Dir.
Proof.
  assert (Hreach : reachable sample_config world_start sample_final).
  { apply (run_schedule_reachable _ _ sample_schedule sample_start).
    - apply (reach_start sample_config world_start (replicate 2 fresh_worker) world_start).
      vm_compute. reflexivity.
    - vm_compute. reflexivity. }
  assert (Hl : list_apart sample_config world_start = true) by (vm_compute; reflexivity).
  assert (Ha : apart sample_config world_start ["data"] = true) by (vm_compute; reflexivity).
  assert (Hk : ["data"] ≠ log_key sample_config world_start) by (vm_compute; discriminate).
  exact (proj2 (run_changes_only_its_files sample_config world_start sample_final ["data"]
                  Hl Hreach Ha Hk)).
Defined.

Section LogInvariant.

Context (cfg : config) (w0 : world).
Hypothesis Hlayout : list_apart cfg w0 = true.
Hypothesis Hlog : log_apart cfg w0 = true.

Lemma unlines_snoc ls x : unlines (ls ++ [x]) = unlines ls +:+ x +:+ newline.
Proof.
  induction ls as [|y ys IH]; simpl; [done |].
  by rewrite IH, !append_assoc.
Qed.

(** The log as a run sees it depends on the working directory, the log
    file and its directory alone. *)
Lemma log_view_frame w w' :
  cwd w' = cwd w →
  files w' !! log_key cfg w = files w !! log_key cfg w →
  files w' !! parent (log_key cfg w) = files w !! parent (log_key cfg w) →
  log_text cfg w' = log_text cfg w ∧ log_appendable cfg w' = log_appendable cfg w.
Proof.
  intros Hc Hf Hp. unfold log_text, log_appendable, check_parent, log_key in *.
  by rewrite Hc, Hf, Hp.
Qed.

(** Only a pipeline that returns [False] takes a thread to line 217. *)
Lemma worker_step_into_log o l s j lk :
  pc (worker_step cfg o l s).1 = WLog j lk → pc l = WJob j lk.
Proof.
  unfold worker_step.
  destruct (pc l) as [| | |job lk0|job lk0|lk0 pend| |e] eqn:Hpc; cbn [fst pc goto].
  - by destruct (acquire_next_job_from_list cfg (sh_world s)) as [[[[?|] ?]|?] ?].
  - by destruct (acquire_next_job_from_list cfg (sh_world s)) as [[[[?|] ?]|?] ?].
  - by destruct (list_has_remaining cfg (sh_world s)) as [[[|]|?] ?].
  - destruct (transcode_file _ _ job _) as [[[|]|?] ?]; cbn [fst pc goto]; try done.
    by intros [= -> ->].
  - by destruct (log_failure cfg _ _) as [[?|?] ?].
  - by destruct (release_item_lock lk0 _) as [[?|?] ?]; destruct pend.
  - by rewrite Hpc.
  - by rewrite Hpc.
Qed.

Lemma log_inv_step p i o p' :
  list_inv cfg w0 p → log_inv cfg w0 p →
  pool_step cfg i o p = Some p' → log_inv cfg w0 p'.
Proof using Hlayout Hlog.
  intros Hli [Happ Htext Hfail] Hstep.
  pose proof (list_inv_step cfg w0 Hlayout p i o p' Hli Hstep) as Hli'.
  pose proof (li_cwd _ _ _ Hli) as Hcwd. pose proof (li_cwd _ _ _ Hli') as Hcwd'.
  apply andb_prop in Hlog as [[_ Ha1]%andb_prop Ha2].
  assert (log_key cfg (sh_world (mem p)) = log_key cfg w0) as Hlk
    by (unfold log_key; by rewrite Hcwd).
  pose proof Hstep as Hstep'. unfold pool_step in Hstep'.
  destruct (threads p !! i) as [l|] eqn:Hi; [|done].
  destruct (terminal (pc l)) eqn:Hterm; [done |]. injection Hstep' as <-.
  set (r := worker_step cfg o l (mem p)) in *.
  destruct (logging l) as [|j0 js] eqn:Hlg.
  - (* any line but 217-220 *)
    assert (files (sh_world r.2) !! log_key cfg w0
            = files (sh_world (mem p)) !! log_key cfg w0) as Hf1.
    { apply (pool_step_files cfg w0 p i o _ l _ Hli Hi Hstep Ha1). by right. }
    assert (files (sh_world r.2) !! parent (log_key cfg w0)
            = files (sh_world (mem p)) !! parent (log_key cfg w0)) as Hf2.
    { apply (pool_step_files cfg w0 p i o _ l _ Hli Hi Hstep Ha2). by right. }
    destruct (log_view_frame (sh_world (mem p)) (sh_world r.2)) as [Ht Ha];
      [simpl in Hcwd'; congruence | by rewrite Hlk | by rewrite Hlk |].
    assert (logged_of (i, pc l, pc r.1) = []) as Hlo.
    { unfold logging in Hlg. simpl. by destruct (pc l). }
    assert (logging r.1 = failed_of (i, pc l, pc r.1)) as Hfo.
    { unfold logging. simpl. destruct (pc r.1) as [| | |? ?|j lk|? ?| |?] eqn:Hpc1;
        try by destruct (pc l).
      pose proof (worker_step_into_log o l (mem p) j lk Hpc1) as Hpc. by rewrite Hpc. }
    split; cbn [mem threads history sh_world].
    + by rewrite Ha.
    + rewrite Ht, Htext. unfold logged. rewrite map_app, concat_app. cbn [map concat].
      rewrite Hlo. by rewrite !app_nil_r.
    + unfold logged, failed. rewrite !map_app, !concat_app. cbn [map concat].
      rewrite Hlo, !app_nil_r. fold (logged (history p)). fold (failed (history p)).
      apply (Permutation_app_inv_r (logging l)).
      rewrite <- !app_assoc, (gather_insert logging _ _ _ r.1 Hi).
      rewrite Hlg, app_nil_r, Hfo, app_assoc. by rewrite Hfail.
  - (* lines 217-220 *)
    unfold logging in Hlg. destruct (pc l) as [| | |? ?|j lk|? ?| |?] eqn:Hpc; try done.
    injection Hlg as <- <-.
    assert (r = (goto l (WFinally lk None),
                 {| sh_world :=
                      extend (sh_world (mem p))
                        (<[log_key cfg w0 :=
                             File (log_text cfg (sh_world (mem p))
                                   +:+ failure_rel cfg j +:+ newline)]>
                           (files (sh_world (mem p))))
                        [EvAppend (log_key cfg w0) (failure_rel cfg j +:+ newline)];
                    global_counter := global_counter (mem p) |})) as Hr.
    { unfold r. rewrite (worker_step_log cfg o l _ _ _ Hpc).
      by rewrite (log_failure_appends cfg _ _ Happ), Hlk. }
    rewrite Hr. cbn [fst snd pc goto].
    split; cbn [mem threads history sh_world].
    + unfold log_appendable in *. cbn [files extend cwd].
      unfold log_key in *. cbn [cwd extend]. rewrite Hcwd.
      rewrite lookup_insert_eq.
      apply andb_prop in Happ as [H _]. by rewrite H.
    + unfold log_text at 1. cbn [files extend]. unfold log_key at 1. cbn [cwd extend].
      rewrite Hcwd. fold (log_key cfg w0). rewrite lookup_insert_eq.
      rewrite Htext. unfold logged. rewrite map_app, concat_app. cbn [map concat logged_of app].
      rewrite map_app. cbn [map]. rewrite unlines_snoc.
      by rewrite !append_assoc.
    + unfold logged, failed. rewrite !map_app, !concat_app. cbn [map concat logged_of failed_of app].
      rewrite !app_nil_r. fold (logged (history p)). fold (failed (history p)).
      apply (Permutation_app_inv_r (logging l)).
      rewrite <- !app_assoc, (gather_insert logging _ _ _ _ Hi).
      unfold logging at 2 3. rewrite Hpc. cbn [pc goto].
      rewrite app_nil_r, <- Hfail, <- app_assoc. f_equiv.
      apply Permutation_app_comm.
Qed.

Lemma log_inv_reachable p : reachable cfg w0 p → log_inv cfg w0 p.
Proof using Hlayout Hlog.
  induction 1 as [ths w Hmain | p i o p' Hreach IH Hstep].
  - destruct (main_started _ _ _ _ Hmain) as (-> & -> & _).
    pose proof Hlog as [[Ha _]%andb_prop _]%andb_prop.
    split; simpl; [done | by rewrite append_nil_r |].
    rewrite gather_nil; [done |].
    apply Forall_forall. by intros l [-> _]%elem_of_replicate.
  - eapply log_inv_step; [|done|done]. by apply list_inv_reachable.
Qed.

End LogInvariant.

(** X11: the failure log gains one line for each job whose line 217-220
    is reached, in the order in which that happens, and nothing else ever
    touches it: at every moment of a run its text is the text at the start
    followed by the logged paths, one per line.  Once every worker has
    ended, the jobs logged are the jobs whose pipeline returned [False]. *)
Theorem failure_log_gains_one_line_per_failure
  (cfg : config) (w0 : world) (p : pool) :
  list_apart cfg w0 = true →
  log_apart cfg w0 = true →
  reachable cfg w0 p →
  log_text cfg (sh_world (mem p)) =
    log_text cfg w0 +:+ unlines (map (failure_rel cfg) (logged (history p)))
  ∧ (ended p → logged (history p) ≡ₚ failed (history p)).
Proof.
  intros Hlayout Hlog Hreach.
  destruct (log_inv_reachable cfg w0 Hlayout Hlog p Hreach) as [_ Htext Hfail].
  split; [exact Htext |]. intros Hended.
  rewrite <- Hfail. rewrite gather_nil; [by rewrite app_nil_r |].
  eapply Forall_impl; [exact Hended |]. intros l Hl. unfold logging.
  cbv beta in Hl. revert Hl. by destruct (pc l).
Qed.

(** A run in which the probe of a.mkv fails and b.mkv is skipped. *)
Definition answers_probe_fails : outcomes :=
  {| on_probe := ProbeNonZero; on_encode := EncodeSpawnError |}.

Definition failing_schedule : list (nat * outcomes) :=
  [(0, answers_probe_fails);                           (* claims a.mkv *)
   (0, answers_probe_fails);                           (* the pipeline fails *)
   (1, answers_hevc); (1, answers_hevc);               (* b.mkv is skipped *)
   (0, answers_probe_fails); (0, answers_probe_fails); (* logged, released *)
   (1, answers_hevc);
   (0, answers_hevc); (0, answers_hevc); (0, answers_hevc);
   (1, answers_hevc); (1, answers_hevc); (1, answers_hevc)].

Definition failing_final : pool :=
  Eval vm_compute in
    default sample_start (run_schedule sample_config failing_schedule sample_start).

Lemma failure_log_gains_one_line_per_failure_witness :
  ended failing_final
  ∧ log_text sample_config (sh_world (mem failing_final)) = "a.mkv" +:+ newline
  ∧ logged (history failing_final) ≡ₚ failed (history failing_final).
Proof.
  assert (Hreach : reachable sample_config world_start failing_final).
  { apply (run_schedule_reachable _ _ failing_schedule sample_start).
    - apply (reach_start sample_config world_start (replicate 2 fresh_worker) world_start).
      vm_compute. reflexivity.
    - vm_compute. reflexivity. }
  assert (He : ended failing_final).
  { unfold ended. vm_compute. repeat constructor. }
  assert (Hl : list_apart sample_config world_start = true) by (vm_compute; reflexivity).
  assert (Hg : log_apart sample_config world_start = true) by (vm_compute; reflexivity).
  destruct (failure_log_gains_one_line_per_failure sample_config world_start failing_final
              Hl Hg Hreach) as [H1 H2].
  split; [exact He |]. split; [|exact (H2 He)].
  rewrite H1. vm_compute. reflexivity.
Defined.

(** X12: no line is lost and no worker leaves early.  At every moment of
    a run the list can be read, and its lines together with the paths
    claimed so far are the paths of the list at the start, the same number
    of times; the paths handed to a pipeline and those claimed and
    waiting for one are the paths claimed; and while the list holds a
    line no worker has left its loop by line 209. *)
Theorem no_line_is_lost (cfg : config) (w0 : world) (p : pool) :
  list_apart cfg w0 = true →
  reachable cfg w0 p →
  ∃ c, list_text cfg (sh_world (mem p)) = Some c
       ∧ map (full_path cfg) (read_lines c) ++ claims (history p) ≡ₚ paths0 cfg w0
       ∧ attempts (history p) ++ gather waiting_job (threads p) ≡ₚ claims (history p)
       ∧ (read_lines c ≠ [] → Forall (λ l, pc l ≠ WDone) (threads p)).
Proof.
  intros Hlayout Hreach.
  destruct (list_inv_reachable cfg w0 Hlayout p Hreach)
    as [_ _ (c & Ht & Hperm & Hdone) _ Hatt].
  exists c. done.
Qed.

(** The sample run after its first step: a.mkv is claimed, b.mkv is in
    the list. *)
Definition sample_midway : pool :=
  Eval vm_compute in
    default sample_start (run_schedule sample_config (take 1 sample_schedule) sample_start).

Lemma no_line_is_lost_witness :
  ∃ c, list_text sample_config (sh_world (mem sample_midway)) = Some c
       ∧ map (full_path sample_config) (read_lines c) ++ claims (history sample_midway)
         ≡ₚ ["/data/a.mkv"; "/data/b.mkv"].
Proof.
  assert (Hreach : reachable sample_config world_start sample_midway).
  { apply (run_schedule_reachable _ _ (take 1 sample_schedule) sample_start).
    - apply (reach_start sample_config world_start (replicate 2 fresh_worker) world_start).
      vm_compute. reflexivity.
    - vm_compute. reflexivity. }
  assert (Hl : list_apart sample_config world_start = true) by (vm_compute; reflexivity).
  destruct (no_line_is_lost sample_config world_start sample_midway Hl Hreach)
    as (c & H1 & H2 & _).
  exists c. split; [exact H1 | exact H2].
Defined.

(** The job a thread is working on. *)
Definition working_on (l : worker_local) : list string :=
  match pc l with
  | WJob j _ | WLog j _ => [j]
  | _ => []
  end.

Section Exclusion.

Lemma gather_cons {X} (f : worker_local → list X) t ts :
  gather f (t :: ts) = f t ++ gather f ts.
Proof. done. Qed.

Lemma elem_of_gather {X} (f : worker_local → list X) ths i l a :
  ths !! i = Some l → a ∈ f l → a ∈ gather f ths.
Proof.
  revert i. induction ths as [|t ts IH]; intros i Hi Ha; [done |].
  rewrite gather_cons. apply elem_of_app. destruct i as [|i]; simpl in Hi.
  - injection Hi as ->. by left.
  - right. by eapply IH.
Qed.

Lemma nodup_gather_distinct {X Y} (g : X → Y) (f : worker_local → list X) ths :
  NoDup (map g (gather f ths)) →
  ∀ i k li lk a b, i ≠ k → ths !! i = Some li → ths !! k = Some lk →
    a ∈ f li → b ∈ f lk → g a ≠ g b.
Proof.
  induction ths as [|t ts IH]; intros Hnd i k li lk a b Hik Hi Hk Ha Hb; [done |].
  rewrite gather_cons, map_app in Hnd.
  apply NoDup_app in Hnd as (_ & Hdisj & Hnd).
  destruct i as [|i], k as [|k]; simpl in Hi, Hk; try done.
  - injection Hi as ->. intros Heq. apply (Hdisj (g a)).
    + by apply (list_elem_of_fmap_2 g).
    + rewrite Heq. apply (list_elem_of_fmap_2 g). by eapply elem_of_gather.
  - injection Hk as ->. intros Heq. apply (Hdisj (g b)).
    + by apply (list_elem_of_fmap_2 g).
    + rewrite <- Heq. apply (list_elem_of_fmap_2 g). by eapply elem_of_gather.
  - eapply (IH Hnd i k); eauto.
Qed.

End Exclusion.

(** X13: mutual exclusion.  At every moment of a run the markers held by
    different workers are different files, each of them exists, and no two
    workers are working on the same job. *)
Theorem workers_never_share_a_job (cfg : config) (w0 : world) (p : pool) :
  list_apart cfg w0 = true →
  markers_apart cfg w0 = true →
  reachable cfg w0 p →
  (∀ i k li lk a b, i ≠ k →
     threads p !! i = Some li → threads p !! k = Some lk →
     a ∈ held_lock li → b ∈ held_lock lk →
     key_of (cwd w0) a ≠ key_of (cwd w0) b)
  ∧ (∀ i li a, threads p !! i = Some li → a ∈ held_lock li →
       ∃ c, files (sh_world (mem p)) !! key_of (cwd w0) a = Some (File c))
  ∧ (∀ i k li lk j1 j2, i ≠ k →
       threads p !! i = Some li → threads p !! k = Some lk →
       j1 ∈ working_on li → j2 ∈ working_on lk → j1 ≠ j2).
Proof.
  intros Hlayout Hmarkers Hreach.
  pose proof (list_inv_reachable cfg w0 Hlayout p Hreach) as Hli.
  destruct (lock_inv_reachable cfg w0 Hlayout Hmarkers p Hreach) as [_ Hnd Hex].
  assert (∀ i k li lk a b, i ≠ k →
            threads p !! i = Some li → threads p !! k = Some lk →
            a ∈ held_lock li → b ∈ held_lock lk →
            key_of (cwd w0) a ≠ key_of (cwd w0) b) as Hdiff.
  { intros i k li lk a b. by apply (nodup_gather_distinct _ held_lock (threads p)). }
  split; [exact Hdiff |]. split.
  - intros i li a Hi Ha. apply Hex. unfold held_keys.
    apply (list_elem_of_fmap_2 (key_of (cwd w0))). by eapply elem_of_gather.
  - intros i k li lk j1 j2 Hik Hi Hk H1 H2 ->.
    assert (∀ n l, threads p !! n = Some l → j2 ∈ working_on l →
              lock_path_of j2 ∈ held_lock l) as Hheld.
    { intros n l Hn Hw.
      assert (job_known cfg w0 l) as Hkl.
      { destruct Hli as [_ _ _ Hjobs _]. rewrite Forall_forall in Hjobs.
        apply Hjobs. by eapply list_elem_of_lookup_2. }
      unfold working_on in Hw. unfold job_known in Hkl. unfold held_lock.
      destruct (pc l) as [| | |job lk0|job lk0|? ?| |?]; try by apply elem_of_nil in Hw.
      - apply list_elem_of_singleton in Hw as ->. destruct Hkl as [_ ->].
        apply list_elem_of_here.
      - apply list_elem_of_singleton in Hw as ->. destruct Hkl as [_ ->].
        apply list_elem_of_here. }
    by apply (Hdiff i k li lk (lock_path_of j2) (lock_path_of j2) Hik Hi Hk
                (Hheld i li Hi H1) (Hheld k lk Hk H2)).
Qed.

(** The sample run when both workers hold a job. *)
Definition sample_both_at_work : pool :=
  Eval vm_compute in
    default sample_start (run_schedule sample_config (take 2 sample_schedule) sample_start).

Lemma workers_never_share_a_job_witness :
  gather working_on (threads sample_both_at_work) = ["/data/a.mkv"; "/data/b.mkv"]
  ∧ ∀ j1 j2, j1 ∈ working_on (at_job "/data/a.mkv") →
             j2 ∈ working_on (at_job "/data/b.mkv") → j1 ≠ j2.
Proof.
  assert (Hreach : reachable sample_config world_start sample_both_at_work).
  { apply (run_schedule_reachable _ _ (take 2 sample_schedule) sample_start).
    - apply (reach_start sample_config world_start (replicate 2 fresh_worker) world_start).
      vm_compute. reflexivity.
    - vm_compute. reflexivity. }
  assert (Hl : list_apart sample_config world_start = true) by (vm_compute; reflexivity).
  assert (Hm : markers_apart sample_config world_start = true) by (vm_compute; reflexivity).
  split; [vm_compute; reflexivity |].
  intros j1 j2.
  exact (proj2 (proj2 (workers_never_share_a_job sample_config world_start
                         sample_both_at_work Hl Hm Hreach))
           0 1 (at_job "/data/a.mkv") (at_job "/data/b.mkv") j1 j2
           ltac:(discriminate) eq_refl eq_refl).
Defined.

(* ===================================================================== *)
(** * One worker: the order of the list                                   *)
(* ===================================================================== *)

Record seq_inv (cfg : config) (w0 : world) (p : pool) : Prop := {
  sq_one : length (threads p) = 1;
  sq_list : ∃ c,
      list_text cfg (sh_world (mem p)) = Some c
      ∧ claims (history p) ++ map (full_path cfg) (read_lines c) = paths0 cfg w0;
  sq_attempts :
    attempts (history p) ++ gather waiting_job (threads p) = claims (history p)
}.

Section OneWorker.

Context (cfg : config) (w0 : world).
Hypothesis Hlayout : list_apart cfg w0 = true.
Hypothesis Hmarkers : markers_apart cfg w0 = true.

(** A step that is no call of the claim protocol leaves the list as it
    is. *)
Lemma quiet_step_keeps_list p i o p' l :
  list_inv cfg w0 p →
  threads p !! i = Some l →
  pool_step cfg i o p = Some p' →
  pc l ≠ WTop → pc l ≠ WRetry →
  list_text cfg (sh_world (mem p')) = list_text cfg (sh_world (mem p)).
Proof using Hlayout.
  intros Hinv Hi Hstep Hn1 Hn2.
  pose proof (list_inv_step cfg w0 Hlayout p i o p' Hinv Hstep) as Hinv'.
  pose proof (li_cwd _ _ _ Hinv) as Hcwd. pose proof (li_cwd _ _ _ Hinv') as Hcwd'.
  apply list_text_frame; [congruence |].
  assert (list_key cfg (sh_world (mem p)) = list_key cfg w0) as ->
    by (unfold list_key; by rewrite Hcwd).
  unfold pool_step in Hstep. rewrite Hi in Hstep.
  destruct (terminal (pc l)) eqn:Hterm; [done |]. injection Hstep as <-.
  pose proof Hinv as [_ _ (c & Ht & _) Hjobs _].
  assert (job_known cfg w0 l) as Hkl.
  { rewrite Forall_forall in Hjobs. apply Hjobs. by eapply list_elem_of_lookup_2. }
  simpl mem.
  destruct (pc l) as [| | |job lk|job lk|lk pend| |e] eqn:Hpc; try done.
  - rewrite (worker_step_check cfg o l _ Hpc), (list_has_remaining_eq _ _ _ Ht). done.
  - unfold job_known in Hkl. rewrite Hpc in Hkl. destruct Hkl as [Hin ->].
    destruct (layout_path cfg w0 Hlayout job Hin) as [_ Hout].
    destruct (transcode_file_framed (cwd w0) (on_probe o) (on_encode o) job
                (sh_world (mem p)) Hcwd) as [_ Hf'].
    specialize (Hf' _ Hout).
    rewrite (worker_step_job cfg o l _ _ _ Hpc).
    by destruct (transcode_file _ _ job _) as [[ok|e] w'].
  - rewrite (worker_step_log cfg o l _ _ _ Hpc).
    destruct (log_failure_cases cfg (failure_rel cfg job) (sh_world (mem p))) as [H|H];
      rewrite H; [done |]. cbn [snd sh_world files extend].
    rewrite lookup_insert_ne; [done |]. unfold log_key. rewrite Hcwd.
    apply (layout_log cfg w0 Hlayout).
  - unfold job_known in Hkl. rewrite Hpc in Hkl. destruct Hkl as (job & Hin & ->).
    destruct (layout_path cfg w0 Hlayout job Hin) as [Hne _].
    rewrite (worker_step_finally cfg o l _ _ _ Hpc), release_item_lock_eq.
    assert (lock_key (sh_world (mem p)) job = lock_key w0 job) as ->
      by (unfold lock_key; by rewrite Hcwd).
    destruct (files (sh_world (mem p)) !! lock_key w0 job) as [[c1|]|];
      destruct pend as [e|]; cbn [snd sh_world files extend]; try done;
      by rewrite lookup_delete_ne.
Qed.

Lemma claims_snoc h t : claims (h ++ [t]) = claims h ++ claim_of t.
Proof. unfold claims. rewrite map_app, concat_app. simpl. by rewrite app_nil_r. Qed.

Lemma attempts_snoc h t : attempts (h ++ [t]) = attempts h ++ attempt_of t.
Proof. unfold attempts. rewrite map_app, concat_app. simpl. by rewrite app_nil_r. Qed.

(** With one worker, a claim takes the first line. *)
Lemma seq_inv_step p i o p' :
  list_inv cfg w0 p → lock_inv cfg w0 p → seq_inv cfg w0 p →
  pool_step cfg i o p = Some p' → seq_inv cfg w0 p'.
Proof using Hlayout Hmarkers.
  intros Hli Hlk [Hone (c & Ht & Hord) Hatt] Hstep.
  pose proof Hstep as Hstep'. unfold pool_step in Hstep'.
  destruct (threads p !! i) as [l|] eqn:Hi; [|done].
  destruct (terminal (pc l)) eqn:Hterm; [done |]. injection Hstep' as <-.
  assert (threads p = [l] ∧ i = 0) as [Hths ->].
  { destruct (threads p) as [|t [|t' ts]]; try done.
    destruct i as [|i]; simpl in Hi; [by injection Hi as -> | done]. }
  pose proof (li_cwd _ _ _ Hli) as Hcwd.
  rewrite Hths in *. cbn [insert list_insert] in *.
  assert (∀ l', gather waiting_job [l'] = waiting_job l') as Hg
    by (intros l'; unfold gather; simpl; apply app_nil_r).
  rewrite Hg in Hatt.
  assert ((pc l = WTop ∨ pc l = WRetry) ∨ (pc l ≠ WTop ∧ pc l ≠ WRetry))
    as [Hacq|[Hn1 Hn2]]
    by (destruct (pc l); first [left; by auto | right; by split]).
  - (* a call of the claim protocol *)
    assert (∃ next, (pc l = WTop ∧ next = WRetry) ∨ (pc l = WRetry ∧ next = WCheck))
      as [next Hn] by (destruct Hacq; eauto).
    assert (∀ s, claim_of (0, pc l, s) = match s with WJob j _ => [j] | _ => [] end) as Hcl.
    { intros s. by destruct Hacq as [-> | ->]. }
    assert (∀ s, attempt_of (0, pc l, s) = []) as Hat.
    { intros s. by destruct Hacq as [-> | ->]. }
    assert (waiting_job l = []) as Hwl.
    { unfold waiting_job. by destruct Hacq as [-> | ->]. }
    assert (waiting_job (goto l next) = []) as Hwn.
    { unfold waiting_job. cbn [pc goto]. by destruct Hn as [[_ ->]|[_ ->]]. }
    assert (held_keys w0 [l] = []) as Hnone.
    { unfold held_keys, gather, held_lock. simpl. by destruct Hacq as [-> | ->]. }
    rewrite (worker_step_acquire cfg o l (mem p) next Hn). cbn [fst snd].
    pose proof (acquire_cases cfg (sh_world (mem p))) as Hcases.
    destruct (acquire_next_job_from_list cfg (sh_world (mem p))) as [res w'].
    cbn [fst snd] in *.
    assert (∀ s, attempts (history p ++ [(0, pc l, s)]) ++ gather waiting_job [goto l s]
                 = claims (history p ++ [(0, pc l, s)])) as Hatt'.
    { intros s. rewrite Hg, claims_snoc, attempts_snoc, Hcl, Hat, app_nil_r.
      rewrite <- Hatt, Hwl, app_nil_r. unfold waiting_job. cbn [pc goto].
      by destruct s; rewrite ?app_nil_r. }
    assert (∀ s, (∀ j lk, s ≠ WJob j lk) →
              claims (history p ++ [(0, pc l, s)]) = claims (history p)) as Hcl0.
    { intros s Hs. rewrite claims_snoc, Hcl.
      destruct s; rewrite ?app_nil_r; try done. by destruct (Hs job_path lock_path). }
    assert (∀ j lk, next ≠ WJob j lk) as Hnext by (by destruct Hn as [[_ ->]|[_ ->]]).
    inversion Hcases as [Hab|e Hnt|c' Ht' Hl'|c' Ht' Hl' Hall|c' e j rel Ht' Hj Hs
                         |c' j rel Ht' Hj Hh Hs]; subst; try congruence.
    + split; cbn [threads mem history sh_world pc goto]; [done | | apply Hatt'].
      exists c. split; [done |]. by rewrite Hcl0.
    + assert (c' = c) as -> by congruence.
      split; cbn [threads mem history sh_world pc goto]; [done | | apply Hatt'].
      exists "". split; [by eapply list_text_rewritten |].
      rewrite read_lines_empty_text, Hcl0 by done. by rewrite Hl' in Hord.
    + split; cbn [threads mem history sh_world pc goto]; [done | | apply Hatt'].
      exists c. split; [exact Ht |]. by rewrite Hcl0.
    + split; cbn [threads mem history sh_world pc goto]; [done | | apply Hatt'].
      exists c. split; [exact Ht |]. by rewrite Hcl0.
    + (* a job is claimed: its line is the first *)
      assert (c' = c) as -> by congruence.
      assert (j = 0) as ->.
      { destruct j as [|j]; [done |]. exfalso.
        destruct (read_lines c) as [|r0 rest] eqn:Hl; [done |].
        simpl in Hh. inversion Hh as [|? ? Hheld _]; subst.
        unfold held, lock_status in Hheld.
        destruct (check_parent _ _); [done |].
        destruct (files (sh_world (mem p)) !! lock_key (sh_world (mem p)) (full_path cfg r0))
          as [n|] eqn:E; [|done].
        assert (full_path cfg r0 ∈ paths0 cfg w0) as Hin.
        { rewrite <- Hord. apply elem_of_app. right. simpl. apply list_elem_of_here. }
        assert (lock_key (sh_world (mem p)) (full_path cfg r0)
                = lock_key w0 (full_path cfg r0)) as Hk
          by (unfold lock_key; by rewrite Hcwd).
        rewrite Hk in E.
        pose proof (lk_held _ _ _ Hlk (full_path cfg r0) Hin) as Hx.
        rewrite Hths, E, Hnone in Hx.
        specialize (Hx (mk_is_Some _ _ eq_refl)). by apply elem_of_nil in Hx. }
      split; cbn [threads mem history sh_world pc goto]; [done | | apply Hatt'].
      exists (unlines (delete 0 (read_lines c))).
      split; [by eapply list_text_rewritten |].
      rewrite read_lines_after_delete, claims_snoc, Hcl.
      destruct (read_lines c) as [|r0 rest] eqn:Hl; [done |].
      simpl in Hj. injection Hj as ->. simpl. rewrite <- Hord. simpl.
      by rewrite <- app_assoc.
  - (* any other step *)
    rewrite <- Hths in Hi.
    pose proof (quiet_step_keeps_list p 0 o _ l Hli Hi Hstep Hn1 Hn2) as Hsame.
    cbn [mem] in Hsame.
    set (r := worker_step cfg o l (mem p)) in *.
    assert (claim_of (0, pc l, pc r.1) = []) as Hcl by (by destruct (pc l)).
    assert (attempt_of (0, pc l, pc r.1) ++ waiting_job r.1 = waiting_job l) as Haw.
    { unfold r, worker_step, waiting_job.
      destruct (pc l) as [| | |job lk|job lk|lk pend| |e] eqn:Hpc; try done.
      - by destruct (list_has_remaining cfg _) as [[[|]|?] ?].
      - by destruct (transcode_file _ _ job _) as [[[|]|?] ?].
      - by destruct (log_failure cfg _ _) as [[?|?] ?].
      - by destruct (release_item_lock lk _) as [[?|?] ?]; destruct pend. }
    split; cbn [threads mem history].
    + done.
    + exists c. split; [by rewrite Hsame |].
      by rewrite claims_snoc, Hcl, app_nil_r.
    + rewrite Hg, claims_snoc, attempts_snoc, Hcl, app_nil_r, <- app_assoc, Haw. done.
Qed.

Lemma seq_inv_reachable p :
  workers cfg ≤ 1 → reachable cfg w0 p → seq_inv cfg w0 p.
Proof using Hlayout Hmarkers.
  intros Hone. induction 1 as [ths w Hmain | p i o p' Hreach IH Hstep].
  - destruct (main_started _ _ _ _ Hmain) as (-> & -> & c & Ht & Hne).
    replace (Nat.max 1 (workers cfg)) with 1 by lia.
    split; simpl; [done | | done].
    exists c. split; [done |]. unfold paths0. by rewrite Ht.
  - eapply seq_inv_step; [| |done|done].
    + by apply list_inv_reachable.
    + by apply lock_inv_reachable.
Qed.

End OneWorker.

(** X14: with one worker the list is worked off in its order.  At every
    moment of such a run the paths claimed so far, followed by the lines
    still in the list, are the list of the start in its order; the paths
    handed to the pipeline, followed by the one that is waiting for it,
    are the paths claimed, in that order; and a complete run has handed
    the paths of the list to the pipeline one by one from the first to the
    last. *)
Theorem single_worker_takes_the_list_in_order
  (cfg : config) (w0 : world) (p : pool) :
  list_apart cfg w0 = true →
  markers_apart cfg w0 = true →
  workers cfg ≤ 1 →
  reachable cfg w0 p →
  (∃ c, list_text cfg (sh_world (mem p)) = Some c
        ∧ claims (history p) ++ map (full_path cfg) (read_lines c) = paths0 cfg w0)
  ∧ attempts (history p) ++ gather waiting_job (threads p) = claims (history p)
  ∧ (complete p → attempts (history p) = paths0 cfg w0).
Proof.
  intros Hlayout Hmarkers Hone Hreach.
  destruct (seq_inv_reachable cfg w0 Hlayout Hmarkers p Hone Hreach)
    as [Hlen (c & Ht & Hord) Hatt].
  split; [by exists c |]. split; [done |]. intros Hcomplete.
  destruct (list_inv_reachable cfg w0 Hlayout p Hreach)
    as [_ Hths (c' & Ht' & _ & Hdone) _ _].
  assert (c' = c) as -> by congruence.
  assert (read_lines c = []) as Hnil.
  { destruct (read_lines c) as [|x xs] eqn:E; [done |]. exfalso.
    assert (Forall (λ l, pc l ≠ WDone) (threads p)) as Hno by by apply Hdone.
    unfold complete in Hcomplete.
    destruct (threads p) as [|l ths]; [done |].
    inversion Hno; subst. inversion Hcomplete; subst. done. }
  rewrite Hnil in Hord. simpl in Hord. rewrite app_nil_r in Hord.
  rewrite <- Hord, <- Hatt.
  rewrite gather_nil; [by rewrite app_nil_r |].
  eapply Forall_impl; [exact Hcomplete |]. intros l Hl. unfold waiting_job. by rewrite Hl.
Qed.

(** One worker on the list a.mkv, b.mkv. *)
Definition solo_config : config :=
  {| input_file := "transcode_list.txt"; base_path := "/data";
     log_file := "transcode_failures.log"; workers := 1 |}.

Definition solo_start : pool :=
  {| threads := [fresh_worker];
     mem := {| sh_world := world_start; global_counter := 0 |};
     history := [] |}.

Definition solo_final : pool :=
  Eval vm_compute in
    default solo_start
      (run_schedule solo_config (replicate 9 (0, answers_hevc)) solo_start).

Lemma single_worker_takes_the_list_in_order_witness :
  complete solo_final
  ∧ attempts (history solo_final) = ["/data/a.mkv"; "/data/b.mkv"].
Proof.
  assert (Hreach : reachable solo_config world_start solo_final).
  { apply (run_schedule_reachable _ _ (replicate 9 (0, answers_hevc)) solo_start).
    - apply (reach_start solo_config world_start [fresh_worker] world_start).
      vm_compute. reflexivity.
    - vm_compute. reflexivity. }
  assert (Hc : complete solo_final).
  { unfold complete. vm_compute. repeat constructor. }
  assert (Hl : list_apart solo_config world_start = true) by (vm_compute; reflexivity).
  assert (Hm : markers_apart solo_config world_start = true) by (vm_compute; reflexivity).
  assert (Ho : workers solo_config ≤ 1) by (simpl; lia).
  split; [exact Hc |].
  exact (proj2 (proj2 (single_worker_takes_the_list_in_order solo_config world_start
                         solo_final Hl Hm Ho Hreach)) Hc).
Defined.

(* ===================================================================== *)
(** * The list the analysis writes                                        *)
(* ===================================================================== *)

Import AnalyzeCodecs.

(** The codec and the media source line 81 decides by. *)
Definition video_codec_of (item : json) : outcome json :=
  (streams <- get item "MediaStreams" (JList []) ;;
   media_streams <- iterate streams ;;
   first_video_codec media_streams)%out.

Definition media_source_of (answer : http_outcome) : outcome json :=
  (sources <- get (get_item_playback_info answer) "MediaSources" (JList [JDict []]) ;;
   index0 sources)%out.

(** The item contributes the candidate [c]: its first video stream has a
    codec to transcode, the request for its playback info gave a value
    that counts as true, and the first media source of that value has the
    path of [c], which counts as true, and the size of [c]. *)
Definition contributes (answer : http_outcome) (item : json) (c : Z * json) : Prop :=
  ∃ s ms size,
    video_codec_of item = Returns (JStr s)
    ∧ nonempty s = true
    ∧ lower s ∈ INEFFICIENT_CODECS
    ∧ truth (get_item_playback_info answer) = true
    ∧ media_source_of answer = Returns ms
    ∧ get ms "Size" (JInt 0) = Returns size
    ∧ as_summand (if truth size then size else JInt 0) = Returns c.1
    ∧ get ms "Path" (JStr "") = Returns c.2
    ∧ truth c.2 = true.

Definition by_size_descending (a b : Z * json) : Prop := (b.1 ≤ a.1)%Z.

Section Sorting.

Lemma insert_by_size_perm x l : insert_by_size x l ≡ₚ x :: l.
Proof.
  induction l as [|y l IH]; simpl; [done |].
  destruct (x.1 <? y.1)%Z; [|done]. rewrite IH. apply Permutation_swap.
Qed.

Lemma sorted_by_size_perm l : sorted_by_size l ≡ₚ l.
Proof.
  induction l as [|x l IH]; simpl; [done |].
  by rewrite insert_by_size_perm, IH.
Qed.

Lemma insert_by_size_sorted x l :
  StronglySorted by_size_descending l →
  StronglySorted by_size_descending (insert_by_size x l).
Proof.
  induction 1 as [|y l Hs IH Hy]; simpl; [repeat constructor |].
  destruct (x.1 <? y.1)%Z eqn:E.
  - apply Z.ltb_lt in E. constructor; [done |].
    rewrite insert_by_size_perm. constructor; [unfold by_size_descending; lia | done].
  - apply Z.ltb_ge in E. constructor; [by constructor |].
    constructor; [done |].
    eapply Forall_impl; [exact Hy |]. unfold by_size_descending. intros z Hz. lia.
Qed.

Lemma sorted_by_size_sorted l : StronglySorted by_size_descending (sorted_by_size l).
Proof.
  induction l as [|x l IH]; simpl; [constructor | by apply insert_by_size_sorted].
Qed.

(** The sort is stable: among the candidates of one size the order of
    the input is kept. *)
Lemma insert_by_size_stable (z : Z) x l :
  filter (λ c : Z * json, c.1 = z) (insert_by_size x l)
  = filter (λ c : Z * json, c.1 = z) (x :: l).
Proof.
  induction l as [|y l IH]; simpl; [done |].
  destruct (x.1 <? y.1)%Z eqn:E; [|done].
  apply Z.ltb_lt in E. rewrite !filter_cons, IH, !filter_cons.
  destruct (decide (x.1 = z)), (decide (y.1 = z)); try done. lia.
Qed.

Lemma sorted_by_size_stable (z : Z) l :
  filter (λ c : Z * json, c.1 = z) (sorted_by_size l)
  = filter (λ c : Z * json, c.1 = z) l.
Proof.
  induction l as [|x l IH]; simpl; [done |].
  by rewrite insert_by_size_stable, !filter_cons, IH.
Qed.

End Sorting.

(** The tally with one more analysed item of codec [codec] and size [n],
    a candidate when [path] is given. *)
Definition counted (t : tally) (codec : string) (n : Z) (path : option json) : tally :=
  let stats := default (0, 0)%Z (codec_stats t !! codec) in
  {| codec_stats := <[codec := (stats.1 + 1, stats.2 + n)%Z]> (codec_stats t);
     total_bytes := (total_bytes t + n)%Z;
     transcode_bytes := match path with
                        | Some _ => (transcode_bytes t + n)%Z
                        | None => transcode_bytes t
                        end;
     transcode_candidates := match path with
                             | Some p => transcode_candidates t ++ [(n, p)]
                             | None => transcode_candidates t
                             end |}.

Section Items.

(** The body of the loop, by what the item and the answer are. *)
Lemma analyze_item_eq answer item t :
  analyze_item answer item t =
    (video_codec <- video_codec_of item ;;
     if negb (truth video_codec) then Returns t else
     if negb (truth (get_item_playback_info answer)) then Returns t else
     media_source <- media_source_of answer ;;
     size <- get media_source "Size" (JInt 0) ;;
     path <- get media_source "Path" (JStr "") ;;
     match video_codec with
     | JStr s =>
         n <- as_summand (if truth size then size else JInt 0) ;;
         Returns (counted t (lower s) n
                    (if bool_decide (lower s ∈ INEFFICIENT_CODECS) && truth path
                     then Some path else None))
     | _ => Raises AttributeError
     end)%out.
Proof.
  unfold analyze_item, video_codec_of, media_source_of.
  destruct item as [| | | | | |d]; try done. cbn [get obind].
  destruct (iterate _) as [media_streams| |]; [|done|done]. cbn [obind].
  destruct (first_video_codec media_streams) as [video_codec| |]; [|done|done].
  cbn [obind].
  destruct (truth video_codec) eqn:Hvc; [|done]. cbn [negb].
  destruct (truth (get_item_playback_info answer)); [|done]. cbn [negb].
  destruct (get (get_item_playback_info answer) _ _) as [sources| |]; [|done|done].
  cbn [obind].
  destruct (index0 sources) as [media_source| |]; [|done|done]. cbn [obind].
  destruct (get media_source "Size" _) as [size| |]; [|done|done]. cbn [obind].
  destruct (get media_source "Path" _) as [path| |]; [|done|done]. cbn [obind].
  destruct video_codec as [| | | |s| |]; try done.
  destruct (as_summand _) as [n| |]; [|done|done]. cbn [obind].
  destruct (truth path) eqn:Htp; cbn [truth nonempty]; rewrite ?Htp;
    by destruct (bool_decide _).
Qed.

(** What one item adds to the candidates. *)
Lemma analyze_item_candidates answer item t t' :
  analyze_item answer item t = Returns t' →
  (transcode_candidates t' = transcode_candidates t
   ∧ ∀ c, ¬ contributes answer item c)
  ∨ (∃ c, transcode_candidates t' = transcode_candidates t ++ [c]
          ∧ ∀ c', contributes answer item c' ↔ c' = c).
Proof.
  rewrite analyze_item_eq. unfold contributes.
  destruct (video_codec_of item) as [video_codec| |] eqn:Hv; [|done|done]. cbn [obind].
  destruct (truth video_codec) eqn:Hvc; cbn [negb].
  2:{ intros [= <-]. left. split; [done |].
      intros c (s & ms & size & [= ->] & Hs & _). simpl in Hvc. congruence. }
  destruct (truth (get_item_playback_info answer)) eqn:Hpb; cbn [negb].
  2:{ intros [= <-]. left. split; [done |].
      intros c (s & ms & size & _ & _ & _ & ? & _). congruence. }
  destruct (media_source_of answer) as [ms| |] eqn:Hms; [|done|done]. cbn [obind].
  destruct (get ms "Size" _) as [size| |] eqn:Hsz; [|done|done]. cbn [obind].
  destruct (get ms "Path" _) as [path| |] eqn:Hpa; [|done|done]. cbn [obind].
  destruct video_codec as [| | | |s| |]; try done.
  destruct (as_summand _) as [n| |] eqn:Hn; [|done|done]. cbn [obind].
  intros [= <-]. simpl in Hvc.
  destruct (bool_decide (lower s ∈ INEFFICIENT_CODECS)) eqn:Hin; simpl.
  - destruct (truth path) eqn:Htp.
    + right. exists (n, path). split; [done |]. intros [n' path']; split.
      * intros (s' & ms' & size' & [= <-] & _ & _ & _ & [= <-] & Hsz' & Hn' & Hpa' & _).
        simpl in *. rewrite Hsz in Hsz'. injection Hsz' as <-.
        rewrite Hn in Hn'. injection Hn' as <-.
        rewrite Hpa in Hpa'. by injection Hpa' as <-.
      * intros [= -> ->]. exists s, ms, size. apply bool_decide_eq_true in Hin. done.
    + left. split; [done |].
      intros c (s' & ms' & size' & _ & _ & _ & _ & [= <-] & _ & _ & Hpa' & Htc).
      congruence.
  - left. split; [done |].
    intros c (s' & ms' & size' & [= <-] & _ & Hin' & _).
    apply bool_decide_eq_false in Hin. done.
Qed.

(** What the loop adds to the candidates: the contributions of the
    items, and nothing else. *)
Lemma analyze_items_candidates answers items : ∀ k t t',
  analyze_items answers k items t = Returns t' →
  ∀ c, c ∈ transcode_candidates t' ↔
       c ∈ transcode_candidates t
       ∨ ∃ j item, items !! j = Some item ∧ contributes (answers (k + j)) item c.
Proof.
  induction items as [|item rest IH]; intros k t t' H c.
  - injection H as <-. split; [auto |]. intros [?|(j & it & Hj & _)]; done.
  - simpl in H.
    destruct (analyze_item (answers k) item t) as [t1| |] eqn:H1; [|done|done].
    cbn [obind] in H. rewrite (IH _ _ _ H c).
    destruct (analyze_item_candidates _ _ _ _ H1) as [[Heq Hno]|(c1 & Heq & Hc1)];
      rewrite Heq.
    + split.
      * intros [?|(j & it & Hj & Hc)]; [by left |].
        right. exists (S j), it. by rewrite Nat.add_succ_r.
      * intros [?|(j & it & Hj & Hc)]; [by left |].
        destruct j as [|j]; simpl in Hj.
        -- injection Hj as ->. rewrite Nat.add_0_r in Hc. by destruct (Hno c).
        -- right. exists j, it. by rewrite Nat.add_succ_r in Hc.
    + rewrite elem_of_app, list_elem_of_singleton. split.
      * intros [[?| ->]|(j & it & Hj & Hc)]; [by left | |].
        -- right. exists 0, item. rewrite Nat.add_0_r. split; [done |]. by apply Hc1.
        -- right. exists (S j), it. by rewrite Nat.add_succ_r.
      * intros [?|(j & it & Hj & Hc)]; [by left; left |].
        destruct j as [|j]; simpl in Hj.
        -- injection Hj as ->. rewrite Nat.add_0_r in Hc. left. right. by apply Hc1.
        -- right. exists j, it. by rewrite Nat.add_succ_r in Hc.
Qed.

Lemma analyze_returns answers data paths :
  analyze_codecs_and_collect_paths answers data = Returns paths →
  ∃ items t,
    (v <- get data "Items" (JList []) ;; iterate v)%out = Returns items
    ∧ analyze_items answers 1 items no_tally = Returns t
    ∧ paths = map snd (sorted_by_size (transcode_candidates t)).
Proof.
  unfold analyze_codecs_and_collect_paths.
  destruct (get data "Items" _) as [v| |]; [|done|done]. cbn [obind].
  destruct (iterate v) as [items| |]; [|done|done]. cbn [obind].
  destruct (analyze_items answers 1 items no_tally) as [t| |] eqn:Hloop; [|done|done].
  cbn [obind].
  destruct (print_summary t) as [[]| |]; [|done|done]. cbn [obind].
  intros [= <-]. by exists items, t.
Qed.

End Items.

(** The items of the answer of the server, as the loop meets them. *)
Definition items_of (data : json) : outcome (list json) :=
  (v <- get data "Items" (JList []) ;; iterate v)%out.

(** X15: the analysis lists exactly the paths of the items that
    contribute a candidate: those whose first video stream has a codec of
    the inefficient set, compared in lower case, whose playback info could
    be fetched, and whose first media source has a path that is not
    empty.  Items without a video codec and items whose request failed
    are passed over. *)
Theorem analysis_lists_the_inefficient_items
  (answers : nat → http_outcome) (data : json) (paths : list json) :
  analyze_codecs_and_collect_paths answers data = Returns paths →
  ∃ items,
    items_of data = Returns items
    ∧ ∀ path, path ∈ paths ↔
        ∃ i item n, items !! i = Some item
                    ∧ contributes (answers (S i)) item (n, path).
Proof.
  intros H. destruct (analyze_returns _ _ _ H) as (items & t & Hitems & Hloop & ->).
  exists items. split; [done |]. intros path.
  pose proof (analyze_items_candidates answers items 1 no_tally t Hloop) as Hc.
  split.
  - intros Hin. apply list_elem_of_fmap in Hin as ([n p] & -> & Hin).
    rewrite sorted_by_size_perm in Hin. apply Hc in Hin as [Hin|(j & item & Hj & Hcon)].
    + by apply elem_of_nil in Hin.
    + by exists j, item, n.
  - intros (i & item & n & Hi & Hcon).
    apply list_elem_of_fmap. exists (n, path). split; [done |].
    rewrite sorted_by_size_perm. apply Hc. right. by exists i, item.
Qed.

(** X16: the analysis lists the largest files first: its result is the
    paths of a list of candidates, each with its size, that is in
    descending order of size, holds the candidates the loop collected,
    each as often as collected, and keeps those of one size in the order
    in which the loop met them. *)
Theorem analysis_lists_largest_first
  (answers : nat → http_outcome) (data : json) (paths : list json) :
  analyze_codecs_and_collect_paths answers data = Returns paths →
  ∃ items t ranked,
    items_of data = Returns items
    ∧ analyze_items answers 1 items no_tally = Returns t
    ∧ paths = map snd ranked
    ∧ StronglySorted by_size_descending ranked
    ∧ ranked ≡ₚ transcode_candidates t
    ∧ (∀ z : Z, filter (λ c : Z * json, c.1 = z) ranked
              = filter (λ c : Z * json, c.1 = z) (transcode_candidates t))
    ∧ (∀ c, c ∈ ranked ↔
         ∃ i item, items !! i = Some item ∧ contributes (answers (S i)) item c).
Proof.
  intros H. destruct (analyze_returns _ _ _ H) as (items & t & Hitems & Hloop & ->).
  exists items, t, (sorted_by_size (transcode_candidates t)).
  split; [done |]. split; [done |]. split; [done |].
  split; [apply sorted_by_size_sorted |].
  split; [apply sorted_by_size_perm |].
  split; [intros z; apply sorted_by_size_stable |].
  intros c. rewrite sorted_by_size_perm.
  rewrite (analyze_items_candidates answers items 1 no_tally t Hloop c).
  split.
  - intros [Hin|Hex]; [by apply elem_of_nil in Hin | done].
  - intros Hex. by right.
Qed.

(** A server with three items: an h264 file of 10 bytes, an hevc file of
    50 bytes and an MPEG4 file of 30 bytes. *)
Definition sample_item (id codec : string) : json :=
  JDict [("Id", JStr id);
         ("MediaStreams",
          JList [JDict [("Type", JStr "Audio"); ("Codec", JStr "aac")];
                 JDict [("Type", JStr "Video"); ("Codec", JStr codec)]])].

Definition sample_data : json :=
  JDict [("Items", JList [sample_item "1" "h264"; sample_item "2" "hevc";
                          sample_item "3" "MPEG4"]);
         ("TotalRecordCount", JInt 3)].

Definition sample_info (size : Z) (path : string) : http_outcome :=
  HttpResponse 200
    (Some (JDict [("MediaSources",
                   JList [JDict [("Path", JStr path); ("Size", JInt size)]])])).

Definition sample_answers (i : nat) : http_outcome :=
  match i with
  | 1 => sample_info 10 "/media/small.mkv"
  | 2 => sample_info 50 "/media/new.mkv"
  | 3 => sample_info 30 "/media/big.mkv"
  | _ => HttpRaises
  end.

Lemma analysis_lists_the_inefficient_items_witness :
  ∃ items,
    items_of sample_data = Returns items
    ∧ ∀ path, path ∈ [JStr "/media/big.mkv"; JStr "/media/small.mkv"] ↔
        ∃ i item n, items !! i = Some item
                    ∧ contributes (sample_answers (S i)) item (n, path).
Proof.
  exact (analysis_lists_the_inefficient_items sample_answers sample_data
           [JStr "/media/big.mkv"; JStr "/media/small.mkv"]
           ltac:(vm_compute; reflexivity)).
Defined.

Lemma analysis_lists_largest_first_witness :
  ∃ items t ranked,
    items_of sample_data = Returns items
    ∧ analyze_items sample_answers 1 items no_tally = Returns t
    ∧ [JStr "/media/big.mkv"; JStr "/media/small.mkv"] = map snd ranked
    ∧ StronglySorted by_size_descending ranked.
Proof.
  destruct (analysis_lists_largest_first sample_answers sample_data
              [JStr "/media/big.mkv"; JStr "/media/small.mkv"]
              ltac:(vm_compute; reflexivity))
    as (items & t & ranked & H1 & H2 & H3 & H4 & _).
  by exists items, t, ranked.
Defined.

(** X17: an item is passed over, the tally staying as it is, when the
    request for its playback info raises, is answered with another status
    than 200 or with a body that is not JSON, and when none of its streams
    is a video stream with a codec; the analysis then goes on with the
    next item.  Only an item whose streams cannot be read stops it. *)
Theorem unanswered_item_is_passed_over
  (answer : http_outcome) (item : json) (t : tally) :
  (truth (get_item_playback_info answer) = false →
     analyze_item answer item t = obind (video_codec_of item) (λ _, Returns t))
  ∧ (answer = HttpRaises
     ∨ (∃ code body, answer = HttpResponse code body ∧ (code ≠ 200%Z ∨ body = None)) →
     truth (get_item_playback_info answer) = false)
  ∧ (∀ video_codec, video_codec_of item = Returns video_codec →
       truth video_codec = false →
       analyze_item answer item t = Returns t)
  ∧ (∀ rest answers i,
       analyze_item answer item t = Returns t →
       answers i = answer →
       analyze_items answers i (item :: rest) t = analyze_items answers (S i) rest t).
Proof.
  split; [|split; [|split]].
  - intros Hpb. rewrite analyze_item_eq.
    destruct (video_codec_of item) as [vc| |]; [|done|done]. cbn [obind].
    rewrite Hpb. by destruct (truth vc).
  - intros [-> | (code & body & -> & [Hc | ->])]; [done | |].
    + simpl. destruct (code =? 200)%Z eqn:E; [|done]. apply Z.eqb_eq in E. done.
    + simpl. by destruct (code =? 200)%Z.
  - intros vc Hvc Hf. rewrite analyze_item_eq, Hvc. cbn [obind]. by rewrite Hf.
  - intros rest answers i Hitem <-. simpl. by rewrite Hitem.
Qed.

Section Saving.

Lemma written_strings ps : written (map JStr ps) = (unlines ps, true).
Proof.
  induction ps as [|p ps IH]; [done |].
  simpl. rewrite IH. done.
Qed.

Lemma written_stops ps v rest :
  (∀ s, v ≠ JStr s) → written (map JStr ps ++ v :: rest) = (unlines ps, false).
Proof.
  intros Hv. induction ps as [|p ps IH]; simpl.
  - destruct v; try done. by destruct (Hv s).
  - by rewrite IH.
Qed.

(** [save_paths_to_file]: the file cannot be opened and nothing changes,
    or it holds what the loop wrote. *)
Lemma save_paths_to_file_cases paths filename w :
  (∃ e, save_paths_to_file paths filename w = (Raises (OsError e), w))
  ∨ (nonempty filename = true ∧ dir_required filename = false
     ∧ files w !! key_of (cwd w) filename ≠ Some Dir
     ∧ save_paths_to_file paths filename w =
         (if (written paths).2 then Returns tt else Raises TypeError,
          extend w (<[key_of (cwd w) filename := File (written paths).1]> (files w))
            [EvWrite (key_of (cwd w) filename) (written paths).1])).
Proof.
  unfold save_paths_to_file.
  destruct (nonempty filename) eqn:Hne; simpl; [|left; eauto].
  destruct (files w !! key_of (cwd w) filename) as [[c|]|] eqn:E.
  - destruct (dir_required filename) eqn:Hd; [left; eauto | by right].
  - left; eauto.
  - destruct (check_parent w _) as [e|]; [left; eauto |].
    destruct (dir_required filename) eqn:Hd; [left; eauto | by right].
Qed.

End Saving.

Section ReadingBack.

Lemma written_all paths :
  (written paths).2 = true → ∃ ps, paths = map JStr ps.
Proof.
  induction paths as [|v paths IH]; [by exists [] |].
  destruct v as [| | | |s| |]; try done. simpl. intros H.
  destruct (IH H) as [ps ->]. by exists (s :: ps).
Qed.

(** The list as the transcoder reads it after [ps] was saved to its
    input file. *)
Lemma saved_list cfg ps w w' :
  save_paths_to_file (map JStr ps) (input_file cfg) w = (Returns tt, w') →
  cwd w' = cwd w
  ∧ list_text cfg w' = Some (unlines ps)
  ∧ (∀ k, k ≠ list_key cfg w → files w' !! k = files w !! k)
  ∧ (Forall clean_line ps → paths0 cfg w' = map (full_path cfg) ps).
Proof.
  intros Hsave.
  destruct (save_paths_to_file_cases (map JStr ps) (input_file cfg) w)
    as [[e He]|(Hne & Hd & Hnd & Heq)]; [congruence |].
  rewrite Heq, written_strings in Hsave. injection Hsave as <-.
  assert (list_text cfg
            (extend w (<[key_of (cwd w) (input_file cfg) := File (unlines ps)]> (files w))
               [EvWrite (key_of (cwd w) (input_file cfg)) (unlines ps)])
          = Some (unlines ps)) as Ht.
  { unfold list_text, stat. rewrite Hne, Hd. simpl. by rewrite lookup_insert_eq. }
  split; [done |]. split; [exact Ht |]. split.
  - intros k Hk. simpl. by rewrite lookup_insert_ne.
  - intros Hclean. unfold paths0. rewrite Ht. by rewrite read_lines_unlines.
Qed.

End ReadingBack.

(** X18: what [save_paths_to_file] writes the transcoder reads back.
    When the paths are strings without white space at their ends and
    without a line break, and the file could be written, the file holds
    one path per line and nothing else, no other file has changed,
    reading it as the transcoder does gives the paths in their order, and
    each is resolved against the base directory. *)
Theorem saved_list_is_read_back (cfg : config) (ps : list string) (w : world) :
  Forall clean_line ps →
  (save_paths_to_file (map JStr ps) (input_file cfg) w).1 = Returns tt →
  let w' := (save_paths_to_file (map JStr ps) (input_file cfg) w).2 in
  cwd w' = cwd w
  ∧ list_text cfg w' = Some (unlines ps)
  ∧ read_lines (unlines ps) = ps
  ∧ paths0 cfg w' = map (full_path cfg) ps
  ∧ (∀ k, k ≠ list_key cfg w → files w' !! k = files w !! k).
Proof.
  intros Hclean Hok w'.
  destruct (save_paths_to_file (map JStr ps) (input_file cfg) w) as [r v] eqn:E.
  simpl in Hok. subst r. unfold w'. simpl.
  destruct (saved_list cfg ps w v E) as (Hc & Ht & Hf & Hp).
  split; [done |]. split; [done |]. split; [by apply read_lines_unlines |].
  split; [by apply Hp | done].
Qed.

Lemma saved_list_is_read_back_witness :
  paths0 sample_config
    (save_paths_to_file [JStr "/media/big.mkv"; JStr "/media/small.mkv"]
       "transcode_list.txt" world_exhausted).2
  = ["/data/media/big.mkv"; "/data/media/small.mkv"].
Proof.
  assert (Forall clean_line ["/media/big.mkv"; "/media/small.mkv"]) as Hclean.
  { repeat constructor. }
  exact (proj1 (proj2 (proj2 (proj2
           (saved_list_is_read_back sample_config ["/media/big.mkv"; "/media/small.mkv"]
              world_exhausted Hclean eq_refl))))).
Defined.

(** X19: from the server to the transcoder.  When the script has run to
    its end, the server answered the first request with status 200, and
    the list it wrote holds the paths of a ranking of candidates that is
    in descending order of size and holds exactly the candidates the
    items contribute.  A transcoder whose input is that file, when every
    path is free of white space at its ends and of line breaks, finds
    these paths in that order, each resolved against its base directory. *)
Theorem scan_feeds_the_transcoder
  (first : http_outcome) (answers : nat → http_outcome) (cfg : config) (w w' : world) :
  input_file cfg = OUTPUT_FILE →
  run first answers w = (Returns tt, w') →
  ∃ data items ranked ps,
    first = HttpResponse 200 (Some data)
    ∧ items_of data = Returns items
    ∧ StronglySorted by_size_descending ranked
    ∧ (∀ c, c ∈ ranked ↔
         ∃ i item, items !! i = Some item ∧ contributes (answers (S i)) item c)
    ∧ map snd ranked = map JStr ps
    ∧ list_text cfg w' = Some (unlines ps)
    ∧ (∀ k, k ≠ list_key cfg w → files w' !! k = files w !! k)
    ∧ (Forall clean_line ps → paths0 cfg w' = map (full_path cfg) ps).
Proof.
  intros Hin Hrun. unfold run in Hrun.
  destruct (get_all_items first) as [data| |] eqn:Hfirst; [|done|done].
  assert (first = HttpResponse 200 (Some data)) as ->.
  { unfold get_all_items in Hfirst. destruct first as [|code [body|]]; [done | |].
    - destruct (code =? 200)%Z eqn:E; [|done]. apply Z.eqb_eq in E as ->.
      by injection Hfirst as ->.
    - by destruct (code =? 200)%Z. }
  destruct (analyze_codecs_and_collect_paths answers data) as [paths| |] eqn:Han;
    [|done|done].
  destruct (analyze_returns _ _ _ Han) as (items & t & Hitems & Hloop & ->).
  assert (∃ ps, map snd (sorted_by_size (transcode_candidates t)) = map JStr ps)
    as [ps Hps].
  { apply written_all.
    destruct (save_paths_to_file_cases (map snd (sorted_by_size (transcode_candidates t)))
                OUTPUT_FILE w) as [[e He]|(_ & _ & _ & Heq)]; [congruence |].
    rewrite Heq in Hrun. by destruct (written _).2. }
  rewrite Hps, <- Hin in Hrun.
  destruct (saved_list cfg ps w w' Hrun) as (_ & Ht & Hf & Hp).
  exists data, items, (sorted_by_size (transcode_candidates t)), ps.
  split; [done |]. split; [done |]. split; [apply sorted_by_size_sorted |].
  split; [|done].
  intros c. rewrite sorted_by_size_perm.
  rewrite (analyze_items_candidates answers items 1 no_tally t Hloop c).
  split.
  - intros [Hc|Hex]; [by apply elem_of_nil in Hc | done].
  - intros Hex. by right.
Qed.

Lemma scan_feeds_the_transcoder_witness :
  ∃ ps,
    list_text sample_config
      (run (HttpResponse 200 (Some sample_data)) sample_answers world_exhausted).2
    = Some (unlines ps).
Proof.
  destruct (scan_feeds_the_transcoder (HttpResponse 200 (Some sample_data)) sample_answers
              sample_config world_exhausted
              (run (HttpResponse 200 (Some sample_data)) sample_answers world_exhausted).2
              eq_refl ltac:(vm_compute; reflexivity))
    as (data & items & ranked & ps & _ & _ & _ & _ & _ & Ht & _).
  by exists ps.
Defined.

Section Stopping.

(** An item that raises ends the loop with its exception. *)
Lemma analyze_items_raises answers pre : ∀ k t t1 item rest e,
  analyze_items answers k pre t = Returns t1 →
  analyze_item (answers (k + length pre)) item t1 = Raises e →
  analyze_items answers k (pre ++ item :: rest) t = Raises e.
Proof.
  induction pre as [|x pre IH]; intros k t t1 item rest e Hpre Hitem; simpl in *.
  - injection Hpre as ->. rewrite Nat.add_0_r in Hitem. by rewrite Hitem.
  - destruct (analyze_item (answers k) x t) as [t'| |]; [|done|done]. cbn [obind] in *.
    eapply IH; [exact Hpre |]. by rewrite Nat.add_succ_l, <- Nat.add_succ_r.
Qed.

End Stopping.

(** X20: one item can stop the whole scan.  When the playback info of an
    item with a video codec has an empty list of media sources, line 71
    raises [IndexError]; the exception leaves the loop and the function,
    whatever the items before contributed, and the script ends without
    having written anything: the list of an earlier scan stays as it
    is. *)
Theorem empty_media_sources_stop_the_scan
  (answers : nat → http_outcome) (data video_codec : json)
  (pre rest : list json) (item : json) (t1 : tally)
  (info : list (string * json)) (w : world) :
  items_of data = Returns (pre ++ item :: rest) →
  analyze_items answers 1 pre no_tally = Returns t1 →
  video_codec_of item = Returns video_codec →
  truth video_codec = true →
  get_item_playback_info (answers (S (length pre))) = JDict info →
  assoc "MediaSources" info = Some (JList []) →
  analyze_item (answers (S (length pre))) item t1 = Raises IndexError
  ∧ analyze_codecs_and_collect_paths answers data = Raises IndexError
  ∧ run (HttpResponse 200 (Some data)) answers w = (Raises IndexError, w).
Proof.
  intros Hitems Hpre Hvc Htruth Hinfo Hsources.
  assert (analyze_item (answers (S (length pre))) item t1 = Raises IndexError) as Hitem.
  { rewrite analyze_item_eq, Hvc. cbn [obind]. rewrite Htruth. cbn [negb].
    unfold media_source_of. rewrite Hinfo. cbn [truth get obind]. rewrite Hsources.
    by destruct info. }
  assert (analyze_codecs_and_collect_paths answers data = Raises IndexError) as Han.
  { unfold analyze_codecs_and_collect_paths. unfold items_of in Hitems.
    destruct (get data "Items" _) as [v| |]; [|done|done]. cbn [obind] in *.
    rewrite Hitems. cbn [obind].
    by rewrite (analyze_items_raises answers pre 1 no_tally t1 item rest IndexError Hpre Hitem). }
  split; [exact Hitem |]. split; [exact Han |].
  unfold run.
  change (get_all_items (HttpResponse 200 (Some data))) with (Returns data).
  cbv beta iota. by rewrite Han.
Qed.

(** The second of two items has no media source. *)
Definition answers_without_source (i : nat) : http_outcome :=
  match i with
  | 1 => sample_info 10 "/media/small.mkv"
  | _ => HttpResponse 200 (Some (JDict [("MediaSources", JList [])]))
  end.

Lemma empty_media_sources_stop_the_scan_witness :
  run (HttpResponse 200
         (Some (JDict [("Items", JList [sample_item "1" "h264"; sample_item "2" "h264"])])))
    answers_without_source world_all_held
  = (Raises IndexError, world_all_held).
Proof.
  refine (proj2 (proj2 (empty_media_sources_stop_the_scan answers_without_source
            (JDict [("Items", JList [sample_item "1" "h264"; sample_item "2" "h264"])])
            (JStr "h264") [sample_item "1" "h264"] [] (sample_item "2" "h264")
            _ [("MediaSources", JList [])] world_all_held
            eq_refl _ eq_refl eq_refl eq_refl eq_refl))).
  vm_compute. reflexivity.
Defined.
